(** * Root cause discovery by permutations and Cholesky whitening

    A shallow embedding of [funcs/root_cause_discovery_funcs.py] and the
    properties of its threshold generator, permutation generator, whitening
    scorer, aggregation loops and high-dimensional orchestrator.

    Numbers.  The program computes with IEEE doubles.  Rounding is not
    modelled: a finite double is a rational ([Q]) and [+ - * /] on finite
    values are exact.  What IS modelled is what numpy does when a division
    meets a zero divisor: it warns and yields an infinity or a NaN, and the
    program carries on with that value.  Such values live in [fnum].

    Input data (the observational matrix, the interventional vector) are
    finite, and so are the entries of the whitened vector; z-scores and
    root-cause scores are [fnum]s because they come out of a division.

    Library routines that are not part of the repository (square root behind
    [np.std], [ShrunkCovariance], [LA.eigvals], [LA.cholesky],
    [np.linalg.solve], [LassoCV], [lasso_path]) are the fields of the
    interface [NumLib]; the program is written over an arbitrary instance. *)

From Stdlib Require Import List ZArith QArith Qabs Qround Lia Lqa.
From Stdlib Require Import Permutation Sorted Bool Arith.
Import ListNotations.

Set Implicit Arguments.

(* ================================================================== *)
(** * Python exceptions and the error monad *)

Inductive exn : Type :=
| AssertionError
| IndexError
| ValueError
| LinAlgError
| UnboundLocalError.

Inductive result (A : Type) : Type :=
| Ok (a : A)
| Raise (e : exn).

Arguments Ok {A} a.
Arguments Raise {A} e.

Definition bind {A B : Type} (c : result A) (k : A -> result B) : result B :=
  match c with
  | Ok a => k a
  | Raise e => Raise e
  end.

Notation "x <- c ;; k" := (bind c (fun x => k))
  (at level 61, c at next level, right associativity).
Notation "' pat <- c ;; k" := (bind c (fun x => match x with pat => k end))
  (at level 61, pat pattern, c at next level, right associativity).

(** [assert cond, msg] *)
Definition py_assert (cond : bool) : result unit :=
  if cond then Ok tt else Raise AssertionError.

(** [for x in xs: s = body(x, s)], stopping at the first exception. *)
Fixpoint for_each {A S : Type} (xs : list A) (body : A -> S -> result S)
         (s : S) : result S :=
  match xs with
  | [] => Ok s
  | x :: xs' => s' <- body x s ;; for_each xs' body s'
  end.

(** [[f(x) for x in xs]], stopping at the first exception. *)
Fixpoint map_result {A B : Type} (f : A -> result B) (xs : list A)
  : result (list B) :=
  match xs with
  | [] => Ok []
  | x :: xs' => y <- f x ;; ys <- map_result f xs' ;; Ok (y :: ys)
  end.

(* ================================================================== *)
(** * Doubles without rounding: finite rationals, infinities and NaN *)

Inductive fnum : Type :=
| Fin (q : Q)
| PInf
| NInf
| NaN.

Definition Qlt_bool (x y : Q) : bool := negb (Qle_bool y x).

(** Comparisons follow IEEE 754: every comparison with a NaN is false,
    except [!=], which is true. *)
Definition flt (a b : fnum) : bool :=
  match a, b with
  | Fin x, Fin y => Qlt_bool x y
  | Fin _, PInf | NInf, Fin _ | NInf, PInf => true
  | _, _ => false
  end.

Definition fle (a b : fnum) : bool :=
  match a, b with
  | Fin x, Fin y => Qle_bool x y
  | Fin _, PInf | NInf, Fin _ | NInf, PInf => true
  | PInf, PInf | NInf, NInf => true
  | _, _ => false
  end.

Definition fgt (a b : fnum) : bool := flt b a.
Definition fge (a b : fnum) : bool := fle b a.

Definition feq (a b : fnum) : bool :=
  match a, b with
  | Fin x, Fin y => Qeq_bool x y
  | PInf, PInf | NInf, NInf => true
  | _, _ => false
  end.

Definition fne (a b : fnum) : bool := negb (feq a b).

Definition fabs (a : fnum) : fnum :=
  match a with
  | Fin x => Fin (Qabs x)
  | PInf | NInf => PInf
  | NaN => NaN
  end.

Definition fsub (a b : fnum) : fnum :=
  match a, b with
  | Fin x, Fin y => Fin (x - y)
  | Fin _, PInf => NInf
  | Fin _, NInf => PInf
  | PInf, Fin _ | PInf, NInf => PInf
  | NInf, Fin _ | NInf, PInf => NInf
  | _, _ => NaN
  end.

(** The sign of a finite value; a zero is the positive zero, which is the
    only zero the program divides by (standard deviations, absolute values
    and quotients of non-negative numbers). *)
Definition Qsign_nonneg (x : Q) : bool := Qle_bool 0 x.

Definition fmul (a b : fnum) : fnum :=
  match a, b with
  | NaN, _ | _, NaN => NaN
  | Fin x, Fin y => Fin (x * y)
  | Fin x, PInf | PInf, Fin x =>
      if Qeq_bool x 0 then NaN else if Qsign_nonneg x then PInf else NInf
  | Fin x, NInf | NInf, Fin x =>
      if Qeq_bool x 0 then NaN else if Qsign_nonneg x then NInf else PInf
  | PInf, PInf | NInf, NInf => PInf
  | PInf, NInf | NInf, PInf => NInf
  end.

Definition fdiv (a b : fnum) : fnum :=
  match a, b with
  | NaN, _ | _, NaN => NaN
  | Fin x, Fin y =>
      if Qeq_bool y 0 then
        if Qeq_bool x 0 then NaN
        else if Qsign_nonneg x then PInf else NInf
      else Fin (x / y)
  | Fin _, PInf | Fin _, NInf => Fin 0
  | PInf, Fin y => if Qsign_nonneg y then PInf else NInf
  | NInf, Fin y => if Qsign_nonneg y then NInf else PInf
  | _, _ => NaN
  end.

(** [x ** 2] *)
Definition fsquare (a : fnum) : fnum := fmul a a.

Definition fmin2 (a b : fnum) : fnum :=
  match a, b with
  | NaN, _ | _, NaN => NaN
  | _, _ => if fle a b then a else b
  end.

Definition fmax2 (a b : fnum) : fnum :=
  match a, b with
  | NaN, _ | _, NaN => NaN
  | _, _ => if fle a b then b else a
  end.

(* ================================================================== *)
(** * The numpy and Python primitives the program calls *)

Definition vector := list Q.
(** An n x p array is the list of its n rows, each of length p. *)
Definition matrix := list (list Q).

Definition nrows (X : matrix) : nat := length X.
Definition ncols (X : matrix) : nat := length (hd [] X).

(** [X[:, j]] *)
Definition column (X : matrix) (j : nat) : vector :=
  map (fun row => nth j row 0) X.

Definition columns (X : matrix) : list vector :=
  map (column X) (seq 0 (ncols X)).

Definition Qsum (v : vector) : Q := fold_left Qplus v 0.

(** [np.arange(start, stop, step)]: [ceil((stop - start) / step)] values
    [start + i * step]; a zero step is refused. *)
Definition np_arange (start stop step : Q) : result (list Q) :=
  if Qeq_bool step 0 then Raise ValueError
  else
    let len := Z.to_nat (Qceiling ((stop - start) / step)) in
    Ok (map (fun i => start + inject_Z (Z.of_nat i) * step) (seq 0 len)).

(** [np.sum(mask)] for a boolean mask. *)
Definition count_true {A : Type} (f : A -> bool) (l : list A) : Z :=
  Z.of_nat (length (filter f l)).

(** [np.where(mask)[0]]: the positions at which the mask holds. *)
Fixpoint where_from {A : Type} (f : A -> bool) (i : nat) (l : list A)
  : list nat :=
  match l with
  | [] => []
  | x :: l' => if f x then i :: where_from f (S i) l'
               else where_from f (S i) l'
  end.

Definition np_where {A : Type} (f : A -> bool) (l : list A) : list nat :=
  where_from f 0 l.

(** [v[i]] *)
Definition getitem {A : Type} (v : list A) (i : nat) : result A :=
  match nth_error v i with
  | Some x => Ok x
  | None => Raise IndexError
  end.

(** [v[idx]] for an index array [idx]. *)
Definition np_take {A : Type} (v : list A) (idx : list nat)
  : result (list A) :=
  map_result (getitem v) idx.

(** [v[i] = x] *)
Fixpoint setitem {A : Type} (v : list A) (i : nat) (x : A)
  : result (list A) :=
  match v, i with
  | [], _ => Raise IndexError
  | _ :: v', O => Ok (x :: v')
  | y :: v', S i' => w <- setitem v' i' x ;; Ok (y :: w)
  end.

(** [v[idx] = xs], position by position. *)
Fixpoint np_put {A : Type} (v : list A) (idx : list nat) (xs : list A)
  : result (list A) :=
  match idx, xs with
  | i :: idx', x :: xs' => w <- setitem v i x ;; np_put w idx' xs'
  | _, _ => Ok v
  end.

(** [X[:, idx]] *)
Definition take_columns (X : matrix) (idx : list nat) : result matrix :=
  map_result (fun row => np_take row idx) X.

(** [np.min] and [np.max] of an array: an empty array has no minimum, and
    a NaN entry makes the result NaN. *)
Definition np_min (v : list fnum) : result fnum :=
  match v with
  | [] => Raise ValueError
  | x :: v' => Ok (fold_left fmin2 v' x)
  end.

Definition np_max (v : list fnum) : result fnum :=
  match v with
  | [] => Raise ValueError
  | x :: v' => Ok (fold_left fmax2 v' x)
  end.

(** Python's built-in [min] over finite values. *)
Definition py_min (v : vector) : result Q :=
  match v with
  | [] => Raise ValueError
  | x :: v' => Ok (fold_left (fun m y => if Qlt_bool y m then y else m) v' x)
  end.

(** [sorted(v)]: ascending, stable. *)
Fixpoint insert_sorted (x : Q) (l : vector) : vector :=
  match l with
  | [] => [x]
  | y :: l' => if Qlt_bool x y then x :: l else y :: insert_sorted x l'
  end.

Definition py_sorted (v : vector) : vector :=
  fold_right insert_sorted [] v.

(** [v[-k]] for k >= 1 *)
Definition from_end {A : Type} (v : list A) (k : nat) : result A :=
  if (k <=? length v)%nat then getitem v (length v - k) else Raise IndexError.

(** [np.argmax(v)]: the first position of the largest entry. *)
Fixpoint argmax_from (best : Q) (besti i : nat) (l : vector) : nat :=
  match l with
  | [] => besti
  | x :: l' => if Qlt_bool best x then argmax_from x i (S i) l'
               else argmax_from best besti (S i) l'
  end.

Definition np_argmax (v : vector) : result nat :=
  match v with
  | [] => Raise ValueError
  | x :: v' => Ok (argmax_from x 0 1 v')
  end.

(** [sorted(perm)] on indices and [perm.argsort()]. *)
Fixpoint insert_nat (x : nat) (l : list nat) : list nat :=
  match l with
  | [] => [x]
  | y :: l' => if (x <? y)%nat then x :: l else y :: insert_nat x l'
  end.

Definition sorted_nat (l : list nat) : list nat := fold_right insert_nat [] l.

Fixpoint insert_key (x : nat * nat) (l : list (nat * nat))
  : list (nat * nat) :=
  match l with
  | [] => [x]
  | y :: l' => if (fst x <? fst y)%nat then x :: l else y :: insert_key x l'
  end.

(** The positions of [perm], ordered by the value found there. *)
Definition argsort (perm : list nat) : list nat :=
  map snd (fold_right insert_key [] (combine perm (seq 0 (length perm)))).

Definition list_eqb (l1 l2 : list nat) : bool :=
  if list_eq_dec Nat.eq_dec l1 l2 then true else false.

(** [np.mean(col)], [np.std(col, ddof=1)] and friends are given with the
    library interface below. *)
Definition Qmean (col : vector) : Q :=
  Qsum col / inject_Z (Z.of_nat (length col)).

(** Sum of squared deviations from the mean. *)
Definition sum_sq_dev (col : vector) : Q :=
  let m := Qmean col in Qsum (map (fun x => (x - m) * (x - m)) col).

(** The covariance of the columns of [X] with a given denominator. *)
Definition covariance_with (denom : Q) (X : matrix) : matrix :=
  let cols := columns X in
  map (fun ci =>
         map (fun cj =>
                let mi := Qmean ci in
                let mj := Qmean cj in
                Qsum (map (fun ab => (fst ab - mi) * (snd ab - mj))
                          (combine ci cj)) / denom)
             cols)
      cols.

(** [np.cov(X.T)]: the sample covariance of the columns, denominator n-1. *)
Definition np_cov (X : matrix) : matrix :=
  covariance_with (inject_Z (Z.of_nat (nrows X)) - 1) X.

(** [M + c]: numpy broadcasts a scalar over every entry of the array. *)
Definition add_scalar (M : matrix) (c : Q) : matrix :=
  map (map (fun e => e + c)) M.

(** [a - b] on vectors *)
Definition vsub (a b : vector) : vector :=
  map (fun ab => fst ab - snd ab) (combine a b).

(** [np.zeros(p)] *)
Definition np_zeros (p : nat) : list fnum := repeat (Fin 0) p.

(** [np.argmin(v)]: the first position of the smallest entry. *)
Fixpoint argmin_from (best : Q) (besti i : nat) (l : vector) : nat :=
  match l with
  | [] => besti
  | x :: l' => if Qlt_bool x best then argmin_from x i (S i) l'
               else argmin_from best besti (S i) l'
  end.

Definition np_argmin (v : vector) : result nat :=
  match v with
  | [] => Raise ValueError
  | x :: v' => Ok (argmin_from x 0 1 v')
  end.

(** [np.delete(v, k)] on a one-dimensional array, and on the columns of a
    matrix ([axis=1]). *)
Definition np_delete {A : Type} (v : list A) (k : nat) : result (list A) :=
  if (k <? length v)%nat then Ok (firstn k v ++ skipn (S k) v)
  else Raise IndexError.

Definition delete_column (X : matrix) (k : nat) : result matrix :=
  map_result (fun row => np_delete row k) X.

(* ================================================================== *)
(** * The process-wide random source and [random.shuffle] *)

(** The generator is the supply of raw draws not yet consumed; an exhausted
    supply keeps answering 0. *)
Definition rng := list nat.

Definition randbelow (n : nat) (g : rng) : nat * rng :=
  match g with
  | [] => (O, [])
  | r :: g' => ((r mod n)%nat, g')
  end.

Fixpoint list_set {A : Type} (l : list A) (i : nat) (x : A) : list A :=
  match l, i with
  | [], _ => []
  | _ :: l', O => x :: l'
  | y :: l', S i' => y :: list_set l' i' x
  end.

(** [x[i], x[j] = x[j], x[i]]: the right-hand side is read first, then
    [x[i]] and [x[j]] are written in that order. *)
Definition swap (x : list nat) (i j : nat) : list nat :=
  let xj := nth j x O in
  let xi := nth i x O in
  list_set (list_set x i xj) j xi.

(** [for i in reversed(range(1, len(x))): j = randbelow(i + 1); swap] *)
Fixpoint shuffle_from (i : nat) (x : list nat) (g : rng) : list nat * rng :=
  match i with
  | O => (x, g)
  | S i' =>
      let (j, g') := randbelow (S i) g in
      shuffle_from i' (swap x i j) g'
  end.

Definition shuffle (x : list nat) (g : rng) : list nat * rng :=
  shuffle_from (length x - 1) x g.

(** [l.index(t)] *)
Fixpoint index_of (t : nat) (l : list nat) : result nat :=
  match l with
  | [] => Raise ValueError
  | y :: l' => if (t =? y)%nat then Ok O
               else i <- index_of t l' ;; Ok (S i)
  end.

(* ================================================================== *)
(** * Threshold generator *)

(** The loop of [get_aberrant_thresholds], with its two accumulators. *)
Fixpoint thresholds_loop (z_vec : list fnum) (thresholds_raw : list Q)
         (count_temp : Z) (thre_new : list Q) : list Q :=
  match thresholds_raw with
  | [] => thre_new
  | threshold :: rest =>
      if (0 <? count_true (fun x => fge x (Fin threshold)) z_vec)%Z then
        if negb (count_true (fun x => fle x (Fin threshold)) z_vec
                 =? count_temp)%Z then
          thresholds_loop z_vec rest
            (count_true (fun x => fle x (Fin threshold)) z_vec)
            (thre_new ++ [threshold])
        else thresholds_loop z_vec rest count_temp thre_new
      else thresholds_loop z_vec rest count_temp thre_new
  end.

Definition get_aberrant_thresholds (z_vec : list fnum)
           (thre_min thre_max thre_seq : Q) : result (list Q) :=
  thresholds_raw <- np_arange thre_min thre_max thre_seq ;;
  Ok (thresholds_loop z_vec thresholds_raw (-1) []).

(** The defaults every caller in the program passes. *)
Definition default_thresholds (z_vec : list fnum) : result (list Q) :=
  get_aberrant_thresholds z_vec (1 # 10) 5 (2 # 10).

(* ================================================================== *)
(** * Permutation generator *)

Record perm_state : Type := {
  idx_normal : list nat;
  idx_abberent : list nat;
  perms : list (list nat);
  gen : rng
}.

(** The body of the inner loop: one shuffle trial for the [i]-th target. *)
Definition shuffle_trial (idx_abberent_copy : list nat) (i : nat)
           (s : perm_state) : result perm_state :=
  let (nrm, g1) := shuffle (idx_normal s) (gen s) in
  let (abb, g2) := shuffle (idx_abberent s) g1 in
  target <- getitem idx_abberent_copy i ;;
  index <- index_of target abb ;;
  let abb' := swap abb 0 index in
  Ok {| idx_normal := nrm;
        idx_abberent := abb';
        perms := perms s ++ [nrm ++ abb'];
        gen := g2 |}.

Definition aberrant_indices (z : list fnum) (threshold : Q) : list nat :=
  np_where (fun x => fgt x (Fin threshold)) z.

(** [list(set(range(len(z))) - set(idx_abberent))]: the remaining indices,
    in the ascending order in which a set of small integers is listed. *)
Definition normal_indices (z : list fnum) (threshold : Q) : list nat :=
  filter (fun i => negb (existsb (Nat.eqb i) (aberrant_indices z threshold)))
         (seq 0 (length z)).

(** [nshuffles] counts trials; [range(nshuffles)] is empty below 1. *)
Definition compute_permutations (z : list fnum) (threshold : Q)
           (nshuffles : nat) (g : rng) : result (list (list nat) * rng) :=
  let idx_abberent0 := aberrant_indices z threshold in
  let idx_abberent_copy := idx_abberent0 in
  let idx_normal0 := normal_indices z threshold in
  s <- for_each (seq 0 (length idx_abberent0))
         (fun i s =>
            for_each (seq 0 nshuffles)
              (fun _ s => shuffle_trial idx_abberent_copy i s) s)
         {| idx_normal := idx_normal0; idx_abberent := idx_abberent0;
            perms := []; gen := g |} ;;
  Ok (perms s, gen s).

(* ================================================================== *)
(** * The numerical library behind the program *)

(** Routines of numpy, scipy's LAPACK bindings and scikit-learn that the
    program calls and does not define.  Each may raise. *)
Class NumLib : Type := {
  (** the square root inside [np.std] *)
  lib_sqrt : Q -> Q;
  (** [ShrunkCovariance().fit(X).covariance_] *)
  ShrunkCovariance_fit : matrix -> result matrix;
  (** [LA.eigvals(sigma)] *)
  LA_eigvals : matrix -> result vector;
  (** [LA.cholesky(sigma)]: the lower factor, or [LinAlgError] *)
  LA_cholesky : matrix -> result matrix;
  (** [np.linalg.solve(L, b)] *)
  linalg_solve : matrix -> vector -> result vector;
  (** [LassoCV().fit(X, y).coef_] *)
  LassoCV_coef : matrix -> vector -> result vector;
  (** [lasso_path(X, y)[1]]: one row per feature, one column per alpha *)
  lasso_path_coefs : matrix -> vector -> result matrix
}.

(* ================================================================== *)
(** * Z-score estimator *)

(** [np.mean(col)]: NaN on an empty column. *)
Definition np_mean (col : vector) : fnum :=
  match col with
  | [] => NaN
  | _ => Fin (Qmean col)
  end.

(** [np.std(col, ddof=1)]: NaN when fewer than two samples are given. *)
Definition np_std `{NumLib} (col : vector) : fnum :=
  if (length col <=? 1)%nat then NaN
  else Fin (lib_sqrt (sum_sq_dev col
                      / (inject_Z (Z.of_nat (length col)) - 1))).

(** [X_obs] is a matrix, [X_int] a vector. *)
Definition zscore_vec `{NumLib} (X_obs : matrix) (X_int : vector)
  : result (list fnum) :=
  let nvars := length X_int in
  _ <- py_assert (ncols X_obs =? nvars)%nat ;;
  let mu := map np_mean (columns X_obs) in
  let sigma := map np_std (columns X_obs) in
  Ok (map (fun i =>
             fsquare (fabs (fdiv (fsub (Fin (nth i X_int 0)) (nth i mu NaN))
                                 (nth i sigma NaN))))
          (seq 0 nvars)).

(** The two-dimensional branch of [zscore]: one row of z-scores for each
    row of [X_int]. *)
Definition zscore_rows `{NumLib} (X_obs : matrix) (X_int : matrix)
  : result (list (list fnum)) :=
  let p := ncols X_int in
  _ <- py_assert (ncols X_obs =? p)%nat ;;
  let mu := map np_mean (columns X_obs) in
  let sigma := map np_std (columns X_obs) in
  Ok (map (fun row =>
             map (fun j =>
                    fsquare (fabs (fdiv (fsub (Fin (nth j row 0))
                                              (nth j mu NaN))
                                        (nth j sigma NaN))))
                 (seq 0 p))
          X_int).

(** [zscore] on a one-dimensional [X_int], which is what every caller in
    the scoring pipeline passes. *)
Definition zscore `{NumLib} (X_obs : matrix) (X_int : vector)
  : result (list fnum) :=
  zscore_vec X_obs X_int.

(* ================================================================== *)
(** * Whitening scorer *)

Definition eps : Q := 1 # 1000000.

(** [np.cov] of the transpose when [n > p], the shrinkage estimator
    otherwise. *)
Definition estimate_covariance `{NumLib} (X_obs_perm : matrix)
           (n p : nat) : result matrix :=
  if (p <? n)%nat then Ok (np_cov X_obs_perm)
  else ShrunkCovariance_fit X_obs_perm.

(** The "ensure positive-definite" step: [sigma + abs(min_eigenvalue) + 1e-6]
    adds the two scalars, one after the other, to the whole array. *)
Definition ensure_positive_definite `{NumLib} (sigma : matrix)
  : result matrix :=
  eigenvalues <- LA_eigvals sigma ;;
  min_eigenvalue <- py_min eigenvalues ;;
  if Qlt_bool min_eigenvalue eps then
    Ok (add_scalar (add_scalar sigma (Qabs min_eigenvalue)) eps)
  else Ok sigma.

(** "compute cholesky", "solve for Xtilde in L*Xtilde = X_int_perm - mu" and
    "undo the permutations": everything that follows the repair step, as a
    function of the matrix that reaches [LA.cholesky]. *)
Definition whiten `{NumLib} (sigma : matrix) (X_int_perm mu : vector)
           (perm : list nat) : result vector :=
  L <- LA_cholesky sigma ;;
  X_tilde <- linalg_solve L (vsub X_int_perm mu) ;;
  X_tilde <- np_take X_tilde (argsort perm) ;;
  Ok (map Qabs X_tilde).

(** [X_obs] is a matrix, [X_int] a vector, [perm] a permutation vector. *)
Definition root_cause_discovery `{NumLib} (X_obs : matrix) (X_int : vector)
           (perm : list nat) : result vector :=
  let n := nrows X_obs in
  let p := ncols X_obs in
  _ <- py_assert (p =? length X_int)%nat ;;
  _ <- py_assert (list_eqb (sorted_nat perm) (seq 0 p)) ;;
  X_obs_perm <- take_columns X_obs perm ;;
  X_int_perm <- np_take X_int perm ;;
  let mu := map Qmean (columns X_obs_perm) in
  sigma <- estimate_covariance X_obs_perm n p ;;
  sigma <- ensure_positive_definite sigma ;;
  whiten sigma X_int_perm mu perm.

(* ================================================================== *)
(** * Aggregation loop *)

(** [(sorted_X[-1] - sorted_X[-2]) / sorted_X[-2]] *)
Definition margin_statistic (Xtilde : vector) : result fnum :=
  let sorted_X := py_sorted Xtilde in
  largest <- from_end sorted_X 1 ;;
  second <- from_end sorted_X 2 ;;
  Ok (fdiv (Fin (largest - second)) (Fin second)).

(** What the main loop does with one whitened vector. *)
Definition record_margin (Xtilde : vector) (root_cause_score : list fnum)
  : result (list fnum) :=
  OneNonZero_quantification <- margin_statistic Xtilde ;;
  max_index <- np_argmax Xtilde ;;
  current <- getitem root_cause_score max_index ;;
  if flt current OneNonZero_quantification then
    setitem root_cause_score max_index OneNonZero_quantification
  else Ok root_cause_score.

(** The sweep over thresholds and permutations of
    [root_cause_discovery_main]; the state is the score vector and the
    random source. *)
Definition main_sweep `{NumLib} (X_obs : matrix) (X_int : vector)
           (z : list fnum) (nshuffles : nat) (thresholds : list Q)
           (root_cause_score : list fnum) (g : rng)
  : result (list fnum * rng) :=
  for_each thresholds
    (fun threshold '(score, g) =>
       '(permutations, g') <- compute_permutations z threshold nshuffles g ;;
       score' <- for_each permutations
                   (fun perm score =>
                      Xtilde <- root_cause_discovery X_obs X_int perm ;;
                      record_margin Xtilde score)
                   score ;;
       Ok (score', g'))
    (root_cause_score, g).

(** "assign final root cause score for variables that never had maximal
    Xtilde_i", as [root_cause_discovery_main] does it. *)
Definition assign_fallback_main (z root_cause_score : list fnum)
  : result (list fnum) :=
  let idx2 := np_where (fun s => feq s (Fin 0)) root_cause_score in
  if negb (length idx2 =? 0)%nat then
    let idx1 := np_where (fun s => fne s (Fin 0)) root_cause_score in
    scored <- np_take root_cause_score idx1 ;;
    smallest <- np_min scored ;;
    let max_RC_score_idx2 := fdiv smallest (Fin 2) in
    z2 <- np_take z idx2 ;;
    z2max <- np_max z2 ;;
    np_put root_cause_score idx2
           (map (fun x => fdiv x (fdiv z2max max_RC_score_idx2)) z2)
  else Ok root_cause_score.

(** Main root cause discovery function (Algo 2 in the paper).  [verbose]
    only prints and is left out. *)
Definition root_cause_discovery_main `{NumLib} (X_obs : matrix)
           (X_int : vector) (nshuffles : nat) (thresholds : option (list Q))
           (g : rng) : result (list fnum * rng) :=
  let p := ncols X_obs in
  _ <- py_assert (p =? length X_int)%nat ;;
  z <- zscore X_obs X_int ;;
  thresholds <- match thresholds with
                | None => default_thresholds z
                | Some t => Ok t
                end ;;
  '(root_cause_score, g') <-
    main_sweep X_obs X_int z nshuffles thresholds (np_zeros p) g ;;
  root_cause_score <- assign_fallback_main z root_cause_score ;;
  Ok (root_cause_score, g').

(* ================================================================== *)
(** * Dimension reducer *)

(** [np.sum(coef_path != 0, axis=0)]: the support size at every alpha. *)
Definition support_sizes (coef_path : matrix) : vector :=
  map (fun col => inject_Z (count_true (fun b => negb (Qeq_bool b 0)) col))
      (columns coef_path).

Definition reduce_dimension `{NumLib} (y_idx : nat) (X_obs : matrix)
           (X_int : vector) : result (matrix * vector * list nat) :=
  y <- map_result (fun row => getitem row y_idx) X_obs ;;
  X <- delete_column X_obs y_idx ;;
  let n := length y in
  beta_cv <- LassoCV_coef X y ;;
  beta_final <-
    (if (count_true (fun b => negb (Qeq_bool b 0)) beta_cv <=? 1)%Z then
       coef_path <- lasso_path_coefs X y ;;
       let num_nonzeros := support_sizes coef_path in
       alpha_idx <- np_argmin
                      (map (fun k => Qabs (k - inject_Z (Z.of_nat n) / 2))
                           num_nonzeros) ;;
       map_result (fun row => getitem row alpha_idx) coef_path
     else Ok beta_cv) ;;
  let selected_idx := np_where (fun b => negb (Qeq_bool b 0)) beta_final in
  let selected_idx :=
    map (fun idx => if (y_idx <=? idx)%nat then S idx else idx)
        selected_idx in
  (* [np.array([])] is an array of floats and [np.append] keeps it one:
     with no predictor selected, indexing by [selected_idx] is refused *)
  _ <- match selected_idx with
       | [] => Raise IndexError
       | _ :: _ => Ok tt
       end ;;
  let selected_idx := selected_idx ++ [y_idx] in
  X_obs_new <- take_columns X_obs selected_idx ;;
  X_int_sample_new <- np_take X_int selected_idx ;;
  Ok (X_obs_new, X_int_sample_new, selected_idx).

(* ================================================================== *)
(** * The per-variable task of the high-dimensional path *)

(** The variables kept for response [y_idx]: by Lasso, or the non-zero
    entries of column [y_idx] of a given precision matrix, [y_idx] last. *)
Definition select_variables `{NumLib} (y_idx : nat) (X_obs : matrix)
           (X_int : vector) (Precision_mat : option matrix)
  : result (matrix * vector * nat) :=
  match Precision_mat with
  | None =>
      '(X_obs_new, X_int_sample_new, selected_idx) <-
        reduce_dimension y_idx X_obs X_int ;;
      Ok (X_obs_new, X_int_sample_new, length selected_idx)
  | Some P =>
      col <- map_result (fun row => getitem row y_idx) P ;;
      let MB := np_where (fun e => negb (Qeq_bool e 0)) col in
      pos <- getitem (np_where (Nat.eqb y_idx) MB) 0 ;;
      MB <- np_delete MB pos ;;
      let MB := MB ++ [y_idx] in
      X_obs_new <- take_columns X_obs MB ;;
      X_int_sample_new <- np_take X_int MB ;;
      Ok (X_obs_new, X_int_sample_new, length MB)
  end.

(** What the task does with one whitened vector: the margin counts only
    when the last variable, the response, is the arg-max. *)
Definition record_margin_y (Xtilde : vector) (root_cause_score_y : fnum)
  : result fnum :=
  OneNonZero_quantification <- margin_statistic Xtilde ;;
  max_index <- np_argmax Xtilde ;;
  if (max_index =? length Xtilde - 1)%nat then
    if flt root_cause_score_y OneNonZero_quantification then
      Ok OneNonZero_quantification
    else Ok root_cause_score_y
  else Ok root_cause_score_y.

(** The body of the threshold loop.  [root_cause_score_y = 0] is its second
    statement, so the value left by the previous threshold is overwritten. *)
Definition threshold_body_y `{NumLib} (X_obs_new : matrix)
           (X_int_sample_new : vector) (z_new : list fnum) (nshuffles : nat)
           (threshold : Q) (st : option fnum * rng)
  : result (option fnum * rng) :=
  '(permutations, g') <-
    compute_permutations z_new threshold nshuffles (snd st) ;;
  let root_cause_score_y := Fin 0 in
  score <- for_each permutations
             (fun perm score =>
                Xtilde <- root_cause_discovery X_obs_new X_int_sample_new
                            perm ;;
                record_margin_y Xtilde score)
             root_cause_score_y ;;
  Ok (Some score, g').

(** The local variable [root_cause_score_y] is [None] until an assignment
    has been executed; reading it then is an [UnboundLocalError]. *)
Definition read_local {A : Type} (v : option A) : result A :=
  match v with
  | Some x => Ok x
  | None => Raise UnboundLocalError
  end.

Definition process_y_idx_rcd `{NumLib} (y_idx : nat) (X_obs : matrix)
           (X_int : vector) (nshuffles : nat)
           (Precision_mat : option matrix) (g : rng)
  : result (nat * fnum * nat) :=
  '(X_obs_new, X_int_sample_new, select_len_y) <-
    select_variables y_idx X_obs X_int Precision_mat ;;
  z_new <- zscore X_obs_new X_int_sample_new ;;
  thresholds <- default_thresholds z_new ;;
  '(local, _) <-
    for_each thresholds
      (threshold_body_y X_obs_new X_int_sample_new z_new nshuffles)
      (None, g) ;;
  root_cause_score_y <- read_local local ;;
  Ok (y_idx, root_cause_score_y, select_len_y).

(* ================================================================== *)
(** * High-dimensional orchestrator *)

(** The fan-in loop: [root_cause_score[y_idx] = score] and
    [select_len[y_idx] = length] for every task result. *)
Definition collect_results (p : nat) (results : list (nat * fnum * nat))
  : result (list fnum * list nat) :=
  for_each results
    (fun '(y_idx, score, len) '(root_cause_score, select_len) =>
       root_cause_score' <- setitem root_cause_score y_idx score ;;
       select_len' <- setitem select_len y_idx len ;;
       Ok (root_cause_score', select_len'))
    (np_zeros p, repeat O p).

(** "assign final root cause score for variables that never had maximal
    Xtilde_i", as the high-dimensional path does it. *)
Definition assign_fallback_highdim (z root_cause_score : list fnum)
  : result (list fnum) :=
  let idx2 := np_where (fun s => feq s (Fin 0)) root_cause_score in
  let idx1 := np_where (fun s => fne s (Fin 0)) root_cause_score in
  if negb (length idx2 =? 0)%nat then
    if negb (length idx1 =? 0)%nat then
      scored <- np_take root_cause_score idx1 ;;
      smallest <- np_min scored ;;
      let max_RC_score_idx2 := fdiv smallest (Fin 2) in
      z2 <- np_take z idx2 ;;
      z2max <- np_max z2 ;;
      np_put root_cause_score idx2
             (map (fun x => fdiv x (fdiv z2max max_RC_score_idx2)) z2)
    else Ok z
  else Ok root_cause_score.

(** Root cause discovery function for the high-dimensional case (Algo 3 in
    the paper).  The tasks are independent; joblib returns their results in
    the order of [y_indices] and re-raises the exception of a failed task.
    Each worker has a random source of its own, [worker_rng y_idx].
    [n_jobs] only sizes the pool and [verbose] only prints. *)
Definition root_cause_discovery_highdim_parallel `{NumLib}
           (X_obs : matrix) (X_int : vector) (y_idx_z_threshold : Q)
           (nshuffles : nat) (Precision_mat : option matrix)
           (worker_rng : nat -> rng) : result (list fnum * list nat) :=
  let p := ncols X_obs in
  z <- zscore X_obs X_int ;;
  let y_indices := np_where (fun x => fgt x (Fin y_idx_z_threshold)) z in
  results <- map_result
               (fun y_idx =>
                  process_y_idx_rcd y_idx X_obs X_int nshuffles
                                    Precision_mat (worker_rng y_idx))
               y_indices ;;
  '(root_cause_score, select_len) <- collect_results p results ;;
  root_cause_score <- assign_fallback_highdim z root_cause_score ;;
  Ok (root_cause_score, select_len).

(* ================================================================== *)
(** * The sweep of the per-variable task as section 4.7 words it *)

(** "sweep thresholds/permutations ... and record the best margin statistic
    achieved when [the response] is [the arg-max]": one running best for the
    whole sweep, started at zero before the first threshold. *)
Definition best_margin_over_sweep `{NumLib} (X_obs_new : matrix)
           (X_int_sample_new : vector) (z_new : list fnum) (nshuffles : nat)
           (thresholds : list Q) (g : rng) : result (fnum * rng) :=
  for_each thresholds
    (fun threshold '(best, g) =>
       '(permutations, g') <-
         compute_permutations z_new threshold nshuffles g ;;
       best' <- for_each permutations
                  (fun perm best =>
                     Xtilde <- root_cause_discovery X_obs_new
                                 X_int_sample_new perm ;;
                     record_margin_y Xtilde best)
                  best ;;
       Ok (best', g'))
    (Fin 0, g).

(* ================================================================== *)
(** * A reference instance of the library, exact on rational data

    Used to run the program on small inputs.  The square root is exact on
    squares of rationals and truncated to six decimals elsewhere; the
    factorisation is the row-by-row Cholesky algorithm; the solver is forward
    substitution, which is what a solve against a lower-triangular factor
    amounts to; eigenvalues are given in closed form up to size 2. *)

Definition Qsqrt (q : Q) : Q :=
  Z.sqrt (Qnum q * Zpos (Qden q) * 10 ^ 12) # (Qden q * 10 ^ 6).

Definition Qdot (a b : vector) : Q :=
  Qsum (map (fun ab => fst ab * snd ab) (combine a b)).

(** The entries of one row left of the diagonal, against the rows built so
    far. *)
Fixpoint chol_offdiag (Lrows : list vector) (arow cur : vector) (j : nat)
  : vector :=
  match Lrows with
  | [] => cur
  | Lj :: rest =>
      chol_offdiag rest arow
                   (cur ++ [(nth j arow 0 - Qdot cur Lj) / nth j Lj 0])
                   (S j)
  end.

Fixpoint chol_rows (A : matrix) (Lrows : list vector) (i p : nat)
  : result matrix :=
  match A with
  | [] => Ok Lrows
  | arow :: A' =>
      let cur := chol_offdiag Lrows arow [] 0 in
      let d := nth i arow 0 - Qdot cur cur in
      if Qle_bool d 0 then Raise LinAlgError
      else chol_rows A'
                     (Lrows ++ [cur ++ [Qsqrt d] ++ repeat 0 (p - i - 1)])
                     (S i) p
  end.

Definition cholesky_exact (A : matrix) : result matrix :=
  chol_rows A [] 0 (length A).

Fixpoint forward_subst (L : matrix) (b t : vector) (i : nat)
  : result vector :=
  match L, b with
  | [], [] => Ok t
  | Li :: L', bi :: b' =>
      if Qeq_bool (nth i Li 0) 0 then Raise LinAlgError
      else forward_subst L' b' (t ++ [(bi - Qdot t Li) / nth i Li 0]) (S i)
  | _, _ => Raise ValueError
  end.

Definition eigvals_small (M : matrix) : result vector :=
  match M with
  | [] => Ok []
  | [[a]] => Ok [a]
  | [[a; b]; [c; d]] =>
      let r := Qsqrt ((a - d) * (a - d) + 4 * b * c) in
      Ok [Qred ((a + d - r) / 2); Qred ((a + d + r) / 2)]
  | _ => Raise LinAlgError
  end.

(** scikit-learn's estimator with its default shrinkage 0.1:
    [0.9 * emp + 0.1 * trace(emp) / p * I], [emp] with denominator n. *)
Definition shrunk_covariance (X : matrix) : result matrix :=
  match X with
  | [] => Raise ValueError
  | _ =>
      let p := ncols X in
      let emp := covariance_with (inject_Z (Z.of_nat (nrows X))) X in
      let tr := Qsum (map (fun i => nth i (nth i emp []) 0) (seq 0 p)) in
      let mu := tr / inject_Z (Z.of_nat p) in
      Ok (map (fun i =>
                 map (fun j =>
                        (9 # 10) * nth j (nth i emp []) 0
                        + (if (i =? j)%nat then (1 # 10) * mu else 0))
                     (seq 0 p))
              (seq 0 p))
  end.

(** The examples pass a precision matrix, so the regression routines are
    never reached; they answer with the fully regularised fit. *)
#[global] Instance exact_lib : NumLib := {
  lib_sqrt := Qsqrt;
  ShrunkCovariance_fit := shrunk_covariance;
  LA_eigvals := eigvals_small;
  LA_cholesky := cholesky_exact;
  linalg_solve := fun L b => forward_subst L b [] 0;
  LassoCV_coef := fun X _ => Ok (repeat 0 (ncols X));
  lasso_path_coefs := fun X _ => Ok (map (fun _ => [0]) (seq 0 (ncols X)))
}.

(** ** Example data

    Five observations of two variables with mean (0, 0) and covariance
    [[1, 3], [3, 25]], whose Cholesky factors in both orders are rational. *)
Definition X_obs_ex : matrix :=
  [[1; 7]; [-1; 1]; [1; -1]; [-1; -7]; [0; 0]].

Definition Precision_ex : matrix := [[25; -3]; [-3; 1]].

(* ================================================================== *)
(** * Vocabulary of the properties *)

(** The number of variables at or below a threshold, and of those at or
    above it: the two sums the threshold loop takes. *)
Definition count_le (z_vec : list fnum) (t : Q) : Z :=
  count_true (fun x => fle x (Fin t)) z_vec.

Definition count_ge (z_vec : list fnum) (t : Q) : Z :=
  count_true (fun x => fge x (Fin t)) z_vec.

(** The partition a threshold induces: which variables are at or below. *)
Definition partition_le (z_vec : list fnum) (t : Q) : list bool :=
  map (fun x => fle x (Fin t)) z_vec.

(** Two kept thresholds, the earlier one first. *)
Definition kept_pair (z_vec : list fnum) (a b : Q) : Prop :=
  a < b /\ (count_le z_vec a < count_le z_vec b)%Z.

(** Index [i] is aberrant when [z[i] > threshold]; it is normal otherwise,
    which is [z[i] <= threshold] for every z-score that is a number. *)
Definition is_aberrant (z : list fnum) (threshold : Q) (i : nat) : bool :=
  fgt (nth i z NaN) (Fin threshold).

(** The target of every permutation the generator emits, in order: each
    aberrant index, once per shuffle trial. *)
Definition targets (z : list fnum) (threshold : Q) (nshuffles : nat)
  : list nat :=
  flat_map (fun t => repeat t nshuffles) (aberrant_indices z threshold).

(** What the loops of the generator preserve: the two working lists hold
    the normal and the aberrant indices, in some order. *)
Definition lists_ok (N0 A0 : list nat) (s : perm_state) : Prop :=
  Permutation (idx_normal s) N0 /\ Permutation (idx_abberent s) A0.

(** A permutation made of a normal block followed by an aberrant block
    that starts with [target]. *)
Definition block_perm (N0 A0 : list nat) (target : nat) (p : list nat)
  : Prop :=
  exists ns abl,
    p = ns ++ abl /\ Permutation ns N0 /\ Permutation abl A0 /\
    hd_error abl = Some target.

(** [l[-1]] as an option. *)
Definition last_error (l : list nat) : option nat := hd_error (rev l).

(** A permutation that puts every normal index before every aberrant one
    and has [target] at the place [place] picks in the aberrant block. *)
Definition separates (place : list nat -> option nat) (z : list fnum)
           (threshold : Q) (target : nat) (p : list nat) : Prop :=
  exists ns abl,
    p = ns ++ abl /\
    Forall (fun i => is_aberrant z threshold i = false) ns /\
    Forall (fun i => is_aberrant z threshold i = true) abl /\
    place abl = Some target.

(** The generator returns, and each permutation it emits separates the two
    blocks with its target at [place]. *)
Definition emits_separated (place : list nat -> option nat) (z : list fnum)
           (threshold : Q) (nshuffles : nat) (g : rng) : Prop :=
  exists ps g',
    compute_permutations z threshold nshuffles g = Ok (ps, g') /\
    Forall2 (separates place z threshold) (targets z threshold nshuffles) ps.

(** Entry-wise equality of two matrices as numbers. *)
Definition matrix_eq (A B : matrix) : Prop := Forall2 (Forall2 Qeq) A B.


(** The policy of section 7 for a configuration whose second-largest
    whitened value is zero: it contributes nothing, in the main loop and in
    the per-variable task alike. *)
Definition skips_undefined_margin : Prop :=
  forall (Xtilde : vector) (second : Q) (root_cause_score : list fnum)
         (root_cause_score_y : fnum),
    length root_cause_score = length Xtilde ->
    from_end (py_sorted Xtilde) 2 = Ok second ->
    second == 0 ->
    record_margin Xtilde root_cause_score = Ok root_cause_score /\
    record_margin_y Xtilde root_cause_score_y = Ok root_cause_score_y.

(** The z-scores of an interventional sample that sits exactly at the
    observational mean of [X_obs_ex]: both are zero. *)
Definition z_at_mean : list fnum :=
  Eval vm_compute in
    match zscore X_obs_ex [0; 0] with
    | Ok z => z
    | Raise _ => []
    end.

(** A whitened vector whose second-largest entry is zero. *)
Definition Xtilde_zero_second : vector := [0; 3 # 2].

(** A task result whose score is zero. *)
Definition zero_score (r : nat * fnum * nat) : Prop :=
  feq (snd (fst r)) (Fin 0) = true.

(** The tasks the orchestrator fans out, one per candidate. *)
Definition run_tasks `{NumLib} (X_obs : matrix) (X_int : vector)
           (y_idx_z_threshold : Q) (nshuffles : nat)
           (Precision_mat : option matrix) (worker_rng : nat -> rng)
           (z : list fnum) : result (list (nat * fnum * nat)) :=
  map_result
    (fun y_idx =>
       process_y_idx_rcd y_idx X_obs X_int nshuffles Precision_mat
                         (worker_rng y_idx))
    (np_where (fun x => fgt x (Fin y_idx_z_threshold)) z).

(** Section 4.7 on a run in which no candidate scores positively: the
    candidates get their raw z-scores and every non-candidate keeps a score
    of zero. *)
Definition noncandidates_keep_zero `{NumLib} (X_obs : matrix)
           (X_int : vector) (y_idx_z_threshold : Q) (nshuffles : nat)
           (Precision_mat : option matrix) (worker_rng : nat -> rng)
  : Prop :=
  forall z results scores select_len,
    zscore X_obs X_int = Ok z ->
    run_tasks X_obs X_int y_idx_z_threshold nshuffles Precision_mat
              worker_rng z = Ok results ->
    Forall zero_score results ->
    root_cause_discovery_highdim_parallel
      X_obs X_int y_idx_z_threshold nshuffles Precision_mat worker_rng
    = Ok (scores, select_len) ->
    forall i, (i < length z)%nat ->
      (fgt (nth i z NaN) (Fin y_idx_z_threshold) = true ->
       nth i scores NaN = nth i z NaN) /\
      (fgt (nth i z NaN) (Fin y_idx_z_threshold) = false ->
       feq (nth i scores NaN) (Fin 0) = true).

(** The z-scores of the interventional sample (1, 6) against [X_obs_ex]:
    1 and 1.44. *)
Definition z_ex : list fnum :=
  Eval vm_compute in
    match zscore X_obs_ex [1; 6] with
    | Ok z => z
    | Raise _ => []
    end.

(** The thresholds kept for [z_ex]: 0.1 and 1.1. *)
Definition thresholds_ex : list Q :=
  Eval vm_compute in
    match default_thresholds z_ex with
    | Ok t => t
    | Raise _ => []
    end.

(** The whitened vector of the sample (1, 6) under the permutation (1, 0),
    which is (0.35, 1.2). *)
Definition Xtilde_ex : vector :=
  Eval vm_compute in
    match root_cause_discovery X_obs_ex [1; 6] [1; 0]%nat with
    | Ok v => v
    | Raise _ => []
    end.

(** The whitened vector of the same sample under the permutation (0, 1),
    which is (1, 0.75). *)
Definition Xtilde_ex_identity : vector :=
  Eval vm_compute in
    match root_cause_discovery X_obs_ex [1; 6] [0; 1]%nat with
    | Ok v => v
    | Raise _ => []
    end.

(** The best margin found by [best_margin_over_sweep] on the example,
    which is 17/7. *)
Definition best_ex : Q :=
  Eval vm_compute in
    match best_margin_over_sweep X_obs_ex [1; 6] z_ex 1 thresholds_ex [] with
    | Ok (Fin q, _) => q
    | _ => 0
    end.

(* ================================================================== *)
(** * Ranking by a causal order (the LiNGAM comparison method) *)

(** [-x] *)
Definition fneg (a : fnum) : fnum :=
  match a with
  | Fin x => Fin (- x)
  | PInf => NInf
  | NInf => PInf
  | NaN => NaN
  end.

(** The order in which numpy sorts doubles: by value, NaN after every
    number. *)
Definition sort_lt (a b : fnum) : bool :=
  match a, b with
  | NaN, _ => false
  | _, NaN => true
  | _, _ => flt a b
  end.

Fixpoint insert_fkey (x : fnum * nat) (l : list (fnum * nat))
  : list (fnum * nat) :=
  match l with
  | [] => [x]
  | y :: l' => if sort_lt (fst y) (fst x) then y :: insert_fkey x l'
               else x :: l
  end.

(** [np.argsort(v)]: the positions of [v] by ascending value.  Equal values
    are left in their original order here; numpy makes no promise about
    them. *)
Definition np_argsort (v : list fnum) : list nat :=
  map snd (fold_right insert_fkey [] (combine v (seq 0 (length v)))).

Definition get_rank_LiNGAM_one_thre (Zscores : list fnum) (thre_abe : fnum)
           (causal_order_lingam : list nat) : result (list nat) :=
  let p := length Zscores in
  let abe_set := np_where (fun z => fge z thre_abe) Zscores in
  (* np.setdiff1d(range(p), abe_set): ascending, without repetition *)
  let remain_set :=
    filter (fun i => negb (existsb (Nat.eqb i) abe_set)) (seq 0 p) in
  Zscores_remian_set <- np_take Zscores remain_set ;;
  rank_remain_set <-
    np_take remain_set (np_argsort (map fneg Zscores_remian_set)) ;;
  let abe_rank :=
    filter (fun i => existsb (Nat.eqb i) abe_set) causal_order_lingam in
  let Lin_rank := abe_rank ++ rank_remain_set in
  Ok Lin_rank.

(** [get_rank_LiNGAM]; [DirectLiNGAM_order X] stands for
    [DirectLiNGAM().fit(X).causal_order_], which belongs to the lingam
    package. *)
Definition get_rank_LiNGAM `{NumLib}
           (DirectLiNGAM_order : matrix -> result (list nat))
           (X_obs : matrix) (X_int : vector) (RC : nat)
  : result (list nat * list nat * list nat * list nat * fnum) :=
  Zscores <- zscore X_obs X_int ;;
  causal_order_lingam <- DirectLiNGAM_order X_obs ;;
  thre_abe_opt <- getitem Zscores RC ;;
  let thre_abe_1 := Fin 2 in
  let thre_abe_2 := Fin 5 in
  let thre_abe_3 := Fin 10 in
  rank_LiNGAM_opt <-
    get_rank_LiNGAM_one_thre Zscores thre_abe_opt causal_order_lingam ;;
  rank_LiNGAM_1 <-
    get_rank_LiNGAM_one_thre Zscores thre_abe_1 causal_order_lingam ;;
  rank_LiNGAM_2 <-
    get_rank_LiNGAM_one_thre Zscores thre_abe_2 causal_order_lingam ;;
  rank_LiNGAM_3 <-
    get_rank_LiNGAM_one_thre Zscores thre_abe_3 causal_order_lingam ;;
  Ok (rank_LiNGAM_opt, rank_LiNGAM_1, rank_LiNGAM_2, rank_LiNGAM_3,
      thre_abe_opt).

(* ================================================================== *)
(** * Vocabulary of the further properties *)

(** Non-negative, +infinity or NaN: what a squared or absolute quantity
    can be. *)
Definition not_negative (a : fnum) : Prop := flt a (Fin 0) = false.

(** A score as the sweeps leave it: exactly the initial zero, or strictly
    positive (+infinity included); never negative, never NaN. *)
Definition zero_or_positive (s : fnum) : Prop :=
  s = Fin 0 \/ flt (Fin 0) s = true.

(** A score that was kept or raised. *)
Definition kept_or_raised (old new : fnum) : Prop :=
  new = old \/ flt old new = true.

(** [l1] is [l2] with some of its elements left out, the others in their
    order. *)
Inductive subsequence {A : Type} : list A -> list A -> Prop :=
| sub_nil : subsequence [] []
| sub_skip (x : A) (l1 l2 : list A) :
    subsequence l1 l2 -> subsequence l1 (x :: l2)
| sub_keep (x : A) (l1 l2 : list A) :
    subsequence l1 l2 -> subsequence (x :: l1) (x :: l2).

(** Two z-scores and four enumerated values, the last of which is the
    stop of the range. *)
Definition z_two : list fnum := [Fin (5 # 4); Fin 2].
Definition raw_four : list Q := [1; 11 # 10; 12 # 10; 13 # 10].

(** Two observations of three variables, used to run the z-score
    estimator; the last column is constant. *)
Definition X_obs_three : matrix := [[1; 2; 5]; [3; 6; 5]; [5; 4; 5]].

(** The squared standardised deviation of one value from one observed
    column, as both branches of [zscore] compute it. *)
Definition zscore_entry `{NumLib} (x : Q) (col : vector) : fnum :=
  fsquare (fabs (fdiv (fsub (Fin x) (np_mean col)) (np_std col))).

(** The z-scores of the sample (1, 2, 7) against [X_obs_three]. *)
Definition z_three : list fnum :=
  Eval vm_compute in
    match zscore_vec X_obs_three [1; 2; 7] with
    | Ok z => z
    | Raise _ => []
    end.

(** The reference library with a regression that keeps every predictor,
    used to run [reduce_dimension]. *)
Definition dense_lasso_lib : NumLib := {|
  lib_sqrt := Qsqrt;
  ShrunkCovariance_fit := shrunk_covariance;
  LA_eigvals := eigvals_small;
  LA_cholesky := cholesky_exact;
  linalg_solve := fun L b => forward_subst L b [] 0;
  LassoCV_coef := fun X _ => Ok (repeat 1 (ncols X));
  lasso_path_coefs := fun X _ => Ok (map (fun _ => [1]) (seq 0 (ncols X)))
|}.

(** The positions of the non-zero entries of a column of the precision
    matrix other than the response: its neighbours. *)
Definition neighbours (col : vector) (y_idx : nat) : list nat :=
  filter (fun j => negb (j =? y_idx)%nat)
         (np_where (fun e => negb (Qeq_bool e 0)) col).

(** A precision matrix on three variables in which variable 1 is linked to
    variables 0 and 2, and variable 2 has a zero diagonal entry. *)
Definition Precision_three : matrix := [[2; 1; 0]; [1; 2; 1]; [0; 1; 0]].

(** The scores the main sweep leaves on the example of the sample (1, 6):
    1/3 for variable 0 and 17/7 for variable 1. *)
Definition sweep_scores_ex : list fnum :=
  Eval vm_compute in
    match main_sweep X_obs_ex [1; 6] z_ex 1 thresholds_ex (np_zeros 2) []
    with
    | Ok (s, _) => s
    | Raise _ => []
    end.


(** Z-scores and scores on which to run the fallback: variables 0 and 2
    were never the arg-max, variable 1 has score 4. *)
Definition fallback_z_ex : list fnum := [Fin 1; Fin 2; Fin 3].
Definition fallback_score_ex : list fnum := [Fin 0; Fin 4; Fin 0].

(** The order [sort_lt] sorts by, read as "not above". *)
Definition sort_le (a b : fnum) : Prop := sort_lt b a = false.

(** In a ranking by decreasing z-score, [i] may stand before [j]: the
    z-score of [i] is not below that of [j] (NaN counting as lowest). *)
Definition ranks_before (Zscores : list fnum) (i j : nat) : Prop :=
  sort_lt (fneg (nth j Zscores NaN)) (fneg (nth i Zscores NaN)) = false.

(** The variables the LiNGAM ranking treats as aberrant, and the others. *)
Definition abe_indices (Zscores : list fnum) (thre_abe : fnum) : list nat :=
  np_where (fun z => fge z thre_abe) Zscores.

Definition remain_indices (Zscores : list fnum) (thre_abe : fnum)
  : list nat :=
  filter (fun i => negb (existsb (Nat.eqb i) (abe_indices Zscores thre_abe)))
         (seq 0 (length Zscores)).

(* ================================================================== *)
(** * A causal ordering read off a coefficient matrix *)

(** [B[i, j]]; a non-zero entry says that variable [j] is a parent of
    variable [i]. *)
Definition entry (B : matrix) (i j : nat) : Q := nth j (nth i B []) 0.

(** [x != 0] *)
Definition nonzero (x : Q) : bool := negb (Qeq_bool x 0).

Definition nz (B : matrix) (i j : nat) : bool := nonzero (entry B i j).

(** [x in l] *)
Definition py_in (x : nat) (l : list nat) : bool := existsb (Nat.eqb x) l.

(** [np.where(np.sum(B != 0, 1) == 0)[0]]: the rows without a non-zero
    entry. *)
Definition zero_row (row : vector) : bool := negb (existsb nonzero row).

Definition zero_rows (B : matrix) : list nat := np_where zero_row B.

(** [np.sum(B != 0) != 0] *)
Definition any_nonzero (B : matrix) : bool := existsb (existsb nonzero) B.

Fixpoint clear_from (cols : list nat) (j : nat) (row : vector) : vector :=
  match row with
  | [] => []
  | x :: row' => (if py_in j cols then 0 else x) :: clear_from cols (S j) row'
  end.

(** [B[:, cols] = 0]; an index that is not a column raises. *)
Definition clear_columns (B : matrix) (cols : list nat) : result matrix :=
  if forallb (fun j => j <? ncols B)%nat cols
  then Ok (map (clear_from cols 0) B)
  else Raise IndexError.

(** The [while] loop of [get_feasible_ordering]; [fuel] bounds the number
    of times its condition is evaluated, and [None] says that the loop was
    still running when the fuel ran out. *)
Fixpoint feasible_loop (fuel p : nat) (B_copy : matrix)
         (causal_ordering temp_odering_old : list nat)
  : option (result (list nat)) :=
  match fuel with
  | O => None
  | S fuel' =>
      if any_nonzero B_copy then
        let temp_odering_new :=
          filter (fun x => negb (py_in x temp_odering_old))
                 (zero_rows B_copy) in
        let causal_ordering := causal_ordering ++ temp_odering_new in
        let temp_odering_old := zero_rows B_copy in
        match clear_columns B_copy temp_odering_old with
        | Ok B_copy' =>
            feasible_loop fuel' p B_copy' causal_ordering temp_odering_old
        | Raise e => Some (Raise e)
        end
      else
        (* add the remaining variables *)
        let temp_odering_new :=
          filter (fun x => negb (py_in x causal_ordering)) (seq 0 p) in
        Some (Ok (causal_ordering ++ temp_odering_new))
  end.

Definition get_feasible_ordering (fuel : nat) (B : matrix)
  : option (result (list nat)) :=
  let p := nrows B in
  let causal_ordering := [] in
  let temp_odering_old := zero_rows B in
  let causal_ordering := causal_ordering ++ temp_odering_old in
  match clear_columns B temp_odering_old with
  | Ok B_copy => feasible_loop fuel p B_copy causal_ordering temp_odering_old
  | Raise e => Some (Raise e)
  end.

(** A p x p array. *)
Definition square_of (p : nat) (B : matrix) : Prop :=
  length B = p /\ Forall (fun row => length row = p) B.

(** [j] stands before [i] in [l]: [l] splits into a part that holds [j]
    followed by a part that holds [i]. *)
Definition precedes (l : list nat) (j i : nat) : Prop :=
  exists l1 l2, l = l1 ++ l2 /\ In j l1 /\ In i l2.

(** What the loop of [get_feasible_ordering] maintains, for the matrix [B]
    it was given: [B_copy] is [B] with the columns of [old] cleared;
    [causal] lists the members of [old], each once, parents first; and
    [old] holds the parents of its members. *)
Record ordering_state (B B_copy : matrix) (causal old : list nat)
  : Prop := {
  st_square : square_of (length B) B_copy;
  st_entries : forall i j,
      entry B_copy i j = if py_in j old then 0 else entry B i j;
  st_same : forall x, In x causal <-> In x old;
  st_nodup : NoDup causal;
  st_old_nodup : NoDup old;
  st_bound : forall x, In x old -> (x < length B)%nat;
  st_closed : forall i j, In i old -> nz B i j = true -> In j old;
  st_topo : forall i j, In i causal -> nz B i j = true -> precedes causal j i
}.

(** A chain and a two-cycle on three and two variables. *)
Definition B_chain : matrix := [[0; 0; 0]; [1; 0; 0]; [0; 2; 0]].
Definition B_cycle : matrix := [[0; 1]; [1; 0]].

(* ================================================================== *)
(** * Basic facts: the error monad, rationals and [fnum] comparisons *)

Unset Implicit Arguments.

Lemma bind_ok {A B : Type} (c : result A) (k : A -> result B) (b : B) :
  bind c k = Ok b -> exists a, c = Ok a /\ k a = Ok b.
Proof.
  destruct c as [a | e]; simpl; intros E.
  - exists a; split; [reflexivity | exact E].
  - discriminate.
Qed.

Lemma py_assert_ok (cond : bool) (u : unit) :
  py_assert cond = Ok u -> cond = true.
Proof. destruct cond; simpl; [reflexivity | discriminate]. Qed.

Lemma Qlt_bool_iff (x y : Q) : Qlt_bool x y = true <-> x < y.
Proof.
  unfold Qlt_bool. rewrite negb_true_iff. split.
  - intros E. apply Qnot_le_lt. intros L.
    apply Qle_bool_iff in L. congruence.
  - intros L. destruct (Qle_bool y x) eqn:E; [|reflexivity].
    apply Qle_bool_iff in E. exfalso. apply (Qlt_not_le _ _ L E).
Qed.

Lemma fle_fin_mono (x : fnum) (t1 t2 : Q) :
  t1 <= t2 -> fle x (Fin t1) = true -> fle x (Fin t2) = true.
Proof.
  intros L. destruct x as [q | | |]; simpl; try (intros; assumption).
  rewrite !Qle_bool_iff. intros H. apply Qle_trans with t1; assumption.
Qed.

(* ================================================================== *)
(** * Threshold generator: order, witnesses and distinct partitions *)

Section Thresholds.

Variable z_vec : list fnum.

Lemma filter_length_mono {A : Type} (f g : A -> bool) (l : list A) :
  (forall x, f x = true -> g x = true) ->
  (length (filter f l) <= length (filter g l))%nat.
Proof.
  intros I. induction l as [| a l IH]; simpl; [lia |].
  destruct (f a) eqn:Fa.
  - rewrite (I a Fa). simpl. lia.
  - destruct (g a); simpl; lia.
Qed.

Lemma count_le_mono (t1 t2 : Q) :
  t1 <= t2 -> (count_le z_vec t1 <= count_le z_vec t2)%Z.
Proof.
  intros L. unfold count_le, count_true. apply inj_le.
  apply filter_length_mono. intros x. apply fle_fin_mono. exact L.
Qed.

Lemma filter_length_map {A : Type} (f g : A -> bool) (l : list A) :
  map f l = map g l -> length (filter f l) = length (filter g l).
Proof.
  induction l as [| a l IH]; simpl; [reflexivity |].
  intros E. injection E as Ea El. rewrite Ea.
  destruct (g a); simpl; rewrite (IH El); reflexivity.
Qed.

Lemma partition_le_count (a b : Q) :
  partition_le z_vec a = partition_le z_vec b -> count_le z_vec a = count_le z_vec b.
Proof.
  unfold partition_le, count_le, count_true. intros E.
  f_equal. apply filter_length_map. exact E.
Qed.

Lemma count_ge_witness (t : Q) :
  (0 < count_ge z_vec t)%Z -> exists x, In x z_vec /\ fge x (Fin t) = true.
Proof.
  unfold count_ge, count_true.
  destruct (filter (fun x => fge x (Fin t)) z_vec) as [| x l] eqn:E.
  - simpl. lia.
  - intros _. exists x.
    assert (I : In x (filter (fun x => fge x (Fin t)) z_vec))
      by (rewrite E; left; reflexivity).
    apply filter_In in I. exact I.
Qed.

Lemma thresholds_loop_acc (raw : list Q) :
  forall (c : Z) (acc : list Q),
    thresholds_loop z_vec raw c acc
    = acc ++ thresholds_loop z_vec raw c [].
Proof.
  induction raw as [| t raw IH]; intros c acc; simpl.
  - rewrite app_nil_r. reflexivity.
  - destruct (0 <? _)%Z; [| apply IH].
    destruct (negb _); [| apply IH].
    rewrite IH. rewrite (IH _ [t]). rewrite <- app_assoc. reflexivity.
Qed.

(** What the loop keeps, stated on the list it returns: kept thresholds
    come from the raw sequence in order, each has a variable at or above
    it, and their at-or-below counts grow strictly, starting above the
    count remembered on entry. *)
Lemma thresholds_loop_kept (raw : list Q) :
  forall c : Z,
    StronglySorted Qlt raw ->
    Forall (fun t => (c <= count_le z_vec t)%Z) raw ->
    let kept := thresholds_loop z_vec raw c [] in
    StronglySorted (kept_pair z_vec) kept /\
    Forall (fun t => In t raw /\ (c < count_le z_vec t)%Z /\ (0 < count_ge z_vec t)%Z)
           kept.
Proof.
  induction raw as [| t raw IH]; intros c S B.
  - simpl. split; constructor.
  - cbn [thresholds_loop]. cbv zeta.
    apply StronglySorted_inv in S. destruct S as [S Ht].
    inversion B as [| ? ? Bt Braw]; subst.
    assert (Keep :
              forall c', (c <= c')%Z ->
                Forall (fun t' => (c' <= count_le z_vec t')%Z) raw ->
                let kept := thresholds_loop z_vec raw c' [] in
                StronglySorted (kept_pair z_vec) kept /\
                Forall (fun t' => In t' (t :: raw) /\ (c < count_le z_vec t')%Z
                                  /\ (0 < count_ge z_vec t')%Z) kept).
    { intros c' Lc B'. destruct (IH c' S B') as [S' F']. split; [exact S' |].
      eapply Forall_impl; [| exact F']. simpl.
      intros t' (I & C & G). repeat split; [right; exact I | lia | exact G]. }
    fold (count_ge z_vec t). fold (count_le z_vec t).
    destruct (0 <? count_ge z_vec t)%Z eqn:G; [| apply Keep; [lia | exact Braw]].
    destruct (count_le z_vec t =? c)%Z eqn:E; cbn [negb];
      [apply Keep; [lia | exact Braw] |].
    apply Z.ltb_lt in G. apply Z.eqb_neq in E.
    rewrite thresholds_loop_acc. simpl.
    assert (B' : Forall (fun t' => (count_le z_vec t <= count_le z_vec t')%Z) raw).
    { rewrite Forall_forall in Ht |- *. intros t' I.
      apply count_le_mono. apply Qlt_le_weak. apply Ht. exact I. }
    destruct (IH (count_le z_vec t) S B') as [S' F']. split.
    + constructor; [exact S' |].
      rewrite Forall_forall in F', Ht |- *. intros t' I.
      destruct (F' t' I) as (Ir & C & _). split; [apply Ht; exact Ir | exact C].
    + constructor.
      * repeat split; [left; reflexivity | lia | exact G].
      * eapply Forall_impl; [| exact F']. simpl.
        intros t' (I & C & G'). repeat split; [right; exact I | lia | exact G'].
Qed.

Lemma kept_pair_sorted (kept : list Q) :
  StronglySorted (kept_pair z_vec) kept ->
  StronglySorted Qlt kept /\ NoDup (map (count_le z_vec) kept).
Proof.
  induction 1 as [| a l S [IHs IHn] F]; simpl.
  - split; constructor.
  - split.
    + constructor; [exact IHs |].
      eapply Forall_impl; [| exact F]. intros b [L _]. exact L.
    + constructor; [| exact IHn].
      rewrite in_map_iff. intros (b & E & I).
      rewrite Forall_forall in F. destruct (F b I) as [_ C]. lia.
Qed.

Lemma NoDup_map_coarser {A B C : Type} (f : A -> B) (g : A -> C)
      (l : list A) :
  (forall a b, g a = g b -> f a = f b) ->
  NoDup (map f l) -> NoDup (map g l).
Proof.
  intros I. induction l as [| a l IH]; simpl; intros N.
  - constructor.
  - inversion N as [| ? ? Na Nl]; subst. constructor; [| apply IH; exact Nl].
    rewrite in_map_iff. intros (b & E & Ib). apply Na.
    rewrite in_map_iff. exists b. split; [apply I; exact E | exact Ib].
Qed.

End Thresholds.

Lemma arange_sorted (start step : Q) (len a : nat) :
  0 < step ->
  StronglySorted Qlt
    (map (fun i => start + inject_Z (Z.of_nat i) * step) (seq a len)).
Proof.
  intros P. revert a. induction len as [| len IH]; intros a; simpl.
  - constructor.
  - constructor; [apply IH |].
    rewrite Forall_forall. intros t I. apply in_map_iff in I.
    destruct I as (i & <- & I). apply in_seq in I.
    apply Qplus_lt_r. apply Qmult_lt_compat_r; [exact P |].
    rewrite <- Zlt_Qlt. lia.
Qed.

(** A negative step over a range with [thre_min <= thre_max] enumerates
    nothing, so nothing is kept. *)
Lemma get_aberrant_thresholds_negative_step
      (z_vec : list fnum) (thre_min thre_max thre_seq : Q) :
  thre_seq < 0 -> thre_min <= thre_max ->
  get_aberrant_thresholds z_vec thre_min thre_max thre_seq = Ok [].
Proof.
  intros N L. unfold get_aberrant_thresholds, np_arange.
  destruct (Qeq_bool thre_seq 0) eqn:E.
  { apply Qeq_bool_iff in E. rewrite E in N. discriminate N. }
  cbn [bind].
  assert (C : (Qceiling ((thre_max - thre_min) / thre_seq) <= 0)%Z).
  { change 0%Z with (Qceiling 0). apply Qceiling_resp_le.
    unfold Qdiv.
    setoid_replace 0 with (- ((thre_max - thre_min) * - / thre_seq)
                           + (thre_max - thre_min) * - / thre_seq)
      by ring.
    setoid_replace ((thre_max - thre_min) * / thre_seq)
      with (- ((thre_max - thre_min) * - / thre_seq) + 0) by ring.
    apply Qplus_le_r. apply Qmult_le_0_compat.
    - unfold Qminus. rewrite <- (Qplus_opp_r thre_min).
      apply Qplus_le_l. exact L.
    - apply Qlt_le_weak.
      setoid_replace (- / thre_seq) with (/ - thre_seq)
        by (field; intros Z; rewrite Z in N; discriminate N).
      apply Qinv_lt_0_compat.
      setoid_replace 0 with (- thre_seq + thre_seq) by ring.
      setoid_replace (- thre_seq) with (- thre_seq + 0) at 2 by ring.
      apply Qplus_lt_r. exact N. }
  replace (Z.to_nat _) with O by lia. reflexivity.
Qed.

(** The kept thresholds over a range with a positive step. *)
Lemma get_aberrant_thresholds_positive_step
      (z_vec : list fnum) (thre_min thre_max thre_seq : Q) :
  0 < thre_seq ->
  exists kept,
    get_aberrant_thresholds z_vec thre_min thre_max thre_seq = Ok kept /\
    StronglySorted Qlt kept /\
    Forall (fun t => exists x, In x z_vec /\ fge x (Fin t) = true) kept /\
    NoDup (map (count_le z_vec) kept) /\
    NoDup (map (partition_le z_vec) kept).
Proof.
  intros P. unfold get_aberrant_thresholds, np_arange.
  destruct (Qeq_bool thre_seq 0) eqn:E.
  { apply Qeq_bool_iff in E. rewrite E in P. discriminate P. }
  simpl. eexists. split; [reflexivity |].
  set (raw := map _ (seq 0 _)).
  assert (S : StronglySorted Qlt raw) by (apply arange_sorted; exact P).
  assert (B : Forall (fun t => (-1 <= count_le z_vec t)%Z) raw).
  { rewrite Forall_forall. intros t _. unfold count_le, count_true. lia. }
  destruct (thresholds_loop_kept z_vec raw (-1)%Z S B) as [K F].
  destruct (kept_pair_sorted z_vec _ K) as [Ks Kn].
  repeat split.
  - exact Ks.
  - eapply Forall_impl; [| exact F]. simpl.
    intros t (_ & _ & G). apply count_ge_witness. exact G.
  - exact Kn.
  - eapply NoDup_map_coarser; [| exact Kn].
    intros a b. apply partition_le_count.
Qed.

(** C6.  For every z-score vector and every range (min, max, step) that
    numpy enumerates as min, min + step, ... below max, that is, with a
    non-zero step (a zero step is refused by [np.arange]) that is positive
    or with min <= max, [get_aberrant_thresholds] returns a sequence that
    is in (strictly) ascending order, in which every kept threshold has a
    variable with [z >= threshold], and in which no two thresholds have the
    same count of variables with [z <= threshold]; equivalently no two
    induce the same partition of the variables by [<=]. *)
Theorem get_aberrant_thresholds_sound
        (z_vec : list fnum) (thre_min thre_max thre_seq : Q) :
  ~ thre_seq == 0 ->
  0 < thre_seq \/ thre_min <= thre_max ->
  exists kept,
    get_aberrant_thresholds z_vec thre_min thre_max thre_seq = Ok kept /\
    StronglySorted Qlt kept /\
    Forall (fun t => exists x, In x z_vec /\ fge x (Fin t) = true) kept /\
    NoDup (map (count_le z_vec) kept) /\
    NoDup (map (partition_le z_vec) kept).
Proof.
  intros Hnz Hrange.
  destruct (Qlt_le_dec 0 thre_seq) as [P | N].
  - apply get_aberrant_thresholds_positive_step. exact P.
  - destruct Hrange as [P | L].
    + exfalso. apply (Qlt_not_le _ _ P N).
    + assert (N' : thre_seq < 0).
      { apply Qle_lt_or_eq in N. destruct N as [N | N]; [exact N |].
        exfalso. apply Hnz. exact N. }
      exists []. split.
      * apply get_aberrant_thresholds_negative_step; assumption.
      * repeat split; constructor.
Qed.

Lemma get_aberrant_thresholds_sound_witness :
  exists kept,
    get_aberrant_thresholds [Fin 1; Fin (36 # 25)] (1 # 10) 5 (2 # 10)
    = Ok kept /\
    StronglySorted Qlt kept /\
    Forall (fun t => exists x, In x [Fin 1; Fin (36 # 25)]
                               /\ fge x (Fin t) = true) kept /\
    NoDup (map (count_le [Fin 1; Fin (36 # 25)]) kept) /\
    NoDup (map (partition_le [Fin 1; Fin (36 # 25)]) kept).
Proof.
  apply (get_aberrant_thresholds_sound [Fin 1; Fin (36 # 25)]
                                       (1 # 10) 5 (2 # 10)).
  - discriminate.
  - left. reflexivity.
Defined.

(* ================================================================== *)
(** * Sorting indices *)

Lemma insert_nat_perm (x : nat) (l : list nat) :
  Permutation (insert_nat x l) (x :: l).
Proof.
  induction l as [| y l IH]; simpl; [apply Permutation_refl |].
  destruct (x <? y)%nat; [apply Permutation_refl |].
  eapply perm_trans; [apply perm_skip, IH | apply perm_swap].
Qed.

Lemma sorted_nat_perm (l : list nat) : Permutation (sorted_nat l) l.
Proof.
  induction l as [| x l IH]; simpl; [constructor |].
  eapply perm_trans; [apply insert_nat_perm | apply perm_skip, IH].
Qed.

Lemma insert_nat_sorted (x : nat) (l : list nat) :
  StronglySorted le l -> StronglySorted le (insert_nat x l).
Proof.
  induction 1 as [| y l S IH F]; simpl.
  - constructor; constructor.
  - destruct (x <? y)%nat eqn:E.
    + apply Nat.ltb_lt in E. constructor; [constructor; assumption |].
      constructor; [lia |]. eapply Forall_impl; [| exact F].
      simpl. intros; lia.
    + apply Nat.ltb_ge in E. constructor; [exact IH |].
      eapply Permutation_Forall;
        [apply Permutation_sym, insert_nat_perm |].
      constructor; assumption.
Qed.

Lemma sorted_nat_sorted (l : list nat) : StronglySorted le (sorted_nat l).
Proof.
  induction l as [| x l IH]; simpl; [constructor |].
  apply insert_nat_sorted. exact IH.
Qed.

Lemma sorted_perm_unique (l1 : list nat) :
  forall l2,
    StronglySorted le l1 -> StronglySorted le l2 -> Permutation l1 l2 ->
    l1 = l2.
Proof.
  induction l1 as [| a l1 IH]; intros l2 S1 S2 P.
  - apply Permutation_nil in P. congruence.
  - destruct l2 as [| b l2];
      [apply Permutation_sym, Permutation_nil in P; discriminate |].
    apply StronglySorted_inv in S1. destruct S1 as [S1 F1].
    apply StronglySorted_inv in S2. destruct S2 as [S2 F2].
    rewrite Forall_forall in F1, F2.
    assert (Eab : a = b).
    { assert (Ia : In a (b :: l2))
        by (eapply Permutation_in; [exact P | left; reflexivity]).
      assert (Ib : In b (a :: l1))
        by (eapply Permutation_in;
            [apply Permutation_sym; exact P | left; reflexivity]).
      destruct Ia as [Ia | Ia]; [congruence |].
      destruct Ib as [Ib | Ib]; [congruence |].
      specialize (F1 b Ib). specialize (F2 a Ia). lia. }
    subst b. f_equal. apply IH; try assumption.
    eapply Permutation_cons_inv. exact P.
Qed.

Lemma seq_sorted (a n : nat) : StronglySorted le (seq a n).
Proof.
  revert a. induction n as [| n IH]; intros a; simpl; constructor.
  - apply IH.
  - rewrite Forall_forall. intros x I. apply in_seq in I. lia.
Qed.

Lemma sorted_nat_perm_seq (p : list nat) (n : nat) :
  Permutation p (seq 0 n) -> sorted_nat p = seq 0 n.
Proof.
  intros P. apply sorted_perm_unique.
  - apply sorted_nat_sorted.
  - apply seq_sorted.
  - eapply perm_trans; [apply sorted_nat_perm | exact P].
Qed.

(* ================================================================== *)
(** * [random.shuffle] permutes its argument *)

Lemma list_set_length {A : Type} (l : list A) (i : nat) (x : A) :
  length (list_set l i x) = length l.
Proof.
  revert i. induction l as [| y l IH]; intros [| i]; simpl; auto.
Qed.

Lemma nth_list_set {A : Type} (l : list A) (i j : nat) (x d : A) :
  (j < length l)%nat ->
  nth j (list_set l i x) d = if (i =? j)%nat then x else nth j l d.
Proof.
  revert i j. induction l as [| y l IH]; intros i j L; simpl in L; [lia |].
  destruct i as [| i], j as [| j]; simpl; try reflexivity.
  apply IH. lia.
Qed.

Lemma list_set_perm (l : list nat) (j a d : nat) :
  (j < length l)%nat ->
  Permutation (nth j l d :: list_set l j a) (a :: l).
Proof.
  revert j. induction l as [| b l IH]; intros j L; simpl in L; [lia |].
  destruct j as [| j]; simpl.
  - apply perm_swap.
  - eapply perm_trans; [apply perm_swap |].
    eapply perm_trans; [apply perm_skip, IH; lia |].
    apply perm_swap.
Qed.

Lemma swap_length (x : list nat) (i j : nat) :
  length (swap x i j) = length x.
Proof. unfold swap. rewrite !list_set_length. reflexivity. Qed.

Lemma swap_perm (x : list nat) (i j : nat) :
  (i < length x)%nat -> (j < length x)%nat -> Permutation (swap x i j) x.
Proof.
  intros Li Lj. unfold swap.
  apply Permutation_cons_inv with (a := nth j x O).
  eapply perm_trans; [| apply (list_set_perm x i (nth j x O) O Li)].
  assert (E : nth j (list_set x i (nth j x O)) O = nth j x O).
  { rewrite nth_list_set by exact Lj.
    destruct (i =? j)%nat; reflexivity. }
  rewrite <- E at 1.
  apply list_set_perm. rewrite list_set_length. exact Lj.
Qed.

Lemma randbelow_lt (n : nat) (g : rng) :
  (0 < n)%nat -> (fst (randbelow n g) < n)%nat.
Proof.
  intros P. destruct g as [| r g]; simpl; [exact P |].
  apply Nat.mod_upper_bound. lia.
Qed.

Lemma shuffle_from_perm (i : nat) :
  forall (x : list nat) (g : rng),
    (i = 0 \/ i < length x)%nat ->
    Permutation (fst (shuffle_from i x g)) x.
Proof.
  induction i as [| i IH]; intros x g B; simpl.
  - apply Permutation_refl.
  - destruct B as [B | B]; [discriminate |].
    pose proof (randbelow_lt (S (S i)) g ltac:(lia)) as J.
    destruct (randbelow (S (S i)) g) as [j g']. simpl in J.
    eapply perm_trans.
    + apply IH. right. rewrite swap_length. lia.
    + apply swap_perm; lia.
Qed.

Lemma shuffle_perm (x : list nat) (g : rng) :
  Permutation (fst (shuffle x g)) x.
Proof.
  unfold shuffle. apply shuffle_from_perm.
  destruct x as [| a x]; simpl; [left; reflexivity | right; lia].
Qed.

Lemma index_of_In (t : nat) (l : list nat) :
  In t l ->
  exists ix, index_of t l = Ok ix /\ (ix < length l)%nat /\ nth ix l O = t.
Proof.
  induction l as [| y l IH]; simpl; [intros [] |].
  intros I. destruct (t =? y)%nat eqn:E.
  - apply Nat.eqb_eq in E. exists O. repeat split; [lia | congruence].
  - destruct I as [I | I]; [apply Nat.eqb_neq in E; congruence |].
    destruct (IH I) as (ix & Eix & L & N). exists (S ix).
    rewrite Eix. simpl. repeat split; [lia | exact N].
Qed.

Lemma swap_front (x : list nat) (ix : nat) :
  (ix < length x)%nat -> hd_error (swap x 0 ix) = Some (nth ix x O).
Proof.
  intros L. unfold swap. destruct x as [| a x]; simpl in L; [lia |].
  destruct ix as [| ix]; reflexivity.
Qed.

(* ================================================================== *)
(** * The index sets of the permutation generator *)

Lemma where_from_filter {A : Type} (f : A -> bool) (d : A) (l : list A) :
  forall i,
    where_from f i l
    = filter (fun j => f (nth (j - i) l d)) (seq i (length l)).
Proof.
  induction l as [| x l IH]; intros i; simpl; [reflexivity |].
  rewrite Nat.sub_diag. rewrite IH.
  assert (E : filter (fun j => f (nth (j - S i) l d)) (seq (S i) (length l))
              = filter (fun j => f match (j - i)%nat with
                                   | O => x
                                   | S m => nth m l d
                                   end) (seq (S i) (length l))).
  { apply filter_ext_in. intros j I. apply in_seq in I.
    replace (j - i)%nat with (S (j - S i)) by lia. reflexivity. }
  rewrite E. destruct (f x); reflexivity.
Qed.

Lemma np_where_filter {A : Type} (f : A -> bool) (d : A) (l : list A) :
  np_where f l = filter (fun j => f (nth j l d)) (seq 0 (length l)).
Proof.
  unfold np_where. rewrite (where_from_filter f d).
  apply filter_ext. intros j. rewrite Nat.sub_0_r. reflexivity.
Qed.

Lemma aberrant_indices_filter (z : list fnum) (threshold : Q) :
  aberrant_indices z threshold
  = filter (is_aberrant z threshold) (seq 0 (length z)).
Proof. unfold aberrant_indices. apply (np_where_filter _ NaN). Qed.

Lemma normal_indices_filter (z : list fnum) (threshold : Q) :
  normal_indices z threshold
  = filter (fun i => negb (is_aberrant z threshold i)) (seq 0 (length z)).
Proof.
  unfold normal_indices. apply filter_ext_in. intros i I. f_equal.
  rewrite aberrant_indices_filter.
  destruct (is_aberrant z threshold i) eqn:E.
  - apply existsb_exists. exists i. split; [| apply Nat.eqb_refl].
    apply filter_In. split; assumption.
  - destruct (existsb _ _) eqn:X; [| reflexivity].
    apply existsb_exists in X. destruct X as (j & Ij & Ej).
    apply Nat.eqb_eq in Ej. subst j. apply filter_In in Ij.
    destruct Ij as [_ Ij]. congruence.
Qed.

Lemma filter_split_perm {A : Type} (f : A -> bool) (l : list A) :
  Permutation (filter (fun x => negb (f x)) l ++ filter f l) l.
Proof.
  induction l as [| a l IH]; simpl; [constructor |].
  destruct (f a); simpl.
  - apply Permutation_sym. apply Permutation_cons_app.
    apply Permutation_sym. exact IH.
  - apply perm_skip. exact IH.
Qed.

Lemma index_sets_cover (z : list fnum) (threshold : Q) :
  Permutation (normal_indices z threshold ++ aberrant_indices z threshold)
              (seq 0 (length z)).
Proof.
  rewrite normal_indices_filter, aberrant_indices_filter.
  apply filter_split_perm.
Qed.

Lemma map_nth_seq (l : list nat) :
  map (fun i => nth i l O) (seq 0 (length l)) = l.
Proof.
  induction l as [| a l IH]; simpl; [reflexivity |].
  f_equal. rewrite <- seq_shift, map_map. exact IH.
Qed.

(* ================================================================== *)
(** * The loops of the permutation generator *)

Section PermutationLoops.

Variables N0 A0 : list nat.
Variable k : nat.

Lemma shuffle_trial_spec (i : nat) (s : perm_state) :
  (i < length A0)%nat -> lists_ok N0 A0 s ->
  exists s',
    shuffle_trial A0 i s = Ok s' /\ lists_ok N0 A0 s' /\
    exists p, perms s' = perms s ++ [p] /\ block_perm N0 A0 (nth i A0 O) p.
Proof.
  intros Li [Pn Pa]. unfold shuffle_trial.
  pose proof (shuffle_perm (idx_normal s) (gen s)) as Sn.
  destruct (shuffle (idx_normal s) (gen s)) as [nrm g1]. simpl in Sn.
  pose proof (shuffle_perm (idx_abberent s) g1) as Sa.
  destruct (shuffle (idx_abberent s) g1) as [abb g2]. simpl in Sa.
  unfold getitem. rewrite (nth_error_nth' A0 O Li). simpl.
  assert (Pabb : Permutation abb A0) by (eapply perm_trans; eassumption).
  assert (I : In (nth i A0 O) abb).
  { eapply Permutation_in; [apply Permutation_sym; exact Pabb |].
    apply nth_In. exact Li. }
  destruct (index_of_In _ _ I) as (ix & Eix & Lix & Nix).
  rewrite Eix. simpl.
  assert (Psw : Permutation (swap abb 0 ix) A0).
  { eapply perm_trans; [apply swap_perm; lia | exact Pabb]. }
  eexists. split; [reflexivity |]. split.
  - split; simpl; [eapply perm_trans; eassumption | exact Psw].
  - simpl. eexists. split; [reflexivity |].
    exists nrm, (swap abb 0 ix). repeat split.
    + eapply perm_trans; eassumption.
    + exact Psw.
    + rewrite swap_front by exact Lix. rewrite Nix. reflexivity.
Qed.

Lemma trials_spec (i : nat) (js : list nat) :
  forall s,
    (i < length A0)%nat -> lists_ok N0 A0 s ->
    exists s',
      for_each js (fun _ s => shuffle_trial A0 i s) s = Ok s' /\
      lists_ok N0 A0 s' /\
      exists new,
        perms s' = perms s ++ new /\
        Forall2 (block_perm N0 A0) (repeat (nth i A0 O) (length js)) new.
Proof.
  induction js as [| j js IH]; intros s Li I; simpl.
  - exists s. repeat split; try apply I.
    exists []. rewrite app_nil_r. split; [reflexivity | constructor].
  - destruct (shuffle_trial_spec i s Li I) as (s1 & E1 & I1 & p & Ep & Bp).
    rewrite E1. simpl.
    destruct (IH s1 Li I1) as (s' & E' & I' & new & En & Bn).
    exists s'. split; [exact E' |]. split; [exact I' |].
    exists (p :: new). split.
    + rewrite En, Ep, <- app_assoc. reflexivity.
    + constructor; assumption.
Qed.

Lemma targets_spec (idxs : list nat) :
  forall s,
    Forall (fun i => (i < length A0)%nat) idxs -> lists_ok N0 A0 s ->
    exists s',
      for_each idxs
        (fun i s => for_each (seq 0 k)
                      (fun _ s => shuffle_trial A0 i s) s) s = Ok s' /\
      lists_ok N0 A0 s' /\
      exists new,
        perms s' = perms s ++ new /\
        Forall2 (block_perm N0 A0)
                (flat_map (fun i => repeat (nth i A0 O) k) idxs) new.
Proof.
  induction idxs as [| i idxs IH]; intros s B I; simpl.
  - exists s. repeat split; try apply I.
    exists []. rewrite app_nil_r. split; [reflexivity | constructor].
  - inversion B as [| ? ? Li Bis]; subst.
    destruct (trials_spec i (seq 0 k) s Li I)
      as (s1 & E1 & I1 & new1 & En1 & Bn1).
    rewrite E1. simpl. rewrite length_seq in Bn1.
    destruct (IH s1 Bis I1) as (s' & E' & I' & new & En & Bn).
    exists s'. split; [exact E' |]. split; [exact I' |].
    exists (new1 ++ new). split.
    + rewrite En, En1, <- app_assoc. reflexivity.
    + apply Forall2_app; assumption.
Qed.

End PermutationLoops.

(** The generator never raises, and its output lines up with the list of
    targets: every aberrant index, in the order of the z-score vector,
    repeated once per trial. *)
Lemma compute_permutations_blocks
      (z : list fnum) (threshold : Q) (nshuffles : nat) (g : rng) :
  exists ps g',
    compute_permutations z threshold nshuffles g = Ok (ps, g') /\
    Forall2 (block_perm (normal_indices z threshold)
                        (aberrant_indices z threshold))
            (targets z threshold nshuffles) ps.
Proof.
  unfold compute_permutations.
  set (A0 := aberrant_indices z threshold).
  set (N0 := normal_indices z threshold).
  set (s0 := {| idx_normal := N0; idx_abberent := A0;
                perms := []; gen := g |}).
  assert (I0 : lists_ok N0 A0 s0) by (split; apply Permutation_refl).
  assert (B : Forall (fun i => (i < length A0)%nat) (seq 0 (length A0))).
  { rewrite Forall_forall. intros i I. apply in_seq in I. lia. }
  destruct (targets_spec N0 A0 nshuffles (seq 0 (length A0)) s0 B I0)
    as (s' & E & _ & new & En & Bn).
  rewrite E. simpl. exists (perms s'), (gen s'). split; [reflexivity |].
  rewrite En. simpl. unfold targets. fold A0.
  rewrite <- (map_nth_seq A0) at 2. rewrite flat_map_concat_map, map_map.
  rewrite <- flat_map_concat_map. exact Bn.
Qed.

Lemma targets_length (z : list fnum) (threshold : Q) (k : nat) :
  length (targets z threshold k)
  = (length (aberrant_indices z threshold) * k)%nat.
Proof.
  unfold targets. induction (aberrant_indices z threshold) as [| a l IH].
  - reflexivity.
  - simpl. rewrite length_app, repeat_length, IH. reflexivity.
Qed.

Lemma block_perm_bijection (z : list fnum) (threshold : Q) (t : nat)
      (p : list nat) :
  block_perm (normal_indices z threshold) (aberrant_indices z threshold) t p ->
  Permutation p (seq 0 (length z)).
Proof.
  intros (ns & abl & -> & Pn & Pa & _).
  eapply perm_trans; [apply Permutation_app; eassumption |].
  apply index_sets_cover.
Qed.

(** C7.  For every z-score vector of length p, threshold and shuffle count
    k, [compute_permutations] returns exactly |aberrant| * k permutations,
    where aberrant is the list of indices with [z > threshold]; each of them
    is a rearrangement of 0, ..., p-1, so no index is omitted or duplicated;
    and with an empty aberrant set the list returned is empty.  The count
    is stated twice: against the list the code builds, and against the
    indices [i] below p with [z[i] > threshold]. *)
Theorem compute_permutations_count_and_bijection
        (z : list fnum) (threshold : Q) (nshuffles : nat) (g : rng) :
  exists ps g',
    compute_permutations z threshold nshuffles g = Ok (ps, g') /\
    length ps = (length (aberrant_indices z threshold) * nshuffles)%nat /\
    Forall (fun p => Permutation p (seq 0 (length z))
                     /\ sorted_nat p = seq 0 (length z)) ps /\
    (aberrant_indices z threshold = [] -> ps = []) /\
    length ps
    = (length (filter (is_aberrant z threshold) (seq 0 (length z)))
       * nshuffles)%nat /\
    ((forall i, (i < length z)%nat -> is_aberrant z threshold i = false) ->
     ps = []).
Proof.
  destruct (compute_permutations_blocks z threshold nshuffles g)
    as (ps & g' & E & B).
  exists ps, g'. split; [exact E |].
  assert (L : length ps
              = (length (aberrant_indices z threshold) * nshuffles)%nat).
  { rewrite <- targets_length. symmetry. eapply Forall2_length. exact B. }
  split; [exact L |]. split.
  - clear L E. induction B as [| t p ts ps' Bp _ IH]; constructor.
    + pose proof (block_perm_bijection z threshold t p Bp) as P.
      split; [exact P |]. apply sorted_nat_perm_seq. exact P.
    + exact IH.
  - assert (Hempty : aberrant_indices z threshold = [] -> ps = []).
    { intros A. rewrite A in L. simpl in L.
      destruct ps; [reflexivity | discriminate]. }
    split; [exact Hempty |]. split.
    + rewrite <- aberrant_indices_filter. exact L.
    + intros Hn. apply Hempty. rewrite aberrant_indices_filter.
      destruct (filter (is_aberrant z threshold) (seq 0 (length z)))
        as [| i l] eqn:F; [reflexivity |].
      assert (I : In i (filter (is_aberrant z threshold)
                               (seq 0 (length z))))
        by (rewrite F; left; reflexivity).
      apply filter_In in I. destruct I as [I A]. apply in_seq in I.
      rewrite Hn in A by lia. discriminate A.
Qed.

Lemma block_perm_separates (z : list fnum) (threshold : Q) (t : nat)
      (p : list nat) :
  block_perm (normal_indices z threshold) (aberrant_indices z threshold) t p ->
  separates (@hd_error nat) z threshold t p.
Proof.
  intros (ns & abl & E & Pn & Pa & H). exists ns, abl.
  split; [exact E |]. repeat split; [| | exact H].
  - eapply Permutation_Forall; [apply Permutation_sym; exact Pn |].
    rewrite normal_indices_filter. rewrite Forall_forall. intros i I.
    apply filter_In in I. destruct I as [_ I].
    apply negb_true_iff in I. exact I.
  - eapply Permutation_Forall; [apply Permutation_sym; exact Pa |].
    rewrite aberrant_indices_filter. rewrite Forall_forall. intros i I.
    apply filter_In in I. destruct I as [_ I]. exact I.
Qed.

(** C3, as the code has it.  For every z-score vector, threshold, shuffle
    count and state of the random source, each permutation emitted by
    [compute_permutations] for a given target places all normal indices
    (those without [z > threshold]) before all aberrant indices
    ([z > threshold]), and places the target as the FIRST element of the
    aberrant block. *)
Theorem compute_permutations_target_first
        (z : list fnum) (threshold : Q) (nshuffles : nat) (g : rng) :
  emits_separated (@hd_error nat) z threshold nshuffles g.
Proof.
  destruct (compute_permutations_blocks z threshold nshuffles g)
    as (ps & g' & E & B).
  exists ps, g'. split; [exact E |].
  eapply Forall2_impl; [| exact B].
  intros t p. apply block_perm_separates.
Qed.

(** C3, as stated, fails: with z = (0, 2, 3) and threshold 1 the aberrant
    block of the permutation emitted for target 1 is (1, 2), whose last
    element is 2. *)
Lemma compute_permutations_target_not_last :
  ~ emits_separated last_error [Fin 0; Fin 2; Fin 3] 1 1 [].
Proof.
  intros (ps & g' & E & F).
  vm_compute in E. injection E as Eps _. subst ps.
  inversion F as [| t p ts ps' S1 _]; subst. clear F.
  destruct S1 as (ns & abl & E & Fn & Fa & L).
  destruct ns as [| a [| b [| c ns]]]; simpl in E.
  - subst abl. inversion Fa as [| ? ? A0 _]. vm_compute in A0. discriminate.
  - injection E as Ea Eabl. subst a abl. vm_compute in L. discriminate.
  - injection E as Ea Eb Eabl. subst a b abl.
    inversion Fn as [| ? ? _ Fn']. inversion Fn' as [| ? ? A1 _].
    vm_compute in A1. discriminate.
  - injection E as Ea Eb Ec Eabl. subst a b c.
    inversion Fn as [| ? ? _ Fn']. inversion Fn' as [| ? ? A1 _].
    vm_compute in A1. discriminate.
Qed.

(* ================================================================== *)
(** * Whitening scorer *)

Lemma list_eqb_true (l1 l2 : list nat) : list_eqb l1 l2 = true <-> l1 = l2.
Proof.
  unfold list_eqb. destruct (list_eq_dec Nat.eq_dec l1 l2); split;
    congruence.
Qed.





Lemma map_result_Forall2 {A B : Type} (f : A -> result B) (xs : list A) :
  forall ys, map_result f xs = Ok ys -> Forall2 (fun x y => f x = Ok y) xs ys.
Proof.
  induction xs as [| x xs IH]; simpl; intros ys E.
  - injection E as <-. constructor.
  - apply bind_ok in E. destruct E as (y & Ey & E).
    apply bind_ok in E. destruct E as (ys' & Eys & E).
    injection E as <-. constructor; [exact Ey | apply IH; exact Eys].
Qed.

Lemma Forall2_nth_rel {A B : Type} (R : A -> B -> Prop) (l : list A)
      (l' : list B) (da : A) (db : B) :
  Forall2 R l l' ->
  forall i, (i < length l)%nat -> R (nth i l da) (nth i l' db).
Proof.
  induction 1 as [| a b l l' Rab _ IH]; intros i L; simpl in L; [lia |].
  destruct i as [| i]; simpl; [exact Rab | apply IH; lia].
Qed.

Lemma getitem_nth {A : Type} (v : list A) (i : nat) (x d : A) :
  getitem v i = Ok x -> (i < length v)%nat /\ nth i v d = x.
Proof.
  unfold getitem. destruct (nth_error v i) eqn:E; [| discriminate].
  intros H. injection H as <-. split.
  - apply nth_error_Some. congruence.
  - apply nth_error_nth. exact E.
Qed.

Lemma insert_key_perm (x : nat * nat) (l : list (nat * nat)) :
  Permutation (insert_key x l) (x :: l).
Proof.
  induction l as [| y l IH]; simpl; [apply Permutation_refl |].
  destruct (fst x <? fst y)%nat; [apply Permutation_refl |].
  eapply perm_trans; [apply perm_skip, IH | apply perm_swap].
Qed.

Lemma sort_keys_perm (l : list (nat * nat)) :
  Permutation (fold_right insert_key [] l) l.
Proof.
  induction l as [| x l IH]; simpl; [constructor |].
  eapply perm_trans; [apply insert_key_perm | apply perm_skip, IH].
Qed.

Lemma insert_key_fst (x : nat * nat) (l : list (nat * nat)) :
  map fst (insert_key x l) = insert_nat (fst x) (map fst l).
Proof.
  induction l as [| y l IH]; simpl; [reflexivity |].
  destruct (fst x <? fst y)%nat; simpl; [reflexivity |].
  rewrite IH. reflexivity.
Qed.

Lemma sort_keys_fst (l : list (nat * nat)) :
  map fst (fold_right insert_key [] l) = sorted_nat (map fst l).
Proof.
  induction l as [| x l IH]; simpl; [reflexivity |].
  rewrite insert_key_fst, IH. reflexivity.
Qed.

Lemma map_fst_combine_seq (l : list nat) (s : nat) :
  map fst (combine l (seq s (length l))) = l.
Proof.
  revert s. induction l as [| a l IH]; intros s; simpl; [reflexivity |].
  rewrite IH. reflexivity.
Qed.

Lemma in_combine_seq (l : list nat) :
  forall s a b,
    In (a, b) (combine l (seq s (length l))) ->
    (s <= b < s + length l)%nat /\ nth (b - s) l O = a.
Proof.
  induction l as [| x l IH]; intros s a b; simpl; [intros [] |].
  intros [E | I].
  - injection E as -> ->. rewrite Nat.sub_diag. split; [lia | reflexivity].
  - destruct (IH (S s) a b I) as [B N]. split; [lia |].
    replace (b - s)%nat with (S (b - S s)) by lia. exact N.
Qed.

Lemma valid_perm_facts (perm : list nat) (p : nat) :
  sorted_nat perm = seq 0 p ->
  Permutation perm (seq 0 p) /\ length perm = p /\ NoDup perm.
Proof.
  intros E.
  assert (P : Permutation perm (seq 0 p)).
  { rewrite <- E. apply Permutation_sym. apply sorted_nat_perm. }
  split; [exact P |]. split.
  - rewrite (Permutation_length P). apply length_seq.
  - eapply Permutation_NoDup; [apply Permutation_sym; exact P |].
    apply seq_NoDup.
Qed.

Lemma argsort_length (perm : list nat) : length (argsort perm) = length perm.
Proof.
  unfold argsort. rewrite length_map.
  rewrite (Permutation_length (sort_keys_perm _)).
  rewrite length_combine, length_seq. lia.
Qed.

(** On a valid permutation [argsort] is the inverse: the position found at
    index [perm[i]] of [perm.argsort()] is [i]. *)
Lemma argsort_inverse (perm : list nat) (p i : nat) :
  sorted_nat perm = seq 0 p -> (i < p)%nat ->
  (nth i perm O < p)%nat /\ nth (nth i perm O) (argsort perm) O = i.
Proof.
  intros E Li. destruct (valid_perm_facts perm p E) as (P & L & N).
  set (j := nth i perm O).
  assert (Lj : (j < p)%nat).
  { assert (I : In j (seq 0 p)).
    { eapply Permutation_in; [exact P |]. apply nth_In. lia. }
    apply in_seq in I. lia. }
  split; [exact Lj |].
  set (S := fold_right insert_key [] (combine perm (seq 0 (length perm)))).
  assert (Fs : map fst S = seq 0 p).
  { unfold S. rewrite sort_keys_fst, map_fst_combine_seq. exact E. }
  assert (Ls : length S = p).
  { rewrite <- (length_map fst), Fs. apply length_seq. }
  assert (Kj : fst (nth j S (O, O)) = j).
  { change O with (fst (O, O)) at 1. rewrite <- map_nth. simpl fst.
    rewrite Fs. rewrite seq_nth by exact Lj. reflexivity. }
  assert (Ij : In (nth j S (O, O)) (combine perm (seq 0 (length perm)))).
  { eapply Permutation_in; [apply sort_keys_perm |].
    apply nth_In. fold S. lia. }
  destruct (nth j S (O, O)) as [a b] eqn:Enth. simpl in Kj. subst a.
  apply in_combine_seq in Ij. destruct Ij as [B Nb].
  rewrite Nat.sub_0_r in Nb.
  unfold argsort. fold S.
  change O with (snd (O, O)) at 1. rewrite map_nth. rewrite Enth. simpl.
  rewrite NoDup_nth in N. apply (N b i); [lia | lia |]. exact Nb.
Qed.

(** C9.  Whenever [root_cause_discovery] returns a vector for an
    observational matrix with p columns, an interventional vector and a
    permutation, the permutation is a rearrangement of 0, ..., p-1 and the
    interventional vector has length p (both are asserted on entry); the
    vector returned has length exactly p; every entry is non-negative; and
    the entries are in the original variable order: the variable at
    position i of the permuted problem, [perm[i]], is reported at index
    [perm[i]], as the absolute value of entry i of the solution [X_tilde]
    of the triangular system. *)
Theorem root_cause_discovery_output
        (lib : NumLib) (X_obs : matrix) (X_int : vector) (perm : list nat)
        (Xtilde : vector) :
  root_cause_discovery X_obs X_int perm = Ok Xtilde ->
  Permutation perm (seq 0 (ncols X_obs)) /\
  length X_int = ncols X_obs /\
  length Xtilde = ncols X_obs /\
  Forall (fun e => 0 <= e) Xtilde /\
  exists (sigma L : matrix) (rhs X_tilde : vector),
    LA_cholesky sigma = Ok L /\
    linalg_solve L rhs = Ok X_tilde /\
    forall i, (i < ncols X_obs)%nat ->
      nth (nth i perm O) Xtilde 0 = Qabs (nth i X_tilde 0).
Proof.
  unfold root_cause_discovery. intros E.
  apply bind_ok in E. destruct E as (u1 & A1 & E).
  apply py_assert_ok, Nat.eqb_eq in A1.
  apply bind_ok in E. destruct E as (u2 & A2 & E).
  apply py_assert_ok, list_eqb_true in A2.
  apply bind_ok in E. destruct E as (X_obs_perm & _ & E).
  apply bind_ok in E. destruct E as (X_int_perm & _ & E).
  apply bind_ok in E. destruct E as (sigma0 & _ & E).
  apply bind_ok in E. destruct E as (sigma & _ & E).
  unfold whiten in E.
  apply bind_ok in E. destruct E as (L & EL & E).
  apply bind_ok in E. destruct E as (X_tilde & Esolve & E).
  apply bind_ok in E. destruct E as (w & Etake & E).
  injection E as <-.
  destruct (valid_perm_facts perm _ A2) as (P & Lp & N).
  apply map_result_Forall2 in Etake.
  pose proof (Forall2_length Etake) as Lw. rewrite argsort_length in Lw.
  split; [exact P |]. split; [congruence |].
  split; [rewrite length_map; congruence |]. split.
  - rewrite Forall_forall. intros e I. apply in_map_iff in I.
    destruct I as (x & <- & _). apply Qabs_nonneg.
  - exists sigma, L, (vsub X_int_perm (map Qmean (columns X_obs_perm))),
      X_tilde.
    split; [exact EL |]. split; [exact Esolve |].
    intros i Li. destruct (argsort_inverse perm _ i A2 Li) as [Lj Ej].
    change 0 with (Qabs 0) at 1. rewrite map_nth. f_equal.
    assert (Lj' : (nth i perm O < length (argsort perm))%nat)
      by (rewrite argsort_length; lia).
    pose proof (Forall2_nth_rel _ _ _ O 0 Etake _ Lj') as G.
    simpl in G. rewrite Ej in G.
    apply (getitem_nth _ _ _ 0) in G. destruct G as [_ G].
    symmetry. exact G.
Qed.

Lemma root_cause_discovery_output_witness :
  exists Xtilde,
    root_cause_discovery X_obs_ex [1; 6] [1; 0]%nat = Ok Xtilde /\
    Permutation [1; 0]%nat (seq 0 (ncols X_obs_ex)) /\
    length [1; 6] = ncols X_obs_ex /\
    length Xtilde = ncols X_obs_ex /\
    Forall (fun e => 0 <= e) Xtilde /\
    exists (sigma L : matrix) (rhs X_tilde : vector),
      LA_cholesky sigma = Ok L /\
      linalg_solve L rhs = Ok X_tilde /\
      forall i, (i < ncols X_obs_ex)%nat ->
        nth (nth i [1; 0]%nat O) Xtilde 0 = Qabs (nth i X_tilde 0).
Proof.
  eexists. split; [vm_compute; reflexivity |].
  apply (root_cause_discovery_output exact_lib X_obs_ex [1; 6] [1; 0]%nat).
  vm_compute. reflexivity.
Defined.

Lemma np_take_in_range {A : Type} (v : list A) (d : A) (idx : list nat) :
  Forall (fun j => (j < length v)%nat) idx ->
  np_take v idx = Ok (map (fun j => nth j v d) idx).
Proof.
  unfold np_take. induction 1 as [| j idx Lj _ IH]; simpl; [reflexivity |].
  unfold getitem at 1. rewrite (nth_error_nth' v d Lj). cbn [bind].
  rewrite IH. reflexivity.
Qed.

Lemma take_columns_in_range (X : matrix) (p : nat) (idx : list nat) :
  Forall (fun row => length row = p) X ->
  Forall (fun j => (j < p)%nat) idx ->
  take_columns X idx
  = Ok (map (fun row => map (fun j => nth j row 0) idx) X).
Proof.
  intros R B. unfold take_columns.
  induction R as [| row X Lrow _ IH]; simpl; [reflexivity |].
  rewrite (np_take_in_range row 0 idx) by (rewrite Lrow; exact B).
  cbn [bind]. rewrite IH. reflexivity.
Qed.

Lemma argsort_in_range (perm : list nat) :
  Forall (fun j => (j < length perm)%nat) (argsort perm).
Proof.
  rewrite Forall_forall. intros j I. unfold argsort in I.
  apply in_map_iff in I. destruct I as ([a b] & E & I). simpl in E. subst b.
  assert (I' : In (a, j) (combine perm (seq 0 (length perm)))).
  { eapply Permutation_in; [apply sort_keys_perm | exact I]. }
  apply in_combine_seq in I'. lia.
Qed.

(** The scorer returns as soon as the library routines do: on a rectangular
    matrix with p columns, a vector of length p and a rearrangement of
    0, ..., p-1, if the covariance estimate, the eigenvalues, the
    factorisation and the solve succeed, with a solution of length p, the
    result is the un-permuted solution in absolute value. *)
Lemma root_cause_discovery_returns
      (lib : NumLib) (X_obs : matrix) (X_int : vector) (perm : list nat)
      (sigma0 sigma L : matrix) (X_tilde : vector) :
  let p := ncols X_obs in
  let X_obs_perm := map (fun row => map (fun j => nth j row 0) perm) X_obs in
  let X_int_perm := map (fun j => nth j X_int 0) perm in
  Forall (fun row => length row = p) X_obs ->
  length X_int = p ->
  Permutation perm (seq 0 p) ->
  estimate_covariance X_obs_perm (nrows X_obs) p = Ok sigma0 ->
  ensure_positive_definite sigma0 = Ok sigma ->
  LA_cholesky sigma = Ok L ->
  linalg_solve L (vsub X_int_perm (map Qmean (columns X_obs_perm)))
  = Ok X_tilde ->
  length X_tilde = p ->
  root_cause_discovery X_obs X_int perm
  = Ok (map Qabs (map (fun j => nth j X_tilde 0) (argsort perm))).
Proof.
  intros p X_obs_perm X_int_perm R Lx P Hcov Hpd Hchol Hsolve Lt.
  assert (B : Forall (fun j => (j < p)%nat) perm).
  { rewrite Forall_forall. intros j I.
    eapply Permutation_in in I; [| exact P]. apply in_seq in I. lia. }
  assert (Lp : length perm = p)
    by (rewrite (Permutation_length P); apply length_seq).
  unfold root_cause_discovery. fold p.
  rewrite Lx, Nat.eqb_refl. cbn [py_assert bind].
  rewrite (sorted_nat_perm_seq perm p P).
  rewrite (proj2 (list_eqb_true _ _) eq_refl). cbn [py_assert bind].
  rewrite (take_columns_in_range X_obs p perm R B). cbn [bind].
  rewrite (np_take_in_range X_int 0 perm) by (rewrite Lx; exact B).
  cbn [bind]. fold X_obs_perm. fold X_int_perm.
  rewrite Hcov. cbn [bind]. rewrite Hpd. cbn [bind].
  unfold whiten. rewrite Hchol. cbn [bind]. rewrite Hsolve. cbn [bind].
  rewrite (np_take_in_range X_tilde 0 (argsort perm)).
  - reflexivity.
  - rewrite Lt, <- Lp. apply argsort_in_range.
Qed.

(* ================================================================== *)
(** * The per-variable task without thresholds *)

Lemma thresholds_loop_none (z_vec : list fnum) (raw : list Q) (c : Z) :
  Forall (fun t => count_ge z_vec t = 0%Z) raw ->
  thresholds_loop z_vec raw c [] = [].
Proof.
  induction 1 as [| t raw Ht _ IH]; [reflexivity |].
  cbn [thresholds_loop]. fold (count_ge z_vec t). rewrite Ht. exact IH.
Qed.

Lemma filter_none {A : Type} (f : A -> bool) (l : list A) :
  Forall (fun x => f x = false) l -> filter f l = [].
Proof.
  induction 1 as [| x l Hx _ IH]; simpl; [reflexivity |].
  rewrite Hx. exact IH.
Qed.

Lemma fge_fin_mono (x : fnum) (t1 t2 : Q) :
  t1 <= t2 -> fge x (Fin t2) = true -> fge x (Fin t1) = true.
Proof.
  intros L. unfold fge. destruct x as [q | | |]; simpl;
    try (intros; assumption).
  rewrite !Qle_bool_iff. intros H. apply Qle_trans with t2; assumption.
Qed.

(** When no z-score reaches the first candidate threshold, no threshold is
    kept. *)
Lemma get_aberrant_thresholds_empty (z_vec : list fnum)
      (thre_min thre_max thre_seq : Q) :
  0 < thre_seq ->
  Forall (fun x => fge x (Fin thre_min) = false) z_vec ->
  get_aberrant_thresholds z_vec thre_min thre_max thre_seq = Ok [].
Proof.
  intros P B. unfold get_aberrant_thresholds, np_arange.
  destruct (Qeq_bool thre_seq 0) eqn:E.
  { apply Qeq_bool_iff in E. rewrite E in P. discriminate P. }
  cbn [bind]. f_equal. apply thresholds_loop_none.
  rewrite Forall_forall. intros t I. apply in_map_iff in I.
  destruct I as (i & <- & _).
  unfold count_ge, count_true.
  rewrite filter_none; [reflexivity |].
  rewrite Forall_forall in B |- *. intros x Ix. specialize (B x Ix).
  destruct (fge x (Fin (thre_min + inject_Z (Z.of_nat i) * thre_seq)))
    eqn:G; [| reflexivity].
  rewrite <- B. symmetry. eapply fge_fin_mono; [| exact G].
  rewrite <- (Qplus_0_r thre_min) at 1. apply Qplus_le_r.
  apply Qmult_le_0_compat; [| apply Qlt_le_weak; exact P].
  change 0 with (inject_Z 0). rewrite <- Zle_Qle. lia.
Qed.

Lemma default_thresholds_empty (z_vec : list fnum) :
  Forall (fun x => fge x (Fin (1 # 10)) = false) z_vec ->
  default_thresholds z_vec = Ok [].
Proof.
  intros B. apply get_aberrant_thresholds_empty; [reflexivity | exact B].
Qed.

(** C10.  If the reduced z-score vector inside [process_y_idx_rcd] yields an
    empty sequence of kept thresholds (as it does when every z-score is
    below 0.1, see [default_thresholds_empty]), the function fails with an
    unbound-local error instead of returning (y_idx, 0, subset size):
    [root_cause_score_y] is assigned only inside the body of the loop over
    thresholds. *)
Theorem process_y_idx_rcd_unbound_local
        (lib : NumLib) (y_idx : nat) (X_obs : matrix) (X_int : vector)
        (nshuffles : nat) (Precision_mat : option matrix) (g : rng) :
  (exists X_obs_new X_int_sample_new select_len_y z_new,
      select_variables y_idx X_obs X_int Precision_mat
      = Ok (X_obs_new, X_int_sample_new, select_len_y) /\
      zscore X_obs_new X_int_sample_new = Ok z_new /\
      default_thresholds z_new = Ok []) ->
  process_y_idx_rcd y_idx X_obs X_int nshuffles Precision_mat g
  = Raise UnboundLocalError /\
  forall score select_len_y,
    process_y_idx_rcd y_idx X_obs X_int nshuffles Precision_mat g
    <> Ok (y_idx, score, select_len_y).
Proof.
  intros (X_obs_new & X_int_sample_new & len & z_new & Hsel & Hz & Ht).
  assert (E : process_y_idx_rcd y_idx X_obs X_int nshuffles Precision_mat g
              = Raise UnboundLocalError).
  { unfold process_y_idx_rcd. rewrite Hsel. cbn [bind].
    rewrite Hz. cbn [bind]. rewrite Ht. reflexivity. }
  split; [exact E |]. intros score l. rewrite E. discriminate.
Qed.

Lemma process_y_idx_rcd_unbound_local_witness :
  process_y_idx_rcd 1 X_obs_ex [0; 0] 1 (Some Precision_ex) []
  = Raise UnboundLocalError /\
  forall score select_len_y,
    process_y_idx_rcd 1 X_obs_ex [0; 0] 1 (Some Precision_ex) []
    <> Ok (1%nat, score, select_len_y).
Proof.
  apply (process_y_idx_rcd_unbound_local
           exact_lib 1 X_obs_ex [0; 0] 1 (Some Precision_ex) []).
  exists X_obs_ex, [0; 0], 2%nat, z_at_mean.
  split; [vm_compute; reflexivity |].
  split; vm_compute; reflexivity.
Defined.

(* ================================================================== *)
(** * The margin statistic when the second-largest value is zero *)

Lemma insert_sorted_perm (x : Q) (l : vector) :
  Permutation (insert_sorted x l) (x :: l).
Proof.
  induction l as [| y l IH]; simpl; [apply Permutation_refl |].
  destruct (Qlt_bool x y); [apply Permutation_refl |].
  eapply perm_trans; [apply perm_skip, IH | apply perm_swap].
Qed.

Lemma insert_sorted_sorted (x : Q) (l : vector) :
  StronglySorted Qle l -> StronglySorted Qle (insert_sorted x l).
Proof.
  induction 1 as [| y l S IH F]; simpl.
  - constructor; constructor.
  - destruct (Qlt_bool x y) eqn:E.
    + apply Qlt_bool_iff in E. constructor; [constructor; assumption |].
      constructor; [apply Qlt_le_weak; exact E |].
      eapply Forall_impl; [| exact F]. simpl. intros a Ha.
      apply Qle_trans with y; [apply Qlt_le_weak; exact E | exact Ha].
    + assert (L : y <= x).
      { apply Qnot_lt_le. intros C. apply Qlt_bool_iff in C. congruence. }
      constructor; [exact IH |].
      eapply Permutation_Forall;
        [apply Permutation_sym, insert_sorted_perm |].
      constructor; assumption.
Qed.

Lemma py_sorted_sorted (v : vector) : StronglySorted Qle (py_sorted v).
Proof.
  induction v as [| x v IH]; simpl; [constructor |].
  apply insert_sorted_sorted. exact IH.
Qed.

Lemma py_sorted_length (v : vector) : length (py_sorted v) = length v.
Proof.
  induction v as [| x v IH]; simpl; [reflexivity |].
  rewrite (Permutation_length (insert_sorted_perm _ _)). simpl.
  rewrite IH. reflexivity.
Qed.

Lemma sorted_nth_le (l : vector) :
  StronglySorted Qle l ->
  forall i j, (i < j)%nat -> (j < length l)%nat -> nth i l 0 <= nth j l 0.
Proof.
  induction 1 as [| a l S IH F]; intros i j Lij Lj; simpl in Lj; [lia |].
  destruct j as [| j]; [lia |]. destruct i as [| i]; simpl.
  - rewrite Forall_forall in F. apply F. apply nth_In. lia.
  - apply IH; lia.
Qed.

Lemma from_end_nth {A : Type} (v : list A) (k : nat) (x d : A) :
  from_end v k = Ok x ->
  (k <= length v)%nat /\ (length v - k < length v)%nat /\
  nth (length v - k) v d = x.
Proof.
  unfold from_end. destruct (k <=? length v)%nat eqn:E; [| discriminate].
  apply Nat.leb_le in E. intros G. apply (getitem_nth _ _ _ d) in G.
  destruct G as [L N]. repeat split; assumption.
Qed.

Lemma from_end_ok {A : Type} (v : list A) (k : nat) (d : A) :
  (1 <= k <= length v)%nat -> from_end v k = Ok (nth (length v - k) v d).
Proof.
  intros B. unfold from_end.
  destruct (k <=? length v)%nat eqn:E; [| apply Nat.leb_gt in E; lia].
  unfold getitem. rewrite (nth_error_nth' v d); [reflexivity | lia].
Qed.

Lemma argmax_from_bound (l : vector) :
  forall best besti i,
    argmax_from best besti i l = besti \/
    (i <= argmax_from best besti i l < i + length l)%nat.
Proof.
  induction l as [| x l IH]; intros best besti i; simpl; [left; reflexivity |].
  destruct (Qlt_bool best x).
  - destruct (IH x i (S i)) as [E | B]; right; lia.
  - destruct (IH best besti (S i)) as [E | B]; [left; exact E | right; lia].
Qed.

Lemma np_argmax_bound (v : vector) (m : nat) :
  np_argmax v = Ok m -> (m < length v)%nat.
Proof.
  destruct v as [| x v]; simpl; [discriminate |].
  intros E. injection E as <-.
  destruct (argmax_from_bound v x 0 1) as [E | B]; lia.
Qed.

Lemma setitem_ok {A : Type} (v : list A) :
  forall i x, (i < length v)%nat -> setitem v i x = Ok (list_set v i x).
Proof.
  induction v as [| y v IH]; intros i x L; simpl in L; [lia |].
  destruct i as [| i]; simpl; [reflexivity |].
  rewrite IH by lia. reflexivity.
Qed.

(** The quotient the margin is made of, when its divisor is zero. *)
Lemma fdiv_by_zero (a b : Q) :
  b == 0 -> 0 <= a - b ->
  fdiv (Fin (a - b)) (Fin b) = if Qeq_bool (a - b) 0 then NaN else PInf.
Proof.
  intros Eb La. simpl.
  apply Qeq_bool_iff in Eb. rewrite Eb.
  destruct (Qeq_bool (a - b) 0); [reflexivity |].
  unfold Qsign_nonneg. apply Qle_bool_iff in La. rewrite La. reflexivity.
Qed.

(** C4, as the code has it.  In both aggregation loops, when the
    second-largest whitened value of a configuration is zero the run is not
    aborted: the step returns and the sweep goes on.  If the largest value
    is positive, the margin is +infinity and it IS stored: in the main loop
    as the score of the arg-max variable unless that score is already
    +infinity or NaN, and in the per-variable task as the score of the
    response when the response is the arg-max.  If the largest value is
    zero as well, the margin is NaN, every comparison with it is false, and
    the configuration contributes nothing. *)
Theorem zero_second_largest_margin
        (Xtilde : vector) (second : Q) (root_cause_score : list fnum)
        (root_cause_score_y : fnum) :
  length root_cause_score = length Xtilde ->
  from_end (py_sorted Xtilde) 2 = Ok second ->
  second == 0 ->
  exists largest max_index current,
    from_end (py_sorted Xtilde) 1 = Ok largest /\
    np_argmax Xtilde = Ok max_index /\
    getitem root_cause_score max_index = Ok current /\
    0 <= largest /\
    (0 < largest ->
     margin_statistic Xtilde = Ok PInf /\
     record_margin Xtilde root_cause_score
     = Ok (if flt current PInf
           then list_set root_cause_score max_index PInf
           else root_cause_score) /\
     record_margin_y Xtilde root_cause_score_y
     = Ok (if ((max_index =? length Xtilde - 1)%nat
               && flt root_cause_score_y PInf)%bool
           then PInf else root_cause_score_y)) /\
    (largest == 0 ->
     margin_statistic Xtilde = Ok NaN /\
     record_margin Xtilde root_cause_score = Ok root_cause_score /\
     record_margin_y Xtilde root_cause_score_y = Ok root_cause_score_y).
Proof.
  intros Hlen Hsec Hzero.
  destruct (from_end_nth _ _ _ 0 Hsec) as (L2 & _ & N2).
  rewrite py_sorted_length in L2.
  set (largest := nth (length (py_sorted Xtilde) - 1) (py_sorted Xtilde) 0).
  assert (Hlar : from_end (py_sorted Xtilde) 1 = Ok largest).
  { apply from_end_ok. rewrite py_sorted_length. lia. }
  assert (Hle : second <= largest).
  { rewrite <- N2. apply sorted_nth_le; [apply py_sorted_sorted | |];
      rewrite py_sorted_length; lia. }
  destruct Xtilde as [| x0 Xt] eqn:EX; [simpl in L2; lia |].
  rewrite <- EX in *.
  assert (Harg : exists m, np_argmax Xtilde = Ok m)
    by (rewrite EX; simpl; eexists; reflexivity).
  destruct Harg as [max_index Harg].
  pose proof (np_argmax_bound _ _ Harg) as Lm.
  assert (Hcur : getitem root_cause_score max_index
                 = Ok (nth max_index root_cause_score NaN)).
  { unfold getitem. rewrite (nth_error_nth' _ NaN); [reflexivity | lia]. }
  exists largest, max_index, (nth max_index root_cause_score NaN).
  split; [exact Hlar |]. split; [exact Harg |]. split; [exact Hcur |].
  assert (Hnn : 0 <= largest) by (rewrite <- Hzero; exact Hle).
  split; [exact Hnn |].
  assert (Hdiff : 0 <= largest - second).
  { rewrite Hzero. unfold Qminus. rewrite Qplus_0_r. exact Hnn. }
  assert (Hm : margin_statistic Xtilde
               = Ok (if Qeq_bool (largest - second) 0 then NaN else PInf)).
  { unfold margin_statistic. rewrite Hlar, Hsec. cbn [bind].
    rewrite (fdiv_by_zero _ _ Hzero Hdiff). reflexivity. }
  split.
  - intros Hpos.
    assert (Hne : Qeq_bool (largest - second) 0 = false).
    { destruct (Qeq_bool (largest - second) 0) eqn:E; [| reflexivity].
      apply Qeq_bool_iff in E. rewrite Hzero in E.
      unfold Qminus in E. rewrite Qplus_0_r in E.
      rewrite E in Hpos. discriminate Hpos. }
    rewrite Hne in Hm. split; [exact Hm |]. split.
    + unfold record_margin. rewrite Hm. cbn [bind]. rewrite Harg. cbn [bind].
      rewrite Hcur. cbn [bind].
      destruct (flt (nth max_index root_cause_score NaN) PInf);
        [apply setitem_ok; lia | reflexivity].
    + unfold record_margin_y. rewrite Hm. cbn [bind]. rewrite Harg. cbn [bind].
      destruct (max_index =? length Xtilde - 1)%nat; [| reflexivity].
      destruct (flt root_cause_score_y PInf); reflexivity.
  - intros Hz.
    assert (He : Qeq_bool (largest - second) 0 = true).
    { apply Qeq_bool_iff. rewrite Hz, Hzero. reflexivity. }
    rewrite He in Hm. split; [exact Hm |]. split.
    + unfold record_margin. rewrite Hm. cbn [bind]. rewrite Harg. cbn [bind].
      rewrite Hcur. cbn [bind].
      destruct (nth max_index root_cause_score NaN); reflexivity.
    + unfold record_margin_y. rewrite Hm. cbn [bind]. rewrite Harg. cbn [bind].
      destruct (max_index =? length Xtilde - 1)%nat; [| reflexivity].
      destruct root_cause_score_y; reflexivity.
Qed.

Lemma zero_second_largest_margin_witness :
  exists largest max_index current,
    from_end (py_sorted Xtilde_zero_second) 1 = Ok largest /\
    np_argmax Xtilde_zero_second = Ok max_index /\
    getitem [Fin 0; Fin 0] max_index = Ok current /\
    0 <= largest /\
    (0 < largest ->
     margin_statistic Xtilde_zero_second = Ok PInf /\
     record_margin Xtilde_zero_second [Fin 0; Fin 0]
     = Ok (if flt current PInf
           then list_set [Fin 0; Fin 0] max_index PInf
           else [Fin 0; Fin 0]) /\
     record_margin_y Xtilde_zero_second (Fin 0)
     = Ok (if ((max_index =? length Xtilde_zero_second - 1)%nat
               && flt (Fin 0) PInf)%bool
           then PInf else Fin 0)) /\
    (largest == 0 ->
     margin_statistic Xtilde_zero_second = Ok NaN /\
     record_margin Xtilde_zero_second [Fin 0; Fin 0] = Ok [Fin 0; Fin 0] /\
     record_margin_y Xtilde_zero_second (Fin 0) = Ok (Fin 0)).
Proof.
  apply (zero_second_largest_margin Xtilde_zero_second 0 [Fin 0; Fin 0] (Fin 0));
    reflexivity.
Defined.

(** C4, as stated, fails: the whitened vector (0, 1.5) has second-largest
    value zero, and the main loop stores +infinity as the score of
    variable 1. *)
Lemma undefined_margin_is_stored : ~ skips_undefined_margin.
Proof.
  intros H.
  destruct (H Xtilde_zero_second 0 [Fin 0; Fin 0] (Fin 0)) as [Hmain _];
    try reflexivity.
  vm_compute in Hmain. discriminate Hmain.
Qed.

(** The same on a whole run of the main function: the interventional
    sample (0, 6) sits at the mean of variable 0, the only configuration
    has whitened vector (0, 1.5), and the scores returned are NaN for
    variable 0 and +infinity for variable 1. *)
Example main_returns_non_finite_scores :
  root_cause_discovery_main X_obs_ex [0; 6] 1 None []
  = Ok ([NaN; PInf], []).
Proof. vm_compute. reflexivity. Qed.

(* ================================================================== *)
(** * High-dimensional orchestrator: no candidate with a positive score *)

Lemma where_from_bound {A : Type} (f : A -> bool) (l : list A) :
  forall i y, In y (where_from f i l) -> (i <= y < i + length l)%nat.
Proof.
  induction l as [| x l IH]; intros i y; simpl; [intros [] |].
  destruct (f x); simpl.
  - intros [E | I]; [lia | apply IH in I; lia].
  - intros I. apply IH in I. lia.
Qed.

Lemma where_from_none {A : Type} (f : A -> bool) (l : list A) :
  forall i, Forall (fun x => f x = false) l -> where_from f i l = [].
Proof.
  induction l as [| x l IH]; intros i F; simpl; [reflexivity |].
  inversion F as [| ? ? Hx Hl]; subst. rewrite Hx. apply IH. exact Hl.
Qed.

Lemma where_from_all {A : Type} (f : A -> bool) (l : list A) :
  forall i, Forall (fun x => f x = true) l ->
            length (where_from f i l) = length l.
Proof.
  induction l as [| x l IH]; intros i F; simpl; [reflexivity |].
  inversion F as [| ? ? Hx Hl]; subst. rewrite Hx. simpl.
  rewrite IH by exact Hl. reflexivity.
Qed.

Lemma zscore_length (lib : NumLib) (X_obs : matrix) (X_int : vector)
      (z : list fnum) :
  zscore X_obs X_int = Ok z ->
  length z = length X_int /\ ncols X_obs = length X_int.
Proof.
  unfold zscore, zscore_vec. intros E.
  apply bind_ok in E. destruct E as (u & A & E).
  apply py_assert_ok, Nat.eqb_eq in A. injection E as <-.
  rewrite length_map, length_seq. split; [reflexivity | exact A].
Qed.

Lemma process_y_idx_rcd_index (lib : NumLib) (y_idx : nat) (X_obs : matrix)
      (X_int : vector) (nshuffles : nat) (Precision_mat : option matrix)
      (g : rng) (r : nat * fnum * nat) :
  process_y_idx_rcd y_idx X_obs X_int nshuffles Precision_mat g = Ok r ->
  fst (fst r) = y_idx.
Proof.
  unfold process_y_idx_rcd. intros E.
  apply bind_ok in E. destruct E as ([[X1 x1] l1] & _ & E).
  apply bind_ok in E. destruct E as (z1 & _ & E).
  apply bind_ok in E. destruct E as (t1 & _ & E).
  apply bind_ok in E. destruct E as ([loc g1] & _ & E).
  apply bind_ok in E. destruct E as (s & _ & E).
  injection E as <-. reflexivity.
Qed.

Lemma Forall2_Forall_r {A B : Type} (R : A -> B -> Prop) (P : A -> Prop)
      (Q : B -> Prop) (l : list A) (l' : list B) :
  Forall2 R l l' -> Forall P l -> (forall x y, R x y -> P x -> Q y) ->
  Forall Q l'.
Proof.
  intros F. induction F as [| x y l l' Rxy _ IH]; intros FP I; constructor.
  - inversion FP; subst. eapply I; eassumption.
  - inversion FP; subst. apply IH; assumption.
Qed.

Lemma list_set_Forall {A : Type} (P : A -> Prop) (l : list A) :
  forall i x, Forall P l -> P x -> Forall P (list_set l i x).
Proof.
  induction l as [| y l IH]; intros i x F Px; simpl; [constructor |].
  inversion F as [| ? ? Py Pl]; subst.
  destruct i as [| i]; constructor; auto.
Qed.

(** The fan-in loop on results that all carry a zero score: it returns, and
    every entry of the score vector is still zero. *)
Lemma collect_results_zero (p : nat) (results : list (nat * fnum * nat)) :
  Forall zero_score results ->
  Forall (fun r => (fst (fst r) < p)%nat) results ->
  exists root_cause_score select_len,
    collect_results p results = Ok (root_cause_score, select_len) /\
    length root_cause_score = p /\
    Forall (fun s => feq s (Fin 0) = true) root_cause_score.
Proof.
  unfold collect_results.
  assert (G : forall (sc : list fnum) (sl : list nat),
             length sc = p -> length sl = p ->
             Forall (fun s => feq s (Fin 0) = true) sc ->
             Forall zero_score results ->
             Forall (fun r => (fst (fst r) < p)%nat) results ->
             exists root_cause_score select_len,
               for_each results
                 (fun '(y_idx, score, len) '(root_cause_score, select_len) =>
                    root_cause_score' <-
                      setitem root_cause_score y_idx score ;;
                    select_len' <- setitem select_len y_idx len ;;
                    Ok (root_cause_score', select_len'))
                 (sc, sl) = Ok (root_cause_score, select_len) /\
               length root_cause_score = p /\
               Forall (fun s => feq s (Fin 0) = true) root_cause_score).
  { induction results as [| [[y s] l] results IH];
      intros sc sl Lsc Lsl Fsc Fz Fb; simpl.
    - exists sc, sl. repeat split; assumption.
    - pose proof (Forall_inv Fz) as Hz.
      pose proof (Forall_inv_tail Fz) as Fz'.
      pose proof (Forall_inv Fb) as Hb.
      pose proof (Forall_inv_tail Fb) as Fb'. simpl in Hb.
      unfold zero_score in Hz. simpl in Hz.
      rewrite setitem_ok by lia. cbn [bind].
      rewrite setitem_ok by lia. cbn [bind].
      apply IH; try assumption.
      + rewrite list_set_length. exact Lsc.
      + rewrite list_set_length. exact Lsl.
      + apply list_set_Forall; assumption. }
  intros Fz Fb. apply G; try assumption.
  - apply repeat_length.
  - apply repeat_length.
  - unfold np_zeros. clear. induction p; simpl; constructor; auto.
Qed.

(** With every score at zero, the fallback of the high-dimensional path is
    the raw z-score vector. *)
Lemma assign_fallback_highdim_zero (z root_cause_score : list fnum) :
  length root_cause_score = length z ->
  Forall (fun s => feq s (Fin 0) = true) root_cause_score ->
  assign_fallback_highdim z root_cause_score = Ok z.
Proof.
  intros L F. unfold assign_fallback_highdim, np_where.
  rewrite (where_from_none (fun s => fne s (Fin 0))).
  2:{ eapply Forall_impl; [| exact F]. simpl. intros s Hs.
      unfold fne. rewrite Hs. reflexivity. }
  pose proof (where_from_all (fun s => feq s (Fin 0)) root_cause_score 0 F)
    as La.
  destruct (where_from (fun s => feq s (Fin 0)) 0 root_cause_score)
    as [| i idx2]; simpl.
  - simpl in La. destruct root_cause_score; [| discriminate].
    destruct z; [reflexivity | discriminate].
  - reflexivity.
Qed.

(** C5, as the code has it.  In the high-dimensional orchestrator, if no
    candidate response variable achieves a non-zero score, the score vector
    returned is the raw z-score vector itself: every variable, candidate or
    not, gets its raw z-score. *)
Theorem highdim_falls_back_to_raw_zscores
        (lib : NumLib) (X_obs : matrix) (X_int : vector)
        (y_idx_z_threshold : Q) (nshuffles : nat)
        (Precision_mat : option matrix) (worker_rng : nat -> rng)
        (z : list fnum) (results : list (nat * fnum * nat)) :
  zscore X_obs X_int = Ok z ->
  run_tasks X_obs X_int y_idx_z_threshold nshuffles Precision_mat
            worker_rng z = Ok results ->
  Forall zero_score results ->
  exists select_len,
    root_cause_discovery_highdim_parallel
      X_obs X_int y_idx_z_threshold nshuffles Precision_mat worker_rng
    = Ok (z, select_len).
Proof.
  intros Hz Hrun Hzero.
  destruct (zscore_length _ _ _ _ Hz) as [Lz Lp].
  assert (Fb : Forall (fun r => (fst (fst r) < ncols X_obs)%nat) results).
  { unfold run_tasks in Hrun. apply map_result_Forall2 in Hrun.
    eapply Forall2_Forall_r; [exact Hrun | |].
    - rewrite Forall_forall. intros y I.
      apply where_from_bound in I. exact I.
    - simpl. intros y r Hy B.
      rewrite (process_y_idx_rcd_index _ _ _ _ _ _ _ _ Hy). lia. }
  destruct (collect_results_zero (ncols X_obs) results Hzero Fb)
    as (sc & sl & Hcol & Lsc & Fsc).
  exists sl. unfold root_cause_discovery_highdim_parallel.
  rewrite Hz. cbn [bind]. unfold run_tasks in Hrun. rewrite Hrun. cbn [bind].
  rewrite Hcol. cbn [bind].
  rewrite assign_fallback_highdim_zero; [reflexivity | lia | exact Fsc].
Qed.

Lemma highdim_falls_back_to_raw_zscores_witness :
  exists select_len,
    root_cause_discovery_highdim_parallel
      X_obs_ex [1; 6] (12 # 10) 1 (Some Precision_ex) (fun _ => [])
    = Ok (z_ex, select_len).
Proof.
  apply (highdim_falls_back_to_raw_zscores
           exact_lib X_obs_ex [1; 6] (12 # 10) 1 (Some Precision_ex)
           (fun _ => []) z_ex [(1%nat, Fin 0, 2%nat)]).
  - vm_compute. reflexivity.
  - vm_compute. reflexivity.
  - constructor; [reflexivity | constructor].
Defined.

(** C5, as stated, fails: with candidacy threshold 1.2 the sample (1, 6) has
    z-scores 1 and 1.44; variable 1 is the only candidate and its task
    returns a zero score; variable 0 is not a candidate, and its returned
    score is its raw z-score 1, not zero. *)
Lemma noncandidate_gets_raw_zscore :
  ~ noncandidates_keep_zero X_obs_ex [1; 6] (12 # 10) 1 (Some Precision_ex)
                            (fun _ => []).
Proof.
  intros H.
  assert (Hz : zscore X_obs_ex [1; 6] = Ok z_ex)
    by (vm_compute; reflexivity).
  assert (Hrun : run_tasks X_obs_ex [1; 6] (12 # 10) 1 (Some Precision_ex)
                           (fun _ => []) z_ex = Ok [(1%nat, Fin 0, 2%nat)])
    by (vm_compute; reflexivity).
  assert (Hzero : Forall zero_score [(1%nat, Fin 0, 2%nat)])
    by (constructor; [reflexivity | constructor]).
  assert (Hout : root_cause_discovery_highdim_parallel
                   X_obs_ex [1; 6] (12 # 10) 1 (Some Precision_ex)
                   (fun _ => [])
                 = Ok (z_ex, [O; 2%nat]))
    by (vm_compute; reflexivity).
  destruct (H z_ex _ z_ex _ Hz Hrun Hzero Hout O) as [_ Hnon].
  { vm_compute. lia. }
  assert (C : feq (nth 0 z_ex NaN) (Fin 0) = true)
    by (apply Hnon; vm_compute; reflexivity).
  vm_compute in C. discriminate C.
Qed.

(* ================================================================== *)
(** * Main function: every score zero after the sweep *)

(** With every score at zero and at least one variable, the fallback of
    [root_cause_discovery_main] takes [np.min] of an empty array. *)
Lemma assign_fallback_main_zero (z root_cause_score : list fnum) :
  root_cause_score <> [] ->
  Forall (fun s => feq s (Fin 0) = true) root_cause_score ->
  assign_fallback_main z root_cause_score = Raise ValueError.
Proof.
  intros Hne F. unfold assign_fallback_main, np_where.
  rewrite (where_from_none (fun s => fne s (Fin 0))).
  2:{ eapply Forall_impl; [| exact F]. simpl. intros s Hs.
      unfold fne. rewrite Hs. reflexivity. }
  pose proof (where_from_all (fun s => feq s (Fin 0)) root_cause_score 0 F)
    as La.
  destruct (where_from (fun s => feq s (Fin 0)) 0 root_cause_score)
    as [| i idx2].
  - destruct root_cause_score; [congruence | discriminate].
  - reflexivity.
Qed.

(** The same two facts side by side: on scores that are all zero the main
    function raises, the high-dimensional path returns the z-scores. *)
Lemma fallback_paths_differ (z root_cause_score : list fnum) :
  root_cause_score <> [] ->
  length root_cause_score = length z ->
  Forall (fun s => feq s (Fin 0) = true) root_cause_score ->
  assign_fallback_main z root_cause_score = Raise ValueError /\
  assign_fallback_highdim z root_cause_score = Ok z.
Proof.
  intros Hne L F. split.
  - apply assign_fallback_main_zero; assumption.
  - apply assign_fallback_highdim_zero; assumption.
Qed.

Lemma nth_list_set_other {A : Type} (l : list A) :
  forall i j (x d : A),
    i <> j -> nth j (list_set l i x) d = nth j l d.
Proof.
  induction l as [| y l IH]; intros i j x d N; simpl; [reflexivity |].
  destruct i as [| i], j as [| j]; simpl; try reflexivity; try lia.
  apply IH. lia.
Qed.


Lemma np_where_In {A : Type} (f : A -> bool) (d : A) (l : list A) (j : nat) :
  In j (np_where f l) <-> (j < length l)%nat /\ f (nth j l d) = true.
Proof.
  rewrite (np_where_filter f d). rewrite filter_In, in_seq.
  split; intros [H1 H2]; split; try assumption; lia.
Qed.

Lemma np_where_NoDup {A : Type} (f : A -> bool) (l : list A) (d : A) :
  NoDup (np_where f l).
Proof.
  rewrite (np_where_filter f d). apply NoDup_filter. apply seq_NoDup.
Qed.


(** Whatever the input, a sweep that leaves every score at zero makes
    [root_cause_discovery_main] raise. *)
Lemma root_cause_discovery_main_all_zero
      (lib : NumLib) (X_obs : matrix) (X_int : vector) (nshuffles : nat)
      (g g' : rng) (z root_cause_score : list fnum) (thresholds : list Q) :
  ncols X_obs = length X_int ->
  zscore X_obs X_int = Ok z ->
  main_sweep X_obs X_int z nshuffles thresholds (np_zeros (ncols X_obs)) g
  = Ok (root_cause_score, g') ->
  root_cause_score <> [] ->
  Forall (fun s => feq s (Fin 0) = true) root_cause_score ->
  root_cause_discovery_main X_obs X_int nshuffles (Some thresholds) g
  = Raise ValueError.
Proof.
  intros Hp Hz Hsweep Hne Hzero. unfold root_cause_discovery_main.
  rewrite Hp, Nat.eqb_refl. cbn [py_assert bind].
  rewrite Hz. cbn [bind]. rewrite <- Hp, Hsweep. cbn [bind].
  rewrite (assign_fallback_main_zero z root_cause_score Hne Hzero).
  reflexivity.
Qed.

(** C2, at the failing input.  The interventional sample (0, 0) sits at the
    observational mean of [X_obs_ex]: both z-scores are zero, no threshold
    is kept, every score is zero after the (empty) sweep, and
    [root_cause_discovery_main] raises [ValueError] instead of returning the
    z-score vector.  The high-dimensional path returns the z-score vector on
    the same data. *)
Theorem main_raises_when_all_scores_zero :
  zscore X_obs_ex [0; 0] = Ok z_at_mean /\
  default_thresholds z_at_mean = Ok [] /\
  main_sweep X_obs_ex [0; 0] z_at_mean 1 [] (np_zeros 2) []
  = Ok (np_zeros 2, []) /\
  root_cause_discovery_main X_obs_ex [0; 0] 1 None [] = Raise ValueError /\
  root_cause_discovery_highdim_parallel
    X_obs_ex [0; 0] (15 # 10) 1 (Some Precision_ex) (fun _ => [])
  = Ok (z_at_mean, [O; O]).
Proof. repeat split; vm_compute; reflexivity. Qed.

(* ================================================================== *)
(** * The per-variable task keeps the last threshold only *)

Lemma for_each_app {A S : Type} (xs ys : list A) (body : A -> S -> result S) :
  forall s,
    for_each (xs ++ ys) body s = (s' <- for_each xs body s ;;
                                  for_each ys body s').
Proof.
  induction xs as [| x xs IH]; intros s; simpl; [reflexivity |].
  destruct (body x s) as [s1 | e]; simpl; [apply IH | reflexivity].
Qed.

(** The body of the threshold loop does not read the score it is handed. *)
Lemma threshold_body_y_overwrites
      (lib : NumLib) (X_obs_new : matrix) (X_int_sample_new : vector)
      (z_new : list fnum) (nshuffles : nat) (threshold : Q)
      (local local' : option fnum) (g : rng) :
  threshold_body_y X_obs_new X_int_sample_new z_new nshuffles threshold
                   (local, g)
  = threshold_body_y X_obs_new X_int_sample_new z_new nshuffles threshold
                     (local', g).
Proof. reflexivity. Qed.

(** Hence what the loop leaves behind is what its last iteration computes
    from a fresh zero, whatever the earlier thresholds found. *)
Lemma threshold_loop_y_last
      (lib : NumLib) (X_obs_new : matrix) (X_int_sample_new : vector)
      (z_new : list fnum) (nshuffles : nat) (earlier : list Q) (last : Q)
      (g g1 : rng) (local : option fnum) :
  for_each earlier
    (threshold_body_y X_obs_new X_int_sample_new z_new nshuffles) (None, g)
  = Ok (local, g1) ->
  for_each (earlier ++ [last])
    (threshold_body_y X_obs_new X_int_sample_new z_new nshuffles) (None, g)
  = threshold_body_y X_obs_new X_int_sample_new z_new nshuffles last
                     (None, g1).
Proof.
  intros E. rewrite for_each_app, E. cbn [bind for_each].
  rewrite (threshold_body_y_overwrites _ _ _ _ _ _ local None).
  destruct (threshold_body_y _ _ _ _ _ _); reflexivity.
Qed.

(** With two variables the permutations are forced: a block of two indices
    that starts with the target leaves no choice. *)

Lemma perm_pair_from_head (a b : nat) (l : list nat) :
  Permutation l [a; b] -> hd_error l = Some a -> l = [a; b].
Proof.
  intros P H. pose proof (Permutation_length P) as L.
  destruct l as [| x [| y [| w l]]]; try discriminate L.
  simpl in H. injection H as ->. f_equal.
  apply Permutation_cons_inv in P. apply Permutation_length_1 in P.
  congruence.
Qed.

Lemma perm_single (a : nat) (l : list nat) : Permutation l [a] -> l = [a].
Proof.
  intros P. apply Permutation_sym in P.
  apply Permutation_length_1_inv in P. exact P.
Qed.

Lemma compute_permutations_low (g : rng) :
  exists g',
    compute_permutations z_ex (nth 0 thresholds_ex 0) 1 g
    = Ok ([[0; 1]; [1; 0]]%nat, g').
Proof.
  destruct (compute_permutations_blocks z_ex (nth 0 thresholds_ex 0) 1 g)
    as (ps & g' & E & B).
  exists g'. rewrite E. do 2 f_equal.
  replace (normal_indices z_ex (nth 0 thresholds_ex 0)) with (@nil nat) in B
    by (vm_compute; reflexivity).
  replace (aberrant_indices z_ex (nth 0 thresholds_ex 0))
    with [0; 1]%nat in B by (vm_compute; reflexivity).
  replace (targets z_ex (nth 0 thresholds_ex 0) 1)
    with [0; 1]%nat in B by (vm_compute; reflexivity).
  inversion B as [| t1 p1 ts1 ps1 B1 B' ]; subst.
  inversion B' as [| t2 p2 ts2 ps2 B2 B'' ]; subst.
  inversion B''; subst.
  destruct B1 as (ns1 & abl1 & -> & Pn1 & Pa1 & H1).
  destruct B2 as (ns2 & abl2 & -> & Pn2 & Pa2 & H2).
  apply Permutation_sym, Permutation_nil in Pn1.
  apply Permutation_sym, Permutation_nil in Pn2. subst ns1 ns2. simpl.
  rewrite (perm_pair_from_head 0 1 abl1 Pa1 H1).
  rewrite (perm_pair_from_head 1 0 abl2) ; [reflexivity | | exact H2].
  eapply perm_trans; [exact Pa2 | apply perm_swap].
Qed.

Lemma compute_permutations_high (g : rng) :
  exists g',
    compute_permutations z_ex (nth 1 thresholds_ex 0) 1 g
    = Ok ([[0; 1]]%nat, g').
Proof.
  destruct (compute_permutations_blocks z_ex (nth 1 thresholds_ex 0) 1 g)
    as (ps & g' & E & B).
  exists g'. rewrite E. do 2 f_equal.
  replace (normal_indices z_ex (nth 1 thresholds_ex 0)) with [0]%nat in B
    by (vm_compute; reflexivity).
  replace (aberrant_indices z_ex (nth 1 thresholds_ex 0))
    with [1]%nat in B by (vm_compute; reflexivity).
  replace (targets z_ex (nth 1 thresholds_ex 0) 1)
    with [1]%nat in B by (vm_compute; reflexivity).
  inversion B as [| t1 p1 ts1 ps1 B1 B' ]; subst.
  inversion B'; subst.
  destruct B1 as (ns1 & abl1 & -> & Pn1 & Pa1 & _).
  rewrite (perm_single 0 ns1 Pn1), (perm_single 1 abl1 Pa1). reflexivity.
Qed.

(** The task returns the score 0 on the example whatever the shuffles
    draw, and the sweep as section 4.7 words it finds [best_ex]. *)
Lemma task_on_example (g : rng) :
  process_y_idx_rcd 1 X_obs_ex [1; 6] 1 (Some Precision_ex) g
  = Ok (1%nat, Fin 0, 2%nat) /\
  exists g',
    best_margin_over_sweep X_obs_ex [1; 6] z_ex 1 thresholds_ex g
    = Ok (Fin best_ex, g').
Proof.
  destruct (compute_permutations_low g) as [g1 E1].
  destruct (compute_permutations_high g1) as [g2 E2].
  change (nth 0 thresholds_ex 0) with (hd 0 thresholds_ex) in E1.
  split.
  - unfold process_y_idx_rcd.
    replace (select_variables 1 X_obs_ex [1; 6] (Some Precision_ex))
      with (Ok (X_obs_ex, [1; 6], 2%nat)) by (vm_compute; reflexivity).
    cbn [bind].
    replace (zscore X_obs_ex [1; 6]) with (Ok z_ex)
      by (vm_compute; reflexivity).
    cbn [bind].
    replace (default_thresholds z_ex) with (Ok thresholds_ex)
      by (vm_compute; reflexivity).
    cbn [bind].
    change thresholds_ex
      with [nth 0 thresholds_ex 0; nth 1 thresholds_ex 0].
    cbn [for_each]. unfold threshold_body_y at 1. cbn [snd].
    change (nth 0 thresholds_ex 0) with (hd 0 thresholds_ex).
    rewrite E1. cbn [bind].
    match goal with
    | |- context [for_each [[0; 1]; [1; 0]]%nat ?body (Fin 0)] =>
        replace (for_each [[0; 1]; [1; 0]]%nat body (Fin 0))
          with (Ok (Fin best_ex)) by (vm_compute; reflexivity)
    end.
    cbn [bind]. unfold threshold_body_y. cbn [snd].
    rewrite E2. cbn [bind].
    match goal with
    | |- context [for_each [[0; 1]]%nat ?body (Fin 0)] =>
        replace (for_each [[0; 1]]%nat body (Fin 0))
          with (Ok (Fin 0)) by (vm_compute; reflexivity)
    end.
    reflexivity.
  - exists g2. unfold best_margin_over_sweep.
    change thresholds_ex
      with [nth 0 thresholds_ex 0; nth 1 thresholds_ex 0].
    cbn [for_each].
    change (nth 0 thresholds_ex 0) with (hd 0 thresholds_ex).
    rewrite E1. cbn [bind].
    match goal with
    | |- context [for_each [[0; 1]; [1; 0]]%nat ?body (Fin 0)] =>
        replace (for_each [[0; 1]; [1; 0]]%nat body (Fin 0))
          with (Ok (Fin best_ex)) by (vm_compute; reflexivity)
    end.
    cbn [bind]. rewrite E2. cbn [bind].
    match goal with
    | |- context [for_each [[0; 1]]%nat ?body (Fin best_ex)] =>
        replace (for_each [[0; 1]]%nat body (Fin best_ex))
          with (Ok (Fin best_ex)) by (vm_compute; reflexivity)
    end.
    reflexivity.
Qed.

(** C1, at the failing input.  Response 1 of [X_obs_ex] with interventional
    sample (1, 6), for every state of the random source: the z-scores are 1
    and 1.44 and two thresholds are kept, 0.1 and 1.1.  At threshold 0.1 the
    permutation (1, 0) whitens to (0.35, 1.2): the response is the arg-max
    with margin 17/7, which is the best margin of the whole sweep.  At
    threshold 1.1 the only permutation is (0, 1), which whitens to
    (1, 0.75): the response is not the arg-max.  [process_y_idx_rcd] returns
    the score 0, not 17/7. *)
Theorem task_forgets_earlier_thresholds (g : rng) :
  default_thresholds z_ex = Ok thresholds_ex /\
  Forall2 Qeq thresholds_ex [1 # 10; 11 # 10] /\
  root_cause_discovery X_obs_ex [1; 6] [1; 0]%nat = Ok Xtilde_ex /\
  Forall2 Qeq Xtilde_ex [35 # 100; 12 # 10] /\
  root_cause_discovery X_obs_ex [1; 6] [0; 1]%nat = Ok Xtilde_ex_identity /\
  Forall2 Qeq Xtilde_ex_identity [1; 3 # 4] /\
  best_ex == 17 # 7 /\
  (exists g',
      best_margin_over_sweep X_obs_ex [1; 6] z_ex 1 thresholds_ex g
      = Ok (Fin best_ex, g')) /\
  process_y_idx_rcd 1 X_obs_ex [1; 6] 1 (Some Precision_ex) g
  = Ok (1%nat, Fin 0, 2%nat).
Proof.
  destruct (task_on_example g) as [Htask Hbest].
  split; [vm_compute; reflexivity |].
  split; [repeat constructor |].
  split; [vm_compute; reflexivity |].
  split; [repeat constructor |].
  split; [vm_compute; reflexivity |].
  split; [repeat constructor |].
  split; [reflexivity |].
  split; assumption.
Qed.

(* ================================================================== *)
(** * Z-score estimator *)

Lemma nth_map_seq {A : Type} (f : nat -> A) (n i : nat) (d : A) :
  (i < n)%nat -> nth i (map f (seq 0 n)) d = f i.
Proof.
  intros L. rewrite (nth_indep _ d (f O)) by (rewrite length_map, length_seq; exact L).
  rewrite map_nth. rewrite seq_nth by exact L. reflexivity.
Qed.

Lemma nth_map_in_range {A B : Type} (f : A -> B) (l : list A) (i : nat)
      (da : A) (db : B) :
  (i < length l)%nat -> nth i (map f l) db = f (nth i l da).
Proof.
  intros L. rewrite (nth_indep _ db (f da)) by (rewrite length_map; exact L).
  apply map_nth.
Qed.

Lemma columns_nth (X : matrix) (i : nat) :
  (i < ncols X)%nat -> nth i (columns X) [] = column X i.
Proof. intros L. unfold columns. apply nth_map_seq. exact L. Qed.

Lemma column_length (X : matrix) (i : nat) : length (column X i) = nrows X.
Proof. unfold column, nrows. apply length_map. Qed.

(** Every entry of a z-score vector is the z-score of the corresponding
    value against the corresponding column. *)
Lemma zscore_vec_nth (lib : NumLib) (X_obs : matrix) (X_int : vector)
      (z : list fnum) (i : nat) :
  zscore_vec X_obs X_int = Ok z -> (i < length X_int)%nat ->
  nth i z NaN = zscore_entry (nth i X_int 0) (column X_obs i).
Proof.
  unfold zscore_vec. intros E L.
  apply bind_ok in E. destruct E as (u & A & E).
  apply py_assert_ok, Nat.eqb_eq in A. injection E as <-.
  rewrite nth_map_seq by exact L. unfold zscore_entry.
  rewrite !(nth_map_in_range _ (columns X_obs) i [] NaN)
    by (unfold columns; rewrite length_map, length_seq; lia).
  rewrite columns_nth by lia. reflexivity.
Qed.

Lemma zscore_entry_not_negative (lib : NumLib) (x : Q) (col : vector) :
  not_negative (zscore_entry x col).
Proof.
  unfold zscore_entry, not_negative.
  destruct (fdiv (fsub (Fin x) (np_mean col)) (np_std col)) as [q | | |];
    simpl; try reflexivity.
  unfold Qlt_bool. apply negb_false_iff. apply Qle_bool_iff.
  apply Qmult_le_0_compat; apply Qabs_nonneg.
Qed.

(** The two outcomes of [zscore_vec], as later proofs use them. *)
Lemma zscore_vec_outcome
        (lib : NumLib) (X_obs : matrix) (X_int : vector) :
  (ncols X_obs <> length X_int /\
   zscore_vec X_obs X_int = Raise AssertionError) \/
  (ncols X_obs = length X_int /\
   exists z, zscore_vec X_obs X_int = Ok z /\
             length z = length X_int /\ Forall not_negative z).
Proof.
  destruct (Nat.eq_dec (ncols X_obs) (length X_int)) as [E | N].
  - right. split; [exact E |].
    assert (R : exists z, zscore_vec X_obs X_int = Ok z).
    { unfold zscore_vec. rewrite E, Nat.eqb_refl. cbn [py_assert bind].
      eexists. reflexivity. }
    destruct R as [z Hz]. exists z. split; [exact Hz |].
    assert (L : length z = length X_int)
      by (apply (zscore_length lib X_obs X_int z Hz)).
    split; [exact L |].
    rewrite Forall_forall. intros a I.
    apply (In_nth _ _ NaN) in I. destruct I as (i & Li & <-).
    rewrite (zscore_vec_nth lib X_obs X_int z i Hz) by lia.
    apply zscore_entry_not_negative.
  - left. split; [exact N |].
    unfold zscore_vec. apply Nat.eqb_neq in N. rewrite N. reflexivity.
Qed.

(** X1.  [zscore_vec] raises [AssertionError] exactly when the matrix does
    not have as many columns as the vector has entries; otherwise it returns
    one z-score per variable, and no z-score is negative: each is a
    non-negative number, +infinity or NaN. *)
Theorem zscore_vec_shape_and_sign
        (lib : NumLib) (X_obs : matrix) (X_int : vector) :
  (ncols X_obs <> length X_int /\
   zscore_vec X_obs X_int = Raise AssertionError) \/
  (ncols X_obs = length X_int /\
   exists z, zscore_vec X_obs X_int = Ok z /\
             length z = length X_int /\ Forall not_negative z).
Proof. apply zscore_vec_outcome. Qed.

Lemma Qeq_bool_minus (x m : Q) : Qeq_bool (x - m) 0 = Qeq_bool x m.
Proof.
  destruct (Qeq_bool x m) eqn:E.
  - apply Qeq_bool_iff in E. apply Qeq_bool_iff. rewrite E. ring.
  - destruct (Qeq_bool (x - m) 0) eqn:F; [| reflexivity].
    apply Qeq_bool_iff in F.
    assert (G : x == m).
    { setoid_replace x with ((x - m) + m) by ring. rewrite F. ring. }
    apply Qeq_bool_iff in G. congruence.
Qed.

(** X2.  A variable whose observational standard deviation is zero does not
    make [zscore_vec] fail: its z-score is NaN when the interventional value
    equals the observational mean and +infinity otherwise. *)
Theorem zscore_zero_deviation
        (lib : NumLib) (X_obs : matrix) (X_int : vector) (z : list fnum)
        (i : nat) (s : Q) :
  zscore_vec X_obs X_int = Ok z ->
  (i < length X_int)%nat ->
  np_std (column X_obs i) = Fin s ->
  s == 0 ->
  nth i z NaN
  = if Qeq_bool (nth i X_int 0) (Qmean (column X_obs i)) then NaN else PInf.
Proof.
  intros Hz Li Hs Hzero.
  rewrite (zscore_vec_nth lib X_obs X_int z i Hz Li).
  unfold zscore_entry. rewrite Hs.
  assert (Hm : np_mean (column X_obs i) = Fin (Qmean (column X_obs i))).
  { unfold np_std in Hs. destruct (column X_obs i) as [| a col];
      [discriminate Hs | reflexivity]. }
  rewrite Hm. cbn [fsub fdiv].
  apply Qeq_bool_iff in Hzero. rewrite Hzero.
  rewrite Qeq_bool_minus.
  destruct (Qeq_bool (nth i X_int 0) (Qmean (column X_obs i)));
    [reflexivity |].
  destruct (Qsign_nonneg _); reflexivity.
Qed.

Lemma zscore_zero_deviation_witness :
  nth 2 z_three NaN
  = if Qeq_bool (nth 2 [1; 2; 7] 0) (Qmean (column X_obs_three 2))
    then NaN else PInf.
Proof.
  apply (zscore_zero_deviation
           exact_lib X_obs_three [1; 2; 7] z_three 2
           (match np_std (column X_obs_three 2) with
            | Fin s => s
            | _ => 1
            end)).
  - vm_compute. reflexivity.
  - simpl. lia.
  - vm_compute. reflexivity.
  - vm_compute. reflexivity.
Defined.

(** X3.  With fewer than two observations there is no sample standard
    deviation: [zscore_vec] still returns, and every z-score is NaN. *)
Theorem zscore_needs_two_observations
        (lib : NumLib) (X_obs : matrix) (X_int : vector) (z : list fnum) :
  (nrows X_obs <= 1)%nat ->
  zscore_vec X_obs X_int = Ok z ->
  Forall (fun a => a = NaN) z.
Proof.
  intros Hn Hz.
  pose proof (zscore_length lib X_obs X_int z Hz) as [L _].
  rewrite Forall_forall. intros a I.
  apply (In_nth _ _ NaN) in I. destruct I as (i & Li & <-).
  rewrite (zscore_vec_nth lib X_obs X_int z i Hz) by lia.
  unfold zscore_entry, np_std. rewrite column_length.
  destruct (nrows X_obs <=? 1)%nat eqn:E;
    [| apply Nat.leb_gt in E; lia].
  destruct (fsub _ _); reflexivity.
Qed.

Lemma zscore_needs_two_observations_witness :
  Forall (fun a => a = NaN) [NaN; NaN].
Proof.
  apply (zscore_needs_two_observations exact_lib [[1; 2]] [3; 4] [NaN; NaN]).
  - simpl. lia.
  - vm_compute. reflexivity.
Defined.

(** X4.  The two-dimensional branch of [zscore] agrees with the
    one-dimensional one row by row: on a rectangular batch with as many
    columns as the observational matrix it returns, for every interventional
    row, the vector [zscore_vec] returns for that row. *)
Theorem zscore_rows_agree_with_zscore_vec
        (lib : NumLib) (X_obs : matrix) (X_int : matrix) :
  Forall (fun row => length row = ncols X_int) X_int ->
  ncols X_obs = ncols X_int ->
  exists zs,
    zscore_rows X_obs X_int = Ok zs /\
    Forall2 (fun row z => zscore_vec X_obs row = Ok z) X_int zs.
Proof.
  intros R E. unfold zscore_rows. rewrite E, Nat.eqb_refl.
  cbn [py_assert bind]. eexists. split; [reflexivity |].
  remember (ncols X_int) as p eqn:Ep. clear Ep.
  induction R as [| row X Lrow _ IH]; simpl; [constructor |].
  constructor; [| exact IH].
  unfold zscore_vec. rewrite Lrow, E, Nat.eqb_refl. reflexivity.
Qed.

Lemma zscore_rows_agree_with_zscore_vec_witness :
  exists zs,
    zscore_rows X_obs_three [[1; 2; 7]; [3; 4; 5]] = Ok zs /\
    Forall2 (fun row z => zscore_vec X_obs_three row = Ok z)
            [[1; 2; 7]; [3; 4; 5]] zs.
Proof.
  apply (zscore_rows_agree_with_zscore_vec
           exact_lib X_obs_three [[1; 2; 7]; [3; 4; 5]]).
  - repeat constructor.
  - reflexivity.
Defined.

Lemma np_take_inv {A : Type} (v : list A) (d : A) (idx : list nat)
      (w : list A) :
  np_take v idx = Ok w ->
  Forall (fun j => (j < length v)%nat) idx /\
  w = map (fun j => nth j v d) idx.
Proof.
  intros E. apply map_result_Forall2 in E.
  induction E as [| j x idx w Hj _ [IHb IHw]].
  - split; [constructor | reflexivity].
  - apply (getitem_nth _ _ _ d) in Hj. destruct Hj as [Lj Nj].
    split; [constructor; assumption |]. simpl. congruence.
Qed.

(** X5.  Z-scores are computed variable by variable, so selecting columns
    and computing z-scores commute: the z-score vector of a reduced problem
    (the columns [sel] of the observational matrix with the entries [sel] of
    the interventional vector) is the z-score vector of the full problem
    read at [sel]. *)
Theorem zscore_commutes_with_selection
        (lib : NumLib) (X_obs : matrix) (X_int : vector) (sel : list nat)
        (X_obs_new : matrix) (X_int_sample_new : vector) (z : list fnum) :
  Forall (fun row => length row = ncols X_obs) X_obs ->
  take_columns X_obs sel = Ok X_obs_new ->
  np_take X_int sel = Ok X_int_sample_new ->
  zscore X_obs X_int = Ok z ->
  zscore X_obs_new X_int_sample_new = np_take z sel.
Proof.
  intros R Ht Hx Hz.
  destruct (zscore_length lib X_obs X_int z Hz) as [Lz Lp].
  destruct (np_take_inv X_int 0 sel _ Hx) as [B Ex].
  assert (B' : Forall (fun j => (j < ncols X_obs)%nat) sel)
    by (rewrite Lp; exact B).
  rewrite (take_columns_in_range X_obs (ncols X_obs) sel R B') in Ht.
  injection Ht as EX.
  rewrite (np_take_in_range z NaN sel) by (rewrite Lz; exact B).
  assert (Lxn : length X_int_sample_new = length sel)
    by (rewrite Ex; apply length_map).
  assert (Lc : ncols X_obs_new = length sel).
  { rewrite <- EX. unfold ncols. destruct X_obs as [| row X]; simpl.
    - destruct sel as [| j sel]; [reflexivity |].
      apply Forall_inv in B'. unfold ncols in B'. simpl in B'. lia.
    - apply length_map. }
  destruct (zscore_vec_outcome lib X_obs_new X_int_sample_new)
    as [[N _] | (_ & zn & Hzn & Lzn & _)]; [lia |].
  unfold zscore. rewrite Hzn. f_equal.
  apply (nth_ext _ _ NaN NaN); [rewrite length_map; lia |].
  intros i Li.
  rewrite (zscore_vec_nth lib _ _ zn i Hzn) by lia.
  rewrite (nth_map_in_range _ sel i O NaN) by lia.
  assert (Lj : (nth i sel O < length X_int)%nat).
  { rewrite Forall_forall in B. apply B. apply nth_In. lia. }
  rewrite (zscore_vec_nth lib X_obs X_int z _ Hz Lj).
  f_equal.
  - rewrite Ex.
    apply (nth_map_in_range (fun j => nth j X_int 0) sel i O 0). lia.
  - rewrite <- EX. unfold column. rewrite map_map. apply map_ext.
    intros row.
    apply (nth_map_in_range (fun j => nth j row 0) sel i O 0). lia.
Qed.

Lemma zscore_commutes_with_selection_witness :
  zscore [[5; 1]; [5; 3]; [5; 5]] [7; 1] = np_take z_three [2; 0]%nat.
Proof.
  apply (zscore_commutes_with_selection
           exact_lib X_obs_three [1; 2; 7] [2; 0]%nat
           [[5; 1]; [5; 3]; [5; 5]] [7; 1] z_three).
  - repeat constructor.
  - reflexivity.
  - reflexivity.
  - vm_compute. reflexivity.
Defined.

(* ================================================================== *)
(** * Variable selection: the response always comes last *)

Lemma where_from_sorted {A : Type} (f : A -> bool) (l : list A) :
  forall i, StronglySorted lt (where_from f i l).
Proof.
  induction l as [| x l IH]; intros i; simpl; [constructor |].
  destruct (f x); [| apply IH].
  constructor; [apply IH |].
  rewrite Forall_forall. intros j I. apply where_from_bound in I. lia.
Qed.

Lemma sorted_lt_NoDup (l : list nat) : StronglySorted lt l -> NoDup l.
Proof.
  induction 1 as [| a l S IH F]; constructor; [| exact IH].
  intros I. rewrite Forall_forall in F. specialize (F a I). lia.
Qed.

Lemma sorted_lt_map (f : nat -> nat) (l : list nat) :
  (forall a b, (a < b)%nat -> (f a < f b)%nat) ->
  StronglySorted lt l -> StronglySorted lt (map f l).
Proof.
  intros M. induction 1 as [| a l S IH F]; simpl; constructor; [exact IH |].
  rewrite Forall_forall in F |- *. intros b I. apply in_map_iff in I.
  destruct I as (c & <- & I). apply M. apply F. exact I.
Qed.

(** What [reduce_dimension] selects, as later proofs use it. *)
Lemma reduce_dimension_selection
        (lib : NumLib) (y_idx : nat) (X_obs : matrix) (X_int : vector)
        (X_obs_new : matrix) (X_int_sample_new : vector)
        (selected_idx : list nat) :
  reduce_dimension y_idx X_obs X_int
  = Ok (X_obs_new, X_int_sample_new, selected_idx) ->
  exists predictors,
    selected_idx = predictors ++ [y_idx] /\
    StronglySorted lt predictors /\
    ~ In y_idx predictors /\
    NoDup selected_idx /\
    take_columns X_obs selected_idx = Ok X_obs_new /\
    np_take X_int selected_idx = Ok X_int_sample_new /\
    from_end X_int_sample_new 1 = getitem X_int y_idx.
Proof.
  unfold reduce_dimension. intros E.
  apply bind_ok in E. destruct E as (y & _ & E).
  apply bind_ok in E. destruct E as (X & _ & E).
  apply bind_ok in E. destruct E as (beta_cv & _ & E).
  apply bind_ok in E. destruct E as (beta_final & _ & E).
  apply bind_ok in E. destruct E as (u & _ & E).
  apply bind_ok in E. destruct E as (Xn & Hcols & E).
  apply bind_ok in E. destruct E as (xn & Htake & E).
  injection E as <- <- <-.
  set (shift := fun idx => if (y_idx <=? idx)%nat then S idx else idx) in *.
  set (predictors :=
         map shift (np_where (fun b => negb (Qeq_bool b 0)) beta_final)) in *.
  assert (S : StronglySorted lt predictors).
  { apply sorted_lt_map; [| apply where_from_sorted].
    intros a b L. unfold shift.
    destruct (y_idx <=? a)%nat eqn:Ea, (y_idx <=? b)%nat eqn:Eb;
      try apply Nat.leb_le in Ea; try apply Nat.leb_gt in Ea;
      try apply Nat.leb_le in Eb; try apply Nat.leb_gt in Eb; lia. }
  assert (N : ~ In y_idx predictors).
  { intros I. apply in_map_iff in I. destruct I as (a & Ea & _).
    unfold shift in Ea. destruct (y_idx <=? a)%nat eqn:L;
      [apply Nat.leb_le in L | apply Nat.leb_gt in L]; lia. }
  exists predictors. split; [reflexivity |]. split; [exact S |].
  split; [exact N |]. split.
  - apply NoDup_app.
    + apply sorted_lt_NoDup. exact S.
    + constructor; [intros [] | constructor].
    + intros a Ia [<- | []]. exact (N Ia).
  - split; [exact Hcols |]. split; [exact Htake |].
    destruct (np_take_inv X_int 0 _ _ Htake) as [B Ex].
    assert (Ly : (y_idx < length X_int)%nat).
    { rewrite Forall_forall in B. apply B.
      apply in_or_app. right. left. reflexivity. }
    unfold getitem at 1. rewrite (nth_error_nth' X_int 0 Ly).
    rewrite Ex. rewrite map_app. simpl.
    rewrite (from_end_ok _ 1 0) by (rewrite length_app; simpl; lia).
    f_equal. rewrite length_app. simpl.
    rewrite app_nth2 by lia.
    replace (length (map _ predictors) + 1 - 1 - length (map _ predictors))%nat
      with O by lia.
    reflexivity.
Qed.

(** X6.  Whenever [reduce_dimension] returns, the selected indices are the
    predictors, in ascending order of their original index and without the
    response among them, followed by the response [y_idx]; no index occurs
    twice; the reduced matrix and vector are the columns and entries of the
    inputs at these indices, so the response is the last variable of the
    reduced problem. *)
Theorem reduce_dimension_response_last
        (lib : NumLib) (y_idx : nat) (X_obs : matrix) (X_int : vector)
        (X_obs_new : matrix) (X_int_sample_new : vector)
        (selected_idx : list nat) :
  reduce_dimension y_idx X_obs X_int
  = Ok (X_obs_new, X_int_sample_new, selected_idx) ->
  exists predictors,
    selected_idx = predictors ++ [y_idx] /\
    StronglySorted lt predictors /\
    ~ In y_idx predictors /\
    NoDup selected_idx /\
    take_columns X_obs selected_idx = Ok X_obs_new /\
    np_take X_int selected_idx = Ok X_int_sample_new /\
    from_end X_int_sample_new 1 = getitem X_int y_idx.
Proof. apply reduce_dimension_selection. Qed.

Lemma reduce_dimension_response_last_witness :
  exists predictors,
    [0; 2; 1]%nat = predictors ++ [1%nat] /\
    StronglySorted lt predictors /\
    ~ In 1%nat predictors /\
    NoDup [0; 2; 1]%nat /\
    take_columns X_obs_three [0; 2; 1]%nat
    = Ok [[1; 5; 2]; [3; 5; 6]; [5; 5; 4]] /\
    np_take [1; 2; 7] [0; 2; 1]%nat = Ok [1; 7; 2] /\
    from_end [1; 7; 2] 1 = getitem [1; 2; 7] 1.
Proof.
  apply (reduce_dimension_response_last
           dense_lasso_lib 1 X_obs_three [1; 2; 7]
           [[1; 5; 2]; [3; 5; 6]; [5; 5; 4]] [1; 7; 2] [0; 2; 1]%nat).
  vm_compute. reflexivity.
Defined.

Lemma filter_all {A : Type} (f : A -> bool) (l : list A) :
  Forall (fun x => f x = true) l -> filter f l = l.
Proof.
  induction 1 as [| x l Hx _ IH]; simpl; [reflexivity |].
  rewrite Hx, IH. reflexivity.
Qed.

(** Removing one position from a list without repetition removes the value
    found there, and nothing else. *)
Lemma remove_position_NoDup (l : list nat) :
  forall pos,
    NoDup l -> (pos < length l)%nat ->
    firstn pos l ++ skipn (S pos) l
    = filter (fun j => negb (j =? nth pos l O)%nat) l.
Proof.
  induction l as [| a l IH]; intros pos N L; simpl in L; [lia |].
  inversion N as [| ? ? Na Nl]; subst.
  destruct pos as [| pos]; simpl.
  - rewrite Nat.eqb_refl. simpl. symmetry. apply filter_all.
    rewrite Forall_forall. intros j I. apply negb_true_iff.
    apply Nat.eqb_neq. intros ->. exact (Na I).
  - assert (E : (a =? nth pos l O)%nat = false).
    { apply Nat.eqb_neq. intros ->. apply Na. apply nth_In. lia. }
    rewrite E. simpl. f_equal. apply IH; [exact Nl | lia].
Qed.

(** X7.  On the precision-matrix path the response must have a non-zero
    diagonal entry: if entry [y_idx] of column [y_idx] of the precision
    matrix is zero, the response is not among the non-zero positions, and
    [process_y_idx_rcd] stops with [IndexError] before any scoring. *)
Theorem precision_path_zero_diagonal
        (lib : NumLib) (y_idx : nat) (X_obs : matrix) (X_int : vector)
        (nshuffles : nat) (P : matrix) (g : rng) (col : vector) :
  map_result (fun row => getitem row y_idx) P = Ok col ->
  nth y_idx col 0 == 0 ->
  select_variables y_idx X_obs X_int (Some P) = Raise IndexError /\
  process_y_idx_rcd y_idx X_obs X_int nshuffles (Some P) g
  = Raise IndexError.
Proof.
  intros Hcol Hzero.
  assert (E : select_variables y_idx X_obs X_int (Some P) = Raise IndexError).
  { unfold select_variables. rewrite Hcol. cbn [bind].
    unfold np_where at 1.
    rewrite (where_from_none (Nat.eqb y_idx)); [reflexivity |].
    rewrite Forall_forall. intros j I.
    apply (np_where_In _ 0) in I. destruct I as [_ I].
    apply Nat.eqb_neq. intros <-.
    apply Qeq_bool_iff in Hzero. rewrite Hzero in I. discriminate I. }
  split; [exact E |]. unfold process_y_idx_rcd. rewrite E. reflexivity.
Qed.

Lemma precision_path_zero_diagonal_witness :
  select_variables 2 X_obs_three [1; 2; 7] (Some Precision_three)
  = Raise IndexError /\
  process_y_idx_rcd 2 X_obs_three [1; 2; 7] 1 (Some Precision_three) []
  = Raise IndexError.
Proof.
  apply (precision_path_zero_diagonal
           exact_lib 2 X_obs_three [1; 2; 7] 1 Precision_three []
           [0; 1; 0]); reflexivity.
Defined.

(** What the precision-matrix path selects, as later proofs use it. *)
Lemma precision_path_selection
        (lib : NumLib) (y_idx : nat) (X_obs : matrix) (X_int : vector)
        (P : matrix) (X_obs_new : matrix) (X_int_sample_new : vector)
        (select_len_y : nat) :
  select_variables y_idx X_obs X_int (Some P)
  = Ok (X_obs_new, X_int_sample_new, select_len_y) ->
  exists col,
    map_result (fun row => getitem row y_idx) P = Ok col /\
    ~ nth y_idx col 0 == 0 /\
    select_len_y = S (length (neighbours col y_idx)) /\
    take_columns X_obs (neighbours col y_idx ++ [y_idx]) = Ok X_obs_new /\
    np_take X_int (neighbours col y_idx ++ [y_idx]) = Ok X_int_sample_new /\
    from_end X_int_sample_new 1 = getitem X_int y_idx.
Proof.
  unfold select_variables. intros E.
  apply bind_ok in E. destruct E as (col & Hcol & E).
  apply bind_ok in E. destruct E as (pos & Hpos & E).
  apply bind_ok in E. destruct E as (MB & Hdel & E).
  apply bind_ok in E. destruct E as (Xn & Hcols & E).
  apply bind_ok in E. destruct E as (xn & Htake & E).
  injection E as <- <- <-.
  set (MB0 := np_where (fun e => negb (Qeq_bool e 0)) col) in *.
  assert (Ipos : In pos (np_where (Nat.eqb y_idx) MB0)).
  { apply (getitem_nth _ _ _ O) in Hpos. destruct Hpos as [L <-].
    apply nth_In. exact L. }
  apply (np_where_In _ O) in Ipos. destruct Ipos as [Lpos Epos].
  apply Nat.eqb_eq in Epos.
  assert (EMB : MB = neighbours col y_idx).
  { unfold np_delete in Hdel.
    destruct (pos <? length MB0)%nat; [| discriminate Hdel].
    injection Hdel as <-. unfold neighbours. fold MB0.
    rewrite Epos.
    apply (remove_position_NoDup MB0 pos);
      [apply (np_where_NoDup _ _ 0) | exact Lpos]. }
  subst MB. exists col. split; [exact Hcol |]. split.
  - intros Z. assert (I : In y_idx MB0) by (rewrite Epos; apply nth_In; exact Lpos).
    apply (np_where_In _ 0) in I. destruct I as [_ I].
    apply Qeq_bool_iff in Z. rewrite Z in I. discriminate I.
  - split; [rewrite length_app; simpl; lia |].
    split; [exact Hcols |]. split; [exact Htake |].
    destruct (np_take_inv X_int 0 _ _ Htake) as [B Ex].
    assert (Ly : (y_idx < length X_int)%nat).
    { rewrite Forall_forall in B. apply B.
      apply in_or_app. right. left. reflexivity. }
    unfold getitem at 1. rewrite (nth_error_nth' X_int 0 Ly).
    rewrite Ex. rewrite map_app. simpl.
    rewrite (from_end_ok _ 1 0) by (rewrite length_app; simpl; lia).
    f_equal. rewrite length_app. simpl.
    rewrite app_nth2 by lia.
    replace (length (map _ (neighbours col y_idx)) + 1 - 1
             - length (map _ (neighbours col y_idx)))%nat
      with O by lia.
    reflexivity.
Qed.

(** X8.  On the precision-matrix path, whenever the selection returns, the
    variables kept are the neighbours of the response (the positions of the
    non-zero entries of its column other than itself, in ascending order)
    followed by the response itself; the subset size reported is the number
    of neighbours plus one; and the response is the last variable of the
    reduced problem. *)
Theorem precision_path_response_last
        (lib : NumLib) (y_idx : nat) (X_obs : matrix) (X_int : vector)
        (P : matrix) (X_obs_new : matrix) (X_int_sample_new : vector)
        (select_len_y : nat) :
  select_variables y_idx X_obs X_int (Some P)
  = Ok (X_obs_new, X_int_sample_new, select_len_y) ->
  exists col,
    map_result (fun row => getitem row y_idx) P = Ok col /\
    ~ nth y_idx col 0 == 0 /\
    select_len_y = S (length (neighbours col y_idx)) /\
    take_columns X_obs (neighbours col y_idx ++ [y_idx]) = Ok X_obs_new /\
    np_take X_int (neighbours col y_idx ++ [y_idx]) = Ok X_int_sample_new /\
    from_end X_int_sample_new 1 = getitem X_int y_idx.
Proof. apply precision_path_selection. Qed.

Lemma precision_path_response_last_witness :
  exists col,
    map_result (fun row => getitem row 1%nat) Precision_three = Ok col /\
    ~ nth 1 col 0 == 0 /\
    3%nat = S (length (neighbours col 1)) /\
    take_columns X_obs_three (neighbours col 1 ++ [1%nat])
    = Ok [[1; 5; 2]; [3; 5; 6]; [5; 5; 4]] /\
    np_take [1; 2; 7] (neighbours col 1 ++ [1%nat]) = Ok [1; 7; 2] /\
    from_end [1; 7; 2] 1 = getitem [1; 2; 7] 1.
Proof.
  apply (precision_path_response_last
           exact_lib 1 X_obs_three [1; 2; 7] Precision_three
           [[1; 5; 2]; [3; 5; 6]; [5; 5; 4]] [1; 7; 2] 3).
  vm_compute. reflexivity.
Defined.

(* ================================================================== *)
(** * Threshold generator: which enumerated values are kept, and how many *)

Lemma thresholds_loop_subsequence (z_vec : list fnum) (raw : list Q) :
  forall c, subsequence (thresholds_loop z_vec raw c []) raw.
Proof.
  induction raw as [| a raw IH]; intros c; [constructor |].
  cbn [thresholds_loop].
  destruct (0 <? _)%Z; [| apply sub_skip; apply IH].
  destruct (negb _); [| apply sub_skip; apply IH].
  rewrite thresholds_loop_acc. simpl. apply sub_keep. apply IH.
Qed.

Lemma thresholds_loop_keeps_acc (z_vec : list fnum) (raw acc : list Q)
      (c : Z) (t : Q) :
  In t acc -> In t (thresholds_loop z_vec raw c acc).
Proof.
  intros I. rewrite thresholds_loop_acc. apply in_or_app. left. exact I.
Qed.

Lemma count_le_nonneg (z_vec : list fnum) (t : Q) :
  (0 <= count_le z_vec t)%Z.
Proof. unfold count_le, count_true. lia. Qed.

(** The deduplication loses no count: in every state of the loop in which
    [count_temp] is the count of a threshold already kept (or still -1),
    each remaining value that some z-score reaches ends up represented. *)
Lemma thresholds_loop_covers (z_vec : list fnum) (raw : list Q) :
  forall c acc,
    (c = (-1)%Z \/ exists t', In t' acc /\ count_le z_vec t' = c) ->
    forall t, In t raw -> (0 < count_ge z_vec t)%Z ->
      exists t', In t' (thresholds_loop z_vec raw c acc) /\
                 count_le z_vec t' = count_le z_vec t.
Proof.
  induction raw as [| a raw IH]; intros c acc Hc t I R; [destruct I |].
  cbn [thresholds_loop].
  fold (count_ge z_vec a). fold (count_le z_vec a).
  destruct (0 <? count_ge z_vec a)%Z eqn:Ra.
  - destruct (count_le z_vec a =? c)%Z eqn:Ec; cbn [negb].
    + apply Z.eqb_eq in Ec.
      destruct I as [<- | I]; [| exact (IH c acc Hc t I R)].
      destruct Hc as [Hc | (t' & It' & Et')].
      * pose proof (count_le_nonneg z_vec a). lia.
      * exists t'. split; [| congruence].
        apply thresholds_loop_keeps_acc. exact It'.
    + assert (Ia : In a (acc ++ [a]))
        by (apply in_or_app; right; left; reflexivity).
      destruct I as [<- | I].
      * exists a. split; [| reflexivity].
        apply thresholds_loop_keeps_acc. exact Ia.
      * apply (IH _ _); [| exact I | exact R].
        right. exists a. split; [exact Ia | reflexivity].
  - destruct I as [<- | I]; [| exact (IH c acc Hc t I R)].
    apply Z.ltb_ge in Ra. lia.
Qed.

(** X9.  Whatever values [np.arange] has enumerated, the loop of
    [get_aberrant_thresholds] returns some of them, in the order in which
    they were enumerated, and its deduplication loses no partition: every
    enumerated value that some z-score reaches has the same count of
    variables at or below it as one of the thresholds returned. *)
Theorem kept_thresholds_cover_enumerated
        (z_vec : list fnum) (thresholds_raw : list Q) :
  subsequence (thresholds_loop z_vec thresholds_raw (-1) []) thresholds_raw /\
  forall t, In t thresholds_raw -> (0 < count_ge z_vec t)%Z ->
    exists t', In t' (thresholds_loop z_vec thresholds_raw (-1) []) /\
               count_le z_vec t' = count_le z_vec t.
Proof.
  split; [apply thresholds_loop_subsequence |].
  apply thresholds_loop_covers. left. reflexivity.
Qed.

Lemma kept_thresholds_cover_enumerated_witness :
  exists t', In t' (thresholds_loop z_two raw_four (-1) []) /\
             count_le z_two t' = count_le z_two (11 # 10).
Proof.
  apply (proj2 (kept_thresholds_cover_enumerated z_two raw_four) (11 # 10)).
  - right. left. reflexivity.
  - reflexivity.
Defined.

(** X10.  However fine the step, at most [len(z) + 1] thresholds are kept:
    the counts of variables at or below the kept thresholds are pairwise
    different numbers between 0 and [len(z)]. *)
Theorem kept_thresholds_bounded
        (z_vec : list fnum) (thre_min thre_max thre_seq : Q)
        (kept : list Q) :
  0 < thre_seq ->
  get_aberrant_thresholds z_vec thre_min thre_max thre_seq = Ok kept ->
  (length kept <= length z_vec + 1)%nat.
Proof.
  intros P E.
  destruct (get_aberrant_thresholds_positive_step
              z_vec thre_min thre_max thre_seq P)
    as (kept' & E' & _ & _ & N & _).
  rewrite E in E'. injection E' as <-.
  set (cnt := fun t => length (filter (fun x => fle x (Fin t)) z_vec)).
  assert (Nc : NoDup (map cnt kept)).
  { eapply NoDup_map_coarser; [| exact N].
    intros a b H. unfold count_le, count_true. fold (cnt a). fold (cnt b).
    congruence. }
  assert (I : incl (map cnt kept) (seq 0 (length z_vec + 1))).
  { intros n In'. apply in_map_iff in In'. destruct In' as (t & <- & _).
    apply in_seq. unfold cnt.
    pose proof (filter_length_le (fun x => fle x (Fin t)) z_vec). lia. }
  pose proof (NoDup_incl_length Nc I) as L.
  rewrite length_map, length_seq in L. exact L.
Qed.

Lemma kept_thresholds_bounded_witness :
  (length thresholds_ex <= length z_ex + 1)%nat.
Proof.
  apply (kept_thresholds_bounded z_ex (1 # 10) 5 (2 # 10) thresholds_ex).
  - reflexivity.
  - vm_compute. reflexivity.
Defined.

(** X11.  Over a non-empty range with a positive step, no threshold is kept
    exactly when no z-score reaches the first threshold [thre_min]; as soon
    as one does, [thre_min] itself is kept, so the sweep has something to
    run on. *)
Theorem no_threshold_iff_all_below
        (z_vec : list fnum) (thre_min thre_max thre_seq : Q) :
  0 < thre_seq -> thre_min < thre_max ->
  (get_aberrant_thresholds z_vec thre_min thre_max thre_seq = Ok [] <->
   Forall (fun x => fge x (Fin thre_min) = false) z_vec).
Proof.
  intros P L. split; [| apply get_aberrant_thresholds_empty; exact P].
  intros E. rewrite Forall_forall. intros x Ix.
  destruct (fge x (Fin thre_min)) eqn:G; [exfalso | reflexivity].
  unfold get_aberrant_thresholds, np_arange in E.
  destruct (Qeq_bool thre_seq 0) eqn:Z.
  { apply Qeq_bool_iff in Z. rewrite Z in P. discriminate P. }
  cbn [bind] in E. injection E as E.
  assert (Hlen : exists k, Z.to_nat (Qceiling ((thre_max - thre_min)
                                               / thre_seq)) = S k).
  { assert (Hx : 0 < (thre_max - thre_min) / thre_seq).
    { apply Qlt_shift_div_l; [exact P |]. rewrite Qmult_0_l.
      unfold Qminus. rewrite <- (Qplus_opp_r thre_min).
      apply Qplus_lt_l. exact L. }
    pose proof (Qle_ceiling ((thre_max - thre_min) / thre_seq)) as C.
    assert (Hc : (0 < Qceiling ((thre_max - thre_min) / thre_seq))%Z).
    { rewrite Zlt_Qlt. apply Qlt_le_trans with (1 := Hx). exact C. }
    exists (Z.to_nat (Qceiling ((thre_max - thre_min) / thre_seq)) - 1)%nat.
    lia. }
  destruct Hlen as [k Hk]. rewrite Hk in E.
  cbn [seq map thresholds_loop] in E.
  set (t0 := thre_min + inject_Z (Z.of_nat 0) * thre_seq) in *.
  assert (G0 : fge x (Fin t0) = true).
  { apply (fge_fin_mono x t0 thre_min); [| exact G].
    unfold t0. simpl. rewrite Qmult_0_l, Qplus_0_r. apply Qle_refl. }
  assert (C0 : (0 < count_true (fun x => fge x (Fin t0)) z_vec)%Z).
  { unfold count_true.
    assert (I : In x (filter (fun x => fge x (Fin t0)) z_vec))
      by (apply filter_In; split; assumption).
    destruct (filter _ z_vec); [destruct I | simpl; lia]. }
  apply Z.ltb_lt in C0. rewrite C0 in E.
  assert (C1 : (count_true (fun x => fle x (Fin t0)) z_vec =? -1)%Z = false).
  { apply Z.eqb_neq. unfold count_true. lia. }
  rewrite C1 in E. cbn [negb] in E.
  rewrite thresholds_loop_acc in E. discriminate E.
Qed.

Lemma no_threshold_iff_all_below_witness :
  get_aberrant_thresholds z_at_mean (1 # 10) 5 (2 # 10) = Ok [] <->
  Forall (fun x => fge x (Fin (1 # 10)) = false) z_at_mean.
Proof.
  apply (no_threshold_iff_all_below z_at_mean (1 # 10) 5 (2 # 10));
    reflexivity.
Defined.

(* ================================================================== *)
(** * The margin statistic and the scores the sweeps leave *)

(** X12.  The margin statistic needs two whitened values: it raises
    [IndexError] exactly when the whitened vector has fewer than two
    entries, so a problem reduced to a single variable cannot be scored. *)
Theorem margin_statistic_needs_two_values (Xtilde : vector) :
  margin_statistic Xtilde = Raise IndexError <-> (length Xtilde < 2)%nat.
Proof.
  unfold margin_statistic.
  pose proof (py_sorted_length Xtilde) as L.
  destruct (py_sorted Xtilde) as [| a [| b l]] eqn:E; simpl in L.
  - split; [intros _; lia | intros _; reflexivity].
  - split; [intros _; lia | intros _; reflexivity].
  - rewrite (from_end_ok _ 1 0) by (simpl; lia). cbn [bind].
    rewrite (from_end_ok _ 2 0) by (simpl; lia). cbn [bind].
    split; [discriminate | lia].
Qed.

Lemma py_sorted_perm (v : vector) : Permutation (py_sorted v) v.
Proof.
  induction v as [| x v IH]; simpl; [constructor |].
  eapply perm_trans; [apply insert_sorted_perm | apply perm_skip, IH].
Qed.

(** X13.  On a whitened vector (non-negative entries) the margin statistic
    is never negative.  When the second-largest value is positive it is the
    finite number (largest - second) / second, and it is positive exactly
    when the largest value is strictly larger than the second: a tie for
    the largest value has margin zero, which never replaces a score. *)
Theorem margin_statistic_sign (Xtilde : vector) (m : fnum) :
  Forall (fun e => 0 <= e) Xtilde ->
  margin_statistic Xtilde = Ok m ->
  exists largest second,
    from_end (py_sorted Xtilde) 1 = Ok largest /\
    from_end (py_sorted Xtilde) 2 = Ok second /\
    0 <= second /\ second <= largest /\
    not_negative m /\
    (0 < second ->
     m = Fin ((largest - second) / second) /\
     (flt (Fin 0) m = true <-> second < largest)).
Proof.
  intros Hnn Hm. unfold margin_statistic in Hm.
  apply bind_ok in Hm. destruct Hm as (largest & Hl & Hm).
  apply bind_ok in Hm. destruct Hm as (second & Hs & Hm).
  injection Hm as <-.
  exists largest, second. split; [exact Hl |]. split; [exact Hs |].
  destruct (from_end_nth _ _ _ 0 Hl) as (_ & L1 & N1).
  destruct (from_end_nth _ _ _ 0 Hs) as (L2 & L2' & N2).
  assert (Hs0 : 0 <= second).
  { assert (I : In second Xtilde).
    { eapply Permutation_in; [apply py_sorted_perm |].
      rewrite <- N2. apply nth_In. exact L2'. }
    rewrite Forall_forall in Hnn. apply Hnn. exact I. }
  assert (Hle : second <= largest).
  { rewrite <- N1, <- N2.
    apply sorted_nth_le; [apply py_sorted_sorted | lia | lia]. }
  split; [exact Hs0 |]. split; [exact Hle |].
  assert (Hd : 0 <= largest - second).
  { unfold Qminus. rewrite <- (Qplus_opp_r second).
    apply Qplus_le_l. exact Hle. }
  split.
  - unfold not_negative. simpl.
    destruct (Qeq_bool second 0) eqn:Z.
    + destruct (Qeq_bool (largest - second) 0); [reflexivity |].
      unfold Qsign_nonneg. apply Qle_bool_iff in Hd. rewrite Hd. reflexivity.
    + simpl. unfold Qlt_bool. apply negb_false_iff. apply Qle_bool_iff.
      apply Qle_shift_div_l.
      * apply Qle_lt_or_eq in Hs0. destruct Hs0 as [H | H]; [exact H |].
        symmetry in H. apply Qeq_bool_iff in H. congruence.
      * rewrite Qmult_0_l. exact Hd.
  - intros Hpos. simpl.
    assert (Z : Qeq_bool second 0 = false).
    { destruct (Qeq_bool second 0) eqn:Z; [| reflexivity].
      apply Qeq_bool_iff in Z. rewrite Z in Hpos. discriminate Hpos. }
    rewrite Z. split; [reflexivity |].
    simpl. rewrite Qlt_bool_iff. split.
    + intros H.
      apply Qnot_le_lt. intros C.
      assert (E : largest - second <= 0).
      { unfold Qminus. rewrite <- (Qplus_opp_r second).
        apply Qplus_le_l. exact C. }
      assert (F : (largest - second) / second <= 0).
      { apply Qle_shift_div_r; [exact Hpos |]. rewrite Qmult_0_l. exact E. }
      exact (Qlt_not_le _ _ H F).
    + intros H. apply Qlt_shift_div_l; [exact Hpos |]. rewrite Qmult_0_l.
      unfold Qminus. rewrite <- (Qplus_opp_r second).
      apply Qplus_lt_l. exact H.
Qed.

Lemma margin_statistic_sign_witness :
  exists largest second,
    from_end (py_sorted [1; 3 # 4]) 1 = Ok largest /\
    from_end (py_sorted [1; 3 # 4]) 2 = Ok second /\
    0 <= second /\ second <= largest /\
    not_negative (Fin ((1 - (3 # 4)) / (3 # 4))) /\
    (0 < second ->
     Fin ((1 - (3 # 4)) / (3 # 4)) = Fin ((largest - second) / second) /\
     (flt (Fin 0) (Fin ((1 - (3 # 4)) / (3 # 4))) = true
      <-> second < largest)).
Proof.
  apply (margin_statistic_sign [1; 3 # 4] (Fin ((1 - (3 # 4)) / (3 # 4)))).
  - repeat constructor; discriminate.
  - reflexivity.
Defined.

Lemma flt_trans (a b c : fnum) :
  flt a b = true -> flt b c = true -> flt a c = true.
Proof.
  destruct a as [x | | |], b as [y | | |], c as [w | | |]; simpl;
    try discriminate; try reflexivity.
  rewrite !Qlt_bool_iff. apply Qlt_trans.
Qed.

Lemma kept_or_raised_refl (s : list fnum) : Forall2 kept_or_raised s s.
Proof. induction s; constructor; [left; reflexivity | assumption]. Qed.

Lemma kept_or_raised_trans (s1 s2 s3 : list fnum) :
  Forall2 kept_or_raised s1 s2 -> Forall2 kept_or_raised s2 s3 ->
  Forall2 kept_or_raised s1 s3.
Proof.
  intros F. revert s3. induction F as [| a b l1 l2 Hab _ IH]; intros s3 G.
  - inversion G. constructor.
  - inversion G as [| ? c ? l3 Hbc G']; subst. constructor; [| apply IH; exact G'].
    destruct Hab as [-> | Hab], Hbc as [-> | Hbc].
    + left; reflexivity.
    + right; exact Hbc.
    + right; exact Hab.
    + right. exact (flt_trans a b c Hab Hbc).
Qed.

Lemma setitem_raises (s : list fnum) :
  forall i cur q s',
    getitem s i = Ok cur -> flt cur q = true -> setitem s i q = Ok s' ->
    Forall2 kept_or_raised s s'.
Proof.
  induction s as [| a s IH]; intros i cur q s' Hg Hf Hs; [discriminate Hs |].
  destruct i as [| i]; simpl in Hs.
  - injection Hs as <-. unfold getitem in Hg. simpl in Hg. injection Hg as ->.
    constructor; [right; exact Hf | apply kept_or_raised_refl].
  - apply bind_ok in Hs. destruct Hs as (w & Hw & Hs). injection Hs as <-.
    constructor; [left; reflexivity |].
    apply (IH i cur q w); [| exact Hf | exact Hw].
    unfold getitem in *. simpl in Hg. exact Hg.
Qed.

(** One step of the main loop keeps every score or raises it. *)
Lemma record_margin_raises (Xtilde : vector) (s s' : list fnum) :
  record_margin Xtilde s = Ok s' -> Forall2 kept_or_raised s s'.
Proof.
  unfold record_margin. intros E.
  apply bind_ok in E. destruct E as (q & _ & E).
  apply bind_ok in E. destruct E as (i & _ & E).
  apply bind_ok in E. destruct E as (cur & Hg & E).
  destruct (flt cur q) eqn:F.
  - exact (setitem_raises s i cur q s' Hg F E).
  - injection E as <-. apply kept_or_raised_refl.
Qed.

Lemma for_each_preserves {A S : Type} (R : S -> S -> Prop)
      (body : A -> S -> result S) (xs : list A) :
  (forall s, R s s) ->
  (forall s1 s2 s3, R s1 s2 -> R s2 s3 -> R s1 s3) ->
  (forall x s s', In x xs -> body x s = Ok s' -> R s s') ->
  forall s s', for_each xs body s = Ok s' -> R s s'.
Proof.
  intros Rr Rt. induction xs as [| x xs IH]; intros Hb s s' E; simpl in E.
  - injection E as <-. apply Rr.
  - apply bind_ok in E. destruct E as (s1 & E1 & E).
    apply Rt with s1.
    + apply (Hb x); [left; reflexivity | exact E1].
    + apply IH; [| exact E]. intros y t t' I. apply Hb. right. exact I.
Qed.

Lemma zero_or_positive_raised (a b : fnum) :
  zero_or_positive a -> kept_or_raised a b -> zero_or_positive b.
Proof.
  intros [-> | Ha] [-> | Hb].
  - left; reflexivity.
  - right; exact Hb.
  - right; exact Ha.
  - right. exact (flt_trans _ _ _ Ha Hb).
Qed.

(** X14.  The sweep of [root_cause_discovery_main] only ever raises scores:
    whenever it returns, the score vector has kept its length and every
    entry is either the value it started from or a strictly larger one.
    Started from zeros, as the function does, it leaves every score exactly
    zero or strictly positive (+infinity included), never negative and
    never NaN, which is what the fallback's tests [== 0] and [!= 0] rely
    on. *)
Theorem main_sweep_raises_scores
        (lib : NumLib) (X_obs : matrix) (X_int : vector) (z : list fnum)
        (nshuffles : nat) (thresholds : list Q)
        (root_cause_score score' : list fnum) (g g' : rng) :
  main_sweep X_obs X_int z nshuffles thresholds root_cause_score g
  = Ok (score', g') ->
  length score' = length root_cause_score /\
  Forall2 kept_or_raised root_cause_score score' /\
  (Forall zero_or_positive root_cause_score ->
   Forall zero_or_positive score').
Proof.
  intros E.
  assert (F : Forall2 kept_or_raised root_cause_score score').
  { unfold main_sweep in E.
    apply (for_each_preserves
             (fun st st' : list fnum * rng =>
                Forall2 kept_or_raised (fst st) (fst st'))) in E.
    - exact E.
    - intros st. apply kept_or_raised_refl.
    - intros s1 s2 s3. apply kept_or_raised_trans.
    - intros threshold [sc gn] [sc' gn'] _ Hb. simpl.
      apply bind_ok in Hb. destruct Hb as ([ps g1] & _ & Hb).
      apply bind_ok in Hb. destruct Hb as (sc1 & Hin & Hb).
      injection Hb as <- <-.
      apply (for_each_preserves (Forall2 kept_or_raised)) in Hin.
      + exact Hin.
      + apply kept_or_raised_refl.
      + apply kept_or_raised_trans.
      + intros perm t t' _ Hp.
        apply bind_ok in Hp. destruct Hp as (Xt & _ & Hp).
        exact (record_margin_raises Xt t t' Hp). }
  split; [symmetry; exact (Forall2_length F) |]. split; [exact F |].
  intros Z. clear E. induction F as [| a b l l' Hab _ IH]; constructor.
  - apply (zero_or_positive_raised a b); [exact (Forall_inv Z) | exact Hab].
  - apply IH. exact (Forall_inv_tail Z).
Qed.

Lemma main_sweep_raises_scores_witness :
  length sweep_scores_ex = length (np_zeros 2) /\
  Forall2 kept_or_raised (np_zeros 2) sweep_scores_ex /\
  (Forall zero_or_positive (np_zeros 2) ->
   Forall zero_or_positive sweep_scores_ex).
Proof.
  apply (main_sweep_raises_scores
           exact_lib X_obs_ex [1; 6] z_ex 1 thresholds_ex
           (np_zeros 2) sweep_scores_ex [] []).
  vm_compute. reflexivity.
Defined.

(* ================================================================== *)
(** * What the per-variable task returns *)

Lemma record_margin_y_raises (Xtilde : vector) (s s' : fnum) :
  record_margin_y Xtilde s = Ok s' -> kept_or_raised s s'.
Proof.
  unfold record_margin_y. intros E.
  apply bind_ok in E. destruct E as (q & _ & E).
  apply bind_ok in E. destruct E as (i & _ & E).
  destruct (i =? length Xtilde - 1)%nat;
    [| injection E as <-; left; reflexivity].
  destruct (flt s q) eqn:F; injection E as <-;
    [right; exact F | left; reflexivity].
Qed.

Lemma kept_or_raised_chain (a b c : fnum) :
  kept_or_raised a b -> kept_or_raised b c -> kept_or_raised a c.
Proof.
  intros [-> | Hab] [-> | Hbc].
  - left; reflexivity.
  - right; exact Hbc.
  - right; exact Hab.
  - right. exact (flt_trans a b c Hab Hbc).
Qed.

Lemma threshold_body_y_score
      (lib : NumLib) (X_obs_new : matrix) (X_int_sample_new : vector)
      (z_new : list fnum) (nshuffles : nat) (threshold : Q)
      (st st' : option fnum * rng) :
  threshold_body_y X_obs_new X_int_sample_new z_new nshuffles threshold st
  = Ok st' ->
  exists s, fst st' = Some s /\ zero_or_positive s.
Proof.
  unfold threshold_body_y. intros E.
  apply bind_ok in E. destruct E as ([ps g1] & _ & E).
  apply bind_ok in E. destruct E as (s & Hin & E). injection E as <-.
  exists s. split; [reflexivity |].
  apply (for_each_preserves kept_or_raised) in Hin.
  - apply (zero_or_positive_raised (Fin 0) s); [left; reflexivity | exact Hin].
  - intros a. left. reflexivity.
  - apply kept_or_raised_chain.
  - intros perm t t' _ Hp.
    apply bind_ok in Hp. destruct Hp as (Xt & _ & Hp).
    exact (record_margin_y_raises Xt t t' Hp).
Qed.

Lemma select_variables_size
      (lib : NumLib) (y_idx : nat) (X_obs : matrix) (X_int : vector)
      (Precision_mat : option matrix) (X_obs_new : matrix)
      (X_int_sample_new : vector) (select_len_y : nat) :
  select_variables y_idx X_obs X_int Precision_mat
  = Ok (X_obs_new, X_int_sample_new, select_len_y) ->
  (1 <= select_len_y)%nat /\ length X_int_sample_new = select_len_y.
Proof.
  destruct Precision_mat as [P |]; intros E.
  - destruct (precision_path_selection lib _ _ _ _ _ _ _ E)
      as (col & _ & _ & L & _ & Ht & _).
    destruct (np_take_inv X_int 0 _ _ Ht) as [_ ->].
    rewrite length_map, length_app. simpl. lia.
  - unfold select_variables in E.
    apply bind_ok in E. destruct E as ([[Xn xn] sel] & Hr & E).
    injection E as <- <- <-.
    destruct (reduce_dimension_selection lib _ _ _ _ _ _ Hr)
      as (pre & -> & _ & _ & _ & _ & Ht & _).
    destruct (np_take_inv X_int 0 _ _ Ht) as [_ ->].
    rewrite length_map, length_app. simpl. lia.
Qed.

(** The triple [process_y_idx_rcd] returns, as later proofs use it. *)
Lemma process_y_idx_rcd_triple
        (lib : NumLib) (y_idx : nat) (X_obs : matrix) (X_int : vector)
        (nshuffles : nat) (Precision_mat : option matrix) (g : rng)
        (index : nat) (score : fnum) (select_len_y : nat) :
  process_y_idx_rcd y_idx X_obs X_int nshuffles Precision_mat g
  = Ok (index, score, select_len_y) ->
  index = y_idx /\ zero_or_positive score /\ (1 <= select_len_y)%nat.
Proof.
  intros E.
  pose proof (process_y_idx_rcd_index lib _ _ _ _ _ _ _ E) as Hi.
  simpl in Hi. split; [exact Hi |].
  unfold process_y_idx_rcd in E.
  apply bind_ok in E. destruct E as ([[Xn xn] len] & Hsel & E).
  apply bind_ok in E. destruct E as (z_new & _ & E).
  apply bind_ok in E. destruct E as (ts & _ & E).
  apply bind_ok in E. destruct E as ([loc g1] & Hloop & E).
  apply bind_ok in E. destruct E as (s & Hread & E).
  injection E as _ <- <-.
  split.
  - destruct loc as [v |]; [| discriminate Hread].
    injection Hread as ->.
    assert (HR : (forall w, fst (@None fnum, g) = Some w ->
                            zero_or_positive w) ->
                 forall w, fst (Some s, g1) = Some w -> zero_or_positive w).
    { refine (for_each_preserves
                (fun st st' : option fnum * rng =>
                   (forall w, fst st = Some w -> zero_or_positive w) ->
                   (forall w, fst st' = Some w -> zero_or_positive w))
                _ ts _ _ _ _ _ Hloop).
      - intros st H. exact H.
      - intros s1 s2 s3 H12 H23 H. apply H23. apply H12. exact H.
      - intros t st st' _ Hb _ w Hw.
        destruct (threshold_body_y_score lib _ _ _ _ _ _ _ Hb)
          as (u & Eu & Zu).
        rewrite Eu in Hw. injection Hw as <-. exact Zu. }
    apply HR; [intros w; discriminate | reflexivity].
  - apply (select_variables_size lib _ _ _ _ _ _ _ Hsel).
Qed.

(** X15.  Whenever [process_y_idx_rcd] returns a triple, its first
    component is the response index it was called with, its score is
    exactly zero or strictly positive (never negative, never NaN), and the
    subset size is at least one, the response itself being always
    selected. *)
Theorem process_y_idx_rcd_result
        (lib : NumLib) (y_idx : nat) (X_obs : matrix) (X_int : vector)
        (nshuffles : nat) (Precision_mat : option matrix) (g : rng)
        (index : nat) (score : fnum) (select_len_y : nat) :
  process_y_idx_rcd y_idx X_obs X_int nshuffles Precision_mat g
  = Ok (index, score, select_len_y) ->
  index = y_idx /\ zero_or_positive score /\ (1 <= select_len_y)%nat.
Proof. apply process_y_idx_rcd_triple. Qed.

Lemma process_y_idx_rcd_result_witness :
  1%nat = 1%nat /\ zero_or_positive (Fin 0) /\ (1 <= 2)%nat.
Proof.
  apply (process_y_idx_rcd_result
           exact_lib 1 X_obs_ex [1; 6] 1 (Some Precision_ex) []
           1 (Fin 0) 2).
  vm_compute. reflexivity.
Defined.

(* ================================================================== *)
(** * The whitening scorer refuses malformed input *)

(** X16.  [root_cause_discovery] raises [AssertionError], before touching
    the numerical library, whenever the interventional vector does not have
    one entry per column of the observational matrix, or [perm] is not a
    rearrangement of 0, ..., p-1 (an index repeated, missing or out of
    range). *)
Theorem root_cause_discovery_rejects_malformed_input
        (lib : NumLib) (X_obs : matrix) (X_int : vector) (perm : list nat) :
  ncols X_obs <> length X_int \/
  ~ Permutation perm (seq 0 (ncols X_obs)) ->
  root_cause_discovery X_obs X_int perm = Raise AssertionError.
Proof.
  intros H. unfold root_cause_discovery.
  destruct (ncols X_obs =? length X_int)%nat eqn:E; [| reflexivity].
  cbn [py_assert bind].
  destruct (list_eqb (sorted_nat perm) (seq 0 (ncols X_obs))) eqn:F;
    [| reflexivity].
  exfalso. apply Nat.eqb_eq in E. apply list_eqb_true in F.
  destruct H as [H | H]; [exact (H E) |].
  apply H. apply (valid_perm_facts perm _ F).
Qed.

Lemma root_cause_discovery_rejects_malformed_input_witness :
  root_cause_discovery X_obs_ex [1; 6] [0; 0]%nat = Raise AssertionError.
Proof.
  apply (root_cause_discovery_rejects_malformed_input
           exact_lib X_obs_ex [1; 6] [0; 0]%nat).
  right. intros P. apply Permutation_sym in P.
  apply Permutation_NoDup in P; [| apply seq_NoDup].
  inversion P as [| ? ? N _]. apply N. left. reflexivity.
Defined.

(* ================================================================== *)
(** * The fallback scores rank below every scored variable *)








(** X18.  The two copies of the fallback agree whenever some score is
    non-zero: on such scores the high-dimensional path assigns exactly what
    [root_cause_discovery_main] assigns.  They differ only when every score
    is zero. *)
Theorem fallbacks_agree_when_scored (z root_cause_score : list fnum) :
  np_where (fun s => fne s (Fin 0)) root_cause_score <> [] ->
  assign_fallback_highdim z root_cause_score
  = assign_fallback_main z root_cause_score.
Proof.
  intros H. unfold assign_fallback_highdim, assign_fallback_main.
  destruct (np_where (fun s => fne s (Fin 0)) root_cause_score) as [| j l];
    [contradiction |].
  destruct (negb _); reflexivity.
Qed.

Lemma fallbacks_agree_when_scored_witness :
  assign_fallback_highdim fallback_z_ex fallback_score_ex
  = assign_fallback_main fallback_z_ex fallback_score_ex.
Proof.
  apply (fallbacks_agree_when_scored fallback_z_ex fallback_score_ex).
  discriminate.
Defined.

(* ================================================================== *)
(** * High-dimensional orchestrator: shapes, subset sizes and failures *)

Lemma setitem_inv {A : Type} (v : list A) :
  forall i x w, setitem v i x = Ok w ->
                (i < length v)%nat /\ w = list_set v i x.
Proof.
  induction v as [| a v IH]; intros i x w E; [discriminate E |].
  destruct i as [| i]; simpl in E.
  - injection E as <-. split; [simpl; lia | reflexivity].
  - apply bind_ok in E. destruct E as (u & Hu & E). injection E as <-.
    destruct (IH i x u Hu) as [L ->]. split; [simpl; lia | reflexivity].
Qed.

Lemma np_put_length {A : Type} (idx : list nat) :
  forall (v xs w : list A), np_put v idx xs = Ok w -> length w = length v.
Proof.
  induction idx as [| i idx IH]; intros v xs w E; simpl in E.
  - injection E as <-. reflexivity.
  - destruct xs as [| x xs]; [injection E as <-; reflexivity |].
    apply bind_ok in E. destruct E as (u & Hu & E).
    apply setitem_inv in Hu. destruct Hu as [_ ->].
    rewrite (IH _ _ _ E). apply list_set_length.
Qed.

Lemma assign_fallback_highdim_length (z root_cause_score out : list fnum) :
  length z = length root_cause_score ->
  assign_fallback_highdim z root_cause_score = Ok out ->
  length out = length root_cause_score.
Proof.
  unfold assign_fallback_highdim. intros L E.
  destruct (negb _); [| injection E as <-; reflexivity].
  destruct (negb _); [| injection E as <-; exact L].
  apply bind_ok in E. destruct E as (sc & _ & E).
  apply bind_ok in E. destruct E as (m & _ & E).
  apply bind_ok in E. destruct E as (z2 & _ & E).
  apply bind_ok in E. destruct E as (zm & _ & E).
  exact (np_put_length _ _ _ _ E).
Qed.

(** The fan-in loop: positions that no result names keep their value, and
    with pairwise different indices each result's subset size ends up at
    its index. *)
Lemma collect_loop_spec (results : list (nat * fnum * nat)) :
  forall (sc : list fnum) (sl : list nat) sc' sl',
    for_each results
      (fun '(y_idx, score, len) '(root_cause_score, select_len) =>
         root_cause_score' <- setitem root_cause_score y_idx score ;;
         select_len' <- setitem select_len y_idx len ;;
         Ok (root_cause_score', select_len'))
      (sc, sl) = Ok (sc', sl') ->
    length sc' = length sc /\ length sl' = length sl /\
    (forall j, ~ In j (map (fun r => fst (fst r)) results) ->
               nth j sl' O = nth j sl O) /\
    (NoDup (map (fun r => fst (fst r)) results) ->
     forall r, In r results -> nth (fst (fst r)) sl' O = snd r).
Proof.
  induction results as [| [[y s] l] results IH]; intros sc sl sc' sl' E.
  - simpl in E. injection E as <- <-.
    repeat split; try reflexivity. intros _ r [].
  - simpl in E. apply bind_ok in E. destruct E as ([sc1 sl1] & E1 & E).
    apply bind_ok in E1. destruct E1 as (u & Hu & E1).
    apply bind_ok in E1. destruct E1 as (w & Hw & E1).
    injection E1 as <- <-.
    apply setitem_inv in Hu. destruct Hu as [Lu ->].
    apply setitem_inv in Hw. destruct Hw as [Lw ->].
    destruct (IH _ _ _ _ E) as (L1 & L2 & Hout & Hin).
    rewrite list_set_length in L1. rewrite list_set_length in L2.
    split; [exact L1 |]. split; [exact L2 |]. split.
    + intros j Nj. simpl in Nj. rewrite Hout by tauto.
      apply nth_list_set_other. tauto.
    + intros N r [<- | Ir].
      * simpl in N. inversion N as [| ? ? Ny N']; subst. simpl.
        rewrite (Hout y Ny). rewrite nth_list_set by exact Lw.
        rewrite Nat.eqb_refl. reflexivity.
      * simpl in N. inversion N as [| ? ? Ny N']; subst.
        apply Hin; assumption.
Qed.

Lemma Forall2_In_l {A B : Type} (R : A -> B -> Prop) (l : list A)
      (l' : list B) (x : A) :
  Forall2 R l l' -> In x l -> exists y, In y l' /\ R x y.
Proof.
  induction 1 as [| a b l l' Rab _ IH]; intros I; [destruct I |].
  destruct I as [<- | I].
  - exists b. split; [left; reflexivity | exact Rab].
  - destruct (IH I) as (y & Iy & Ry). exists y. split; [right; exact Iy | exact Ry].
Qed.

(** X19.  Whenever [root_cause_discovery_highdim_parallel] returns, both
    vectors it returns have one entry per variable; the subset size is zero
    for every variable that was not a candidate response (z-score not above
    the candidacy threshold) and at least one for every candidate. *)
Theorem highdim_output_shape
        (lib : NumLib) (X_obs : matrix) (X_int : vector)
        (y_idx_z_threshold : Q) (nshuffles : nat)
        (Precision_mat : option matrix) (worker_rng : nat -> rng)
        (scores : list fnum) (select_len : list nat) :
  root_cause_discovery_highdim_parallel
    X_obs X_int y_idx_z_threshold nshuffles Precision_mat worker_rng
  = Ok (scores, select_len) ->
  length scores = ncols X_obs /\
  length select_len = ncols X_obs /\
  exists z,
    zscore X_obs X_int = Ok z /\ length z = ncols X_obs /\
    forall i, (i < ncols X_obs)%nat ->
      (fgt (nth i z NaN) (Fin y_idx_z_threshold) = false ->
       nth i select_len O = O) /\
      (fgt (nth i z NaN) (Fin y_idx_z_threshold) = true ->
       (1 <= nth i select_len O)%nat).
Proof.
  unfold root_cause_discovery_highdim_parallel. intros E.
  apply bind_ok in E. destruct E as (z & Hz & E).
  apply bind_ok in E. destruct E as (results & Hres & E).
  apply bind_ok in E. destruct E as ([sc sl] & Hcol & E).
  apply bind_ok in E. destruct E as (out & Hfb & E).
  injection E as <- <-.
  destruct (zscore_length lib _ _ _ Hz) as [Lz Lp].
  unfold collect_results in Hcol.
  destruct (collect_loop_spec results _ _ _ _ Hcol)
    as (Lsc & Lsl & Hout & Hin).
  unfold np_zeros in Lsc. rewrite repeat_length in Lsc, Lsl.
  apply map_result_Forall2 in Hres.
  set (cand := np_where (fun x => fgt x (Fin y_idx_z_threshold)) z) in *.
  assert (Eidx : map (fun r => fst (fst r)) results = cand).
  { clear - Hres. induction Hres as [| y r ys rs Hy _ IH]; simpl;
      [reflexivity |].
    rewrite IH. rewrite (process_y_idx_rcd_index _ _ _ _ _ _ _ _ Hy).
    reflexivity. }
  split.
  - pose proof (assign_fallback_highdim_length z sc out ltac:(lia) Hfb) as Lo.
    lia.
  - split; [exact Lsl |]. exists z. split; [exact Hz |].
    split; [lia |]. intros i Li. split.
    + intros Hn. rewrite Hout.
      * apply nth_repeat.
      * rewrite Eidx. intros I. apply (np_where_In _ NaN) in I.
        destruct I as [_ I]. congruence.
    + intros Hc.
      assert (I : In i cand) by (apply (np_where_In _ NaN); split; [lia | exact Hc]).
      destruct (Forall2_In_l _ _ _ i Hres I) as ([[y s] l] & Ir & Hr).
      destruct (process_y_idx_rcd_triple lib _ _ _ _ _ _ _ _ _ Hr)
        as (Ey & _ & Ll).
      subst y.
      assert (N : NoDup (map (fun r : nat * fnum * nat => fst (fst r))
                             results))
        by (rewrite Eidx; apply (np_where_NoDup _ _ NaN)).
      pose proof (Hin N (i, s, l) Ir) as Hl. simpl in Hl.
      rewrite Hl. exact Ll.
Qed.

Lemma highdim_output_shape_witness :
  length z_ex = ncols X_obs_ex /\
  length [O; 2%nat] = ncols X_obs_ex /\
  exists z,
    zscore X_obs_ex [1; 6] = Ok z /\ length z = ncols X_obs_ex /\
    forall i, (i < ncols X_obs_ex)%nat ->
      (fgt (nth i z NaN) (Fin (12 # 10)) = false ->
       nth i [O; 2%nat] O = O) /\
      (fgt (nth i z NaN) (Fin (12 # 10)) = true ->
       (1 <= nth i [O; 2%nat] O)%nat).
Proof.
  apply (highdim_output_shape
           exact_lib X_obs_ex [1; 6] (12 # 10) 1 (Some Precision_ex)
           (fun _ => []) z_ex [O; 2%nat]).
  vm_compute. reflexivity.
Defined.

Lemma map_result_raises {A B : Type} (f : A -> result B) (xs : list A)
      (x : A) (e : exn) :
  In x xs -> f x = Raise e -> exists e', map_result f xs = Raise e'.
Proof.
  induction xs as [| a xs IH]; intros I E; [destruct I |]. simpl.
  destruct (f a) as [b | e0] eqn:Fa; [| exists e0; reflexivity].
  destruct I as [-> | I]; [congruence |].
  destruct (IH I E) as [e' He']. exists e'. cbn [bind]. rewrite He'.
  reflexivity.
Qed.

(** X20.  The orchestrator does not isolate a failing task: if the task of
    any candidate response raises, [root_cause_discovery_highdim_parallel]
    raises as well and returns no scores, whatever the other tasks found. *)
Theorem highdim_task_failure_propagates
        (lib : NumLib) (X_obs : matrix) (X_int : vector)
        (y_idx_z_threshold : Q) (nshuffles : nat)
        (Precision_mat : option matrix) (worker_rng : nat -> rng)
        (z : list fnum) (y_idx : nat) (e : exn) :
  zscore X_obs X_int = Ok z ->
  In y_idx (np_where (fun x => fgt x (Fin y_idx_z_threshold)) z) ->
  process_y_idx_rcd y_idx X_obs X_int nshuffles Precision_mat
                    (worker_rng y_idx) = Raise e ->
  exists e',
    root_cause_discovery_highdim_parallel
      X_obs X_int y_idx_z_threshold nshuffles Precision_mat worker_rng
    = Raise e'.
Proof.
  intros Hz I E. unfold root_cause_discovery_highdim_parallel.
  rewrite Hz. cbn [bind].
  destruct (map_result_raises
              (fun y => process_y_idx_rcd y X_obs X_int nshuffles
                                          Precision_mat (worker_rng y))
              _ y_idx e I E) as [e' He'].
  exists e'. rewrite He'. reflexivity.
Qed.

Lemma highdim_task_failure_propagates_witness :
  exists e',
    root_cause_discovery_highdim_parallel
      X_obs_three [1; 2; 7] (15 # 10) 1 (Some Precision_three) (fun _ => [])
    = Raise e'.
Proof.
  apply (highdim_task_failure_propagates
           exact_lib X_obs_three [1; 2; 7] (15 # 10) 1 (Some Precision_three)
           (fun _ => []) z_three 2 IndexError).
  - vm_compute. reflexivity.
  - vm_compute. left. reflexivity.
  - vm_compute. reflexivity.
Defined.

(* ================================================================== *)
(** * Ranking by a causal order *)

Lemma insert_fkey_perm (x : fnum * nat) (l : list (fnum * nat)) :
  Permutation (insert_fkey x l) (x :: l).
Proof.
  induction l as [| y l IH]; simpl; [apply Permutation_refl |].
  destruct (sort_lt (fst y) (fst x)); [| apply Permutation_refl].
  eapply perm_trans; [apply perm_skip, IH | apply perm_swap].
Qed.

Lemma sort_fkeys_perm (l : list (fnum * nat)) :
  Permutation (fold_right insert_fkey [] l) l.
Proof.
  induction l as [| x l IH]; simpl; [constructor |].
  eapply perm_trans; [apply insert_fkey_perm | apply perm_skip, IH].
Qed.

Lemma map_snd_combine_seq {A : Type} (l : list A) (s : nat) :
  map snd (combine l (seq s (length l))) = seq s (length l).
Proof.
  revert s. induction l as [| a l IH]; intros s; simpl; [reflexivity |].
  rewrite IH. reflexivity.
Qed.

Lemma np_argsort_perm (v : list fnum) :
  Permutation (np_argsort v) (seq 0 (length v)).
Proof.
  unfold np_argsort. rewrite <- (map_snd_combine_seq v 0) at 2.
  apply Permutation_map. apply sort_fkeys_perm.
Qed.

Lemma sort_le_trans (a b c : fnum) :
  sort_le a b -> sort_le b c -> sort_le a c.
Proof.
  unfold sort_le.
  destruct a as [x | | |], b as [y | | |], c as [w | | |]; simpl;
    try discriminate; try reflexivity.
  unfold Qlt_bool. rewrite !negb_false_iff, !Qle_bool_iff.
  intros H1 H2. apply Qle_trans with y; assumption.
Qed.

Lemma sort_le_total (a b : fnum) : sort_lt a b = true -> sort_le a b.
Proof.
  unfold sort_le.
  destruct a as [x | | |], b as [y | | |]; simpl;
    try discriminate; try reflexivity.
  unfold Qlt_bool. rewrite negb_true_iff, negb_false_iff.
  intros H. apply Qle_bool_iff. apply Qlt_le_weak. apply Qnot_le_lt.
  intros C. apply Qle_bool_iff in C. congruence.
Qed.

Lemma insert_fkey_sorted (x : fnum * nat) (l : list (fnum * nat)) :
  StronglySorted (fun a b => sort_le (fst a) (fst b)) l ->
  StronglySorted (fun a b => sort_le (fst a) (fst b)) (insert_fkey x l).
Proof.
  induction 1 as [| y l S IH F]; simpl.
  - constructor; constructor.
  - destruct (sort_lt (fst y) (fst x)) eqn:E.
    + constructor; [exact IH |].
      eapply Permutation_Forall;
        [apply Permutation_sym, insert_fkey_perm |].
      constructor; [apply sort_le_total; exact E | exact F].
    + constructor; [constructor; assumption |].
      constructor; [exact E |].
      eapply Forall_impl; [| exact F]. simpl. intros a Ha.
      apply (sort_le_trans _ (fst y)); [exact E | exact Ha].
Qed.

Lemma sort_fkeys_sorted (l : list (fnum * nat)) :
  StronglySorted (fun a b => sort_le (fst a) (fst b))
                 (fold_right insert_fkey [] l).
Proof.
  induction l as [| x l IH]; simpl; [constructor |].
  apply insert_fkey_sorted. exact IH.
Qed.

Lemma in_combine_seq_gen {A : Type} (d : A) (l : list A) :
  forall s a b,
    In (a, b) (combine l (seq s (length l))) ->
    (s <= b < s + length l)%nat /\ nth (b - s) l d = a.
Proof.
  induction l as [| x l IH]; intros s a b; simpl; [intros [] |].
  intros [E | I].
  - injection E as -> ->. rewrite Nat.sub_diag. split; [lia | reflexivity].
  - destruct (IH (S s) a b I) as [B N]. split; [lia |].
    replace (b - s)%nat with (S (b - S s)) by lia. exact N.
Qed.

(** [np.argsort] lists the positions by ascending value. *)
Lemma np_argsort_sorted (v : list fnum) :
  StronglySorted (fun i j => sort_le (nth i v NaN) (nth j v NaN))
                 (np_argsort v).
Proof.
  unfold np_argsort.
  set (S := fold_right insert_fkey [] (combine v (seq 0 (length v)))).
  assert (Hs : StronglySorted (fun a b => sort_le (fst a) (fst b)) S)
    by apply sort_fkeys_sorted.
  assert (Hk : Forall (fun a => fst a = nth (snd a) v NaN) S).
  { rewrite Forall_forall. intros [a b] I.
    eapply Permutation_in in I; [| apply sort_fkeys_perm].
    apply (in_combine_seq_gen NaN) in I. destruct I as [_ I].
    rewrite Nat.sub_0_r in I. simpl. symmetry. exact I. }
  clearbody S. induction Hs as [| a l Sl IH F]; simpl; constructor.
  - apply IH. exact (Forall_inv_tail Hk).
  - pose proof (Forall_inv Hk) as Ka. pose proof (Forall_inv_tail Hk) as Kl.
    rewrite Forall_forall in F, Kl |- *. intros j I.
    apply in_map_iff in I. destruct I as (b & <- & Ib).
    rewrite <- Ka, <- (Kl b Ib). apply F. exact Ib.
Qed.

Lemma Permutation_filter_same {A : Type} (f : A -> bool) (l l' : list A) :
  Permutation l l' -> Permutation (filter f l) (filter f l').
Proof.
  induction 1 as [| x l l' _ IH | x y l | l l' l'' _ IH1 _ IH2]; simpl.
  - constructor.
  - destruct (f x); [apply perm_skip |]; exact IH.
  - destruct (f x), (f y); try apply Permutation_refl. apply perm_swap.
  - eapply perm_trans; eassumption.
Qed.

Lemma abe_indices_filter (Zscores : list fnum) (thre_abe : fnum) :
  abe_indices Zscores thre_abe
  = filter (fun i => fge (nth i Zscores NaN) thre_abe)
           (seq 0 (length Zscores)).
Proof. unfold abe_indices. apply (np_where_filter _ NaN). Qed.

Lemma existsb_abe (Zscores : list fnum) (thre_abe : fnum) (i : nat) :
  (i < length Zscores)%nat ->
  existsb (Nat.eqb i) (abe_indices Zscores thre_abe)
  = fge (nth i Zscores NaN) thre_abe.
Proof.
  intros L. destruct (fge (nth i Zscores NaN) thre_abe) eqn:E.
  - apply existsb_exists. exists i. split; [| apply Nat.eqb_refl].
    apply (np_where_In _ NaN). split; assumption.
  - destruct (existsb _ _) eqn:X; [| reflexivity].
    apply existsb_exists in X. destruct X as (j & Ij & Ej).
    apply Nat.eqb_eq in Ej. subst j.
    apply (np_where_In _ NaN) in Ij. destruct Ij as [_ Ij]. congruence.
Qed.

Lemma remain_indices_filter (Zscores : list fnum) (thre_abe : fnum) :
  remain_indices Zscores thre_abe
  = filter (fun i => negb (fge (nth i Zscores NaN) thre_abe))
           (seq 0 (length Zscores)).
Proof.
  unfold remain_indices. apply filter_ext_in. intros i I.
  apply in_seq in I. rewrite existsb_abe by lia. reflexivity.
Qed.

(** What [get_rank_LiNGAM_one_thre] returns, written out: it never
    raises. *)
Lemma get_rank_LiNGAM_one_thre_value
      (Zscores : list fnum) (thre_abe : fnum) (causal_order_lingam : list nat) :
  let remain := remain_indices Zscores thre_abe in
  get_rank_LiNGAM_one_thre Zscores thre_abe causal_order_lingam
  = Ok (filter (fun i => existsb (Nat.eqb i) (abe_indices Zscores thre_abe))
               causal_order_lingam
        ++ map (fun k => nth k remain O)
               (np_argsort
                  (map fneg (map (fun j => nth j Zscores NaN) remain)))).
Proof.
  intros remain. unfold get_rank_LiNGAM_one_thre.
  fold (abe_indices Zscores thre_abe). fold (remain_indices Zscores thre_abe).
  fold remain.
  assert (B : Forall (fun j => (j < length Zscores)%nat) remain).
  { rewrite Forall_forall. intros j I. unfold remain, remain_indices in I.
    apply filter_In in I. destruct I as [I _]. apply in_seq in I. lia. }
  rewrite (np_take_in_range Zscores NaN remain B). cbn [bind].
  rewrite (np_take_in_range remain O).
  - reflexivity.
  - eapply Permutation_Forall;
      [apply Permutation_sym, np_argsort_perm |].
    rewrite !length_map. rewrite Forall_forall. intros k I.
    apply in_seq in I. lia.
Qed.

(** X21.  For every z-score vector, threshold and causal order that lists
    each of the p variables once, [get_rank_LiNGAM_one_thre] returns (it
    never raises) a ranking that lists each of the p variables exactly
    once. *)
Theorem get_rank_LiNGAM_one_thre_is_ranking
        (Zscores : list fnum) (thre_abe : fnum)
        (causal_order_lingam : list nat) :
  Permutation causal_order_lingam (seq 0 (length Zscores)) ->
  exists Lin_rank,
    get_rank_LiNGAM_one_thre Zscores thre_abe causal_order_lingam
    = Ok Lin_rank /\
    Permutation Lin_rank (seq 0 (length Zscores)).
Proof.
  intros P. eexists. split; [apply get_rank_LiNGAM_one_thre_value |].
  set (remain := remain_indices Zscores thre_abe).
  set (f := fun i => fge (nth i Zscores NaN) thre_abe).
  eapply perm_trans; [| apply (filter_split_perm (fun i => negb (f i)))].
  apply Permutation_app.
  - eapply perm_trans; [apply Permutation_filter_same; exact P |].
    apply Permutation_refl'. apply filter_ext_in. intros i I.
    apply in_seq in I. rewrite existsb_abe by lia.
    unfold f. rewrite negb_involutive. reflexivity.
  - eapply perm_trans.
    + apply Permutation_map. apply np_argsort_perm.
    + rewrite !length_map. rewrite map_nth_seq.
      unfold remain. rewrite remain_indices_filter.
      apply Permutation_refl.
Qed.

Lemma get_rank_LiNGAM_one_thre_is_ranking_witness :
  exists Lin_rank,
    get_rank_LiNGAM_one_thre fallback_z_ex (Fin 2) [2; 0; 1]%nat
    = Ok Lin_rank /\
    Permutation Lin_rank (seq 0 (length fallback_z_ex)).
Proof.
  apply (get_rank_LiNGAM_one_thre_is_ranking
           fallback_z_ex (Fin 2) [2; 0; 1]%nat).
  apply Permutation_sym. simpl.
  apply (Permutation_cons_app [2%nat] [1%nat] O). apply perm_swap.
Defined.

Lemma StronglySorted_map_in {A B : Type} (R : A -> A -> Prop)
      (R' : B -> B -> Prop) (f : A -> B) (l : list A) :
  (forall a b, In a l -> In b l -> R a b -> R' (f a) (f b)) ->
  StronglySorted R l -> StronglySorted R' (map f l).
Proof.
  intros H S. induction S as [| a l S IH F]; simpl; constructor.
  - apply IH. intros x y Ix Iy. apply H; right; assumption.
  - rewrite Forall_forall in F |- *. intros y I.
    apply in_map_iff in I. destruct I as (b & <- & Ib).
    apply H; [left; reflexivity | right; exact Ib | apply F; exact Ib].
Qed.

Lemma existsb_abe_any (Zscores : list fnum) (thre_abe : fnum) (i : nat) :
  existsb (Nat.eqb i) (abe_indices Zscores thre_abe)
  = fge (nth i Zscores NaN) thre_abe.
Proof.
  destruct (Nat.lt_ge_cases i (length Zscores)) as [L | G].
  - apply existsb_abe. exact L.
  - rewrite (nth_overflow _ _ G).
    replace (fge NaN thre_abe) with false by (destruct thre_abe; reflexivity).
    destruct (existsb _ _) eqn:X; [| reflexivity].
    apply existsb_exists in X. destruct X as (j & Ij & Ej).
    apply Nat.eqb_eq in Ej. subst j.
    apply (np_where_In _ NaN) in Ij. lia.
Qed.

(** Between finite z-scores, [ranks_before] is the order "not smaller". *)
Lemma ranks_before_finite (Zscores : list fnum) (i j : nat) (a b : Q) :
  nth i Zscores NaN = Fin a -> nth j Zscores NaN = Fin b ->
  (ranks_before Zscores i j <-> b <= a).
Proof.
  intros Ei Ej. unfold ranks_before. rewrite Ei, Ej. simpl.
  unfold Qlt_bool. rewrite negb_false_iff, Qle_bool_iff.
  split; intros H; [apply Qopp_le_compat in H; rewrite !Qopp_involutive in H
                   | apply Qopp_le_compat]; exact H.
Qed.

(** X22.  The ranking of [get_rank_LiNGAM_one_thre] is made of two
    blocks: first the variables whose z-score reaches the threshold, in
    the order in which the causal order lists them; then the variables
    whose z-score does not reach it, by decreasing z-score (NaN last). *)
Theorem get_rank_LiNGAM_one_thre_blocks
        (Zscores : list fnum) (thre_abe : fnum)
        (causal_order_lingam : list nat) :
  exists abe_rank rank_remain_set,
    get_rank_LiNGAM_one_thre Zscores thre_abe causal_order_lingam
    = Ok (abe_rank ++ rank_remain_set) /\
    abe_rank = filter (fun i => fge (nth i Zscores NaN) thre_abe)
                      causal_order_lingam /\
    Forall (fun i => (i < length Zscores)%nat /\
                     fge (nth i Zscores NaN) thre_abe = false)
           rank_remain_set /\
    StronglySorted (ranks_before Zscores) rank_remain_set.
Proof.
  do 2 eexists. split; [apply get_rank_LiNGAM_one_thre_value |].
  set (remain := remain_indices Zscores thre_abe).
  set (order := np_argsort _).
  assert (Ho : Forall (fun k => (k < length remain)%nat) order).
  { eapply Permutation_Forall;
      [apply Permutation_sym, np_argsort_perm |].
    rewrite !length_map. rewrite Forall_forall. intros k I.
    apply in_seq in I. lia. }
  assert (Hr : forall k, (k < length remain)%nat ->
                         (nth k remain O < length Zscores)%nat /\
                         fge (nth (nth k remain O) Zscores NaN) thre_abe
                         = false).
  { intros k L. pose proof (nth_In remain O L) as I.
    unfold remain in I at 2. rewrite remain_indices_filter in I.
    apply filter_In in I. destruct I as [I E]. apply in_seq in I.
    apply negb_true_iff in E. split; [lia | exact E]. }
  split; [| split].
  - apply filter_ext. intros i. apply existsb_abe_any.
  - rewrite Forall_forall in Ho |- *. intros i I.
    apply in_map_iff in I. destruct I as (k & <- & Ik).
    apply Hr. apply Ho. exact Ik.
  - eapply StronglySorted_map_in; [| apply np_argsort_sorted].
    rewrite Forall_forall in Ho.
    intros a b Ia Ib. unfold ranks_before, sort_le.
    assert (K : forall k, (k < length remain)%nat ->
                nth k (map fneg (map (fun j => nth j Zscores NaN) remain)) NaN
                = fneg (nth (nth k remain O) Zscores NaN)).
    { intros k L. rewrite map_map.
      rewrite (nth_indep _ NaN (fneg (nth O Zscores NaN)))
        by (rewrite length_map; exact L).
      apply (map_nth (fun j => fneg (nth j Zscores NaN)) remain O k). }
    rewrite (K a (Ho a Ia)), (K b (Ho b Ib)). intros H. exact H.
Qed.

Lemma fge_refl (a : fnum) : a <> NaN -> fge a a = true.
Proof.
  destruct a as [x | | |]; simpl; try reflexivity; try congruence.
  intros _. apply Qle_bool_iff. apply Qle_refl.
Qed.

(** X23.  With the threshold set to the z-score of the true root cause RC
    (the "optimal threshold" of [get_rank_LiNGAM]), and a causal order that
    lists every variable once, the first ranking returned places RC at a
    position smaller than the number of variables whose z-score is at
    least that of RC: RC is never ranked worse than by z-score alone. *)
Theorem optimal_threshold_rank_bound `{NumLib}
        (DirectLiNGAM_order : matrix -> result (list nat))
        (X_obs : matrix) (X_int : vector) (RC : nat)
        (Zscores : list fnum) (causal_order_lingam : list nat) :
  zscore X_obs X_int = Ok Zscores ->
  DirectLiNGAM_order X_obs = Ok causal_order_lingam ->
  Permutation causal_order_lingam (seq 0 (length Zscores)) ->
  (RC < length Zscores)%nat ->
  nth RC Zscores NaN <> NaN ->
  exists rank_opt rank_1 rank_2 rank_3 k,
    get_rank_LiNGAM DirectLiNGAM_order X_obs X_int RC
    = Ok (rank_opt, rank_1, rank_2, rank_3, nth RC Zscores NaN) /\
    nth k rank_opt O = RC /\
    (k < length (abe_indices Zscores (nth RC Zscores NaN)))%nat.
Proof.
  intros Hz Ho P L N. unfold get_rank_LiNGAM.
  rewrite Hz, Ho. cbn [bind].
  assert (G : getitem Zscores RC = Ok (nth RC Zscores NaN)).
  { unfold getitem. destruct (nth_error Zscores RC) eqn:E.
    - rewrite (nth_error_nth _ _ _ E). reflexivity.
    - apply nth_error_None in E. lia. }
  rewrite G. cbn [bind].
  rewrite !get_rank_LiNGAM_one_thre_value. cbn [bind].
  set (thre := nth RC Zscores NaN).
  set (abe_rank := filter _ causal_order_lingam).
  assert (I : In RC abe_rank).
  { apply filter_In. split.
    - eapply Permutation_in; [apply Permutation_sym; exact P |].
      apply in_seq. lia.
    - rewrite existsb_abe_any. apply fge_refl. exact N. }
  assert (La : length abe_rank = length (abe_indices Zscores thre)).
  { apply Permutation_length. unfold abe_rank.
    eapply perm_trans; [apply Permutation_filter_same; exact P |].
    apply Permutation_refl'.
    transitivity (filter (fun i => fge (nth i Zscores NaN) thre)
                         (seq 0 (length Zscores)));
      [| symmetry; apply abe_indices_filter].
    apply filter_ext. intros i. apply existsb_abe_any. }
  destruct (In_nth _ _ O I) as (k & Lk & Ek).
  do 4 eexists. exists k. split; [reflexivity |]. split.
  - rewrite app_nth1 by exact Lk. exact Ek.
  - rewrite <- La. exact Lk.
Qed.

Lemma optimal_threshold_rank_bound_witness :
  exists rank_opt rank_1 rank_2 rank_3 k,
    get_rank_LiNGAM (fun _ => Ok [2; 1; 0]%nat) X_obs_three [1; 2; 7] 1
    = Ok (rank_opt, rank_1, rank_2, rank_3, nth 1 z_three NaN) /\
    nth k rank_opt O = 1%nat /\
    (k < length (abe_indices z_three (nth 1 z_three NaN)))%nat.
Proof.
  apply (optimal_threshold_rank_bound
           (fun _ => Ok [2; 1; 0]%nat) X_obs_three [1; 2; 7] 1
           z_three [2; 1; 0]%nat).
  - vm_compute. reflexivity.
  - reflexivity.
  - simpl. apply Permutation_sym.
    apply (Permutation_cons_app [2%nat; 1%nat] [] O).
    apply (Permutation_cons_app [2%nat] [] 1%nat).
    apply Permutation_refl.
  - simpl. lia.
  - vm_compute. discriminate.
Defined.

(* ================================================================== *)
(** * The causal ordering of a coefficient matrix *)

Lemma py_in_true (x : nat) (l : list nat) : py_in x l = true <-> In x l.
Proof.
  unfold py_in. rewrite existsb_exists. split.
  - intros (y & I & E). apply Nat.eqb_eq in E. subst y. exact I.
  - intros I. exists x. split; [exact I | apply Nat.eqb_refl].
Qed.

Lemma py_in_false (x : nat) (l : list nat) : py_in x l = false <-> ~ In x l.
Proof.
  rewrite <- py_in_true. destruct (py_in x l); split; congruence.
Qed.

Lemma nonzero_zero : nonzero 0 = false.
Proof. reflexivity. Qed.

Lemma clear_from_length (cols : list nat) (row : vector) (j : nat) :
  length (clear_from cols j row) = length row.
Proof.
  revert j. induction row as [| x row IH]; intros j; simpl;
    [reflexivity | rewrite IH; reflexivity].
Qed.

Lemma clear_from_nth (cols : list nat) (row : vector) (j k : nat) :
  nth k (clear_from cols j row) 0
  = if py_in (j + k) cols then 0 else nth k row 0.
Proof.
  revert j k. induction row as [| x row IH]; intros j k; simpl.
  - destruct k; destruct (py_in _ cols); reflexivity.
  - destruct k as [| k].
    + rewrite Nat.add_0_r. reflexivity.
    + rewrite IH. replace (S j + k)%nat with (j + S k)%nat by lia.
      reflexivity.
Qed.

Lemma clear_columns_entries (p : nat) (B : matrix) (cols : list nat) :
  square_of p B ->
  (forall x, In x cols -> (x < p)%nat) ->
  exists B', clear_columns B cols = Ok B' /\
             square_of p B' /\
             forall i j, entry B' i j
                         = if py_in j cols then 0 else entry B i j.
Proof.
  intros [L F] Hc. unfold clear_columns.
  assert (Hb : forallb (fun j => j <? ncols B)%nat cols = true).
  { apply forallb_forall. intros x I. apply Nat.ltb_lt.
    pose proof (Hc x I) as Lx. unfold ncols.
    destruct B as [| row B]; simpl in *; [lia |].
    rewrite (Forall_inv F). exact Lx. }
  rewrite Hb. eexists. split; [reflexivity |]. split.
  - split; [rewrite length_map; exact L |].
    rewrite Forall_forall in F |- *. intros row I.
    apply in_map_iff in I. destruct I as (r & <- & I).
    rewrite clear_from_length. apply F. exact I.
  - intros i j. unfold entry.
    transitivity (nth j (clear_from cols 0 (nth i B [])) 0);
      [| apply clear_from_nth].
    f_equal. exact (map_nth (clear_from cols 0) B [] i).
Qed.

Lemma zero_row_spec (row : vector) :
  zero_row row = true <-> forall j, nonzero (nth j row 0) = false.
Proof.
  unfold zero_row. rewrite negb_true_iff. split.
  - intros H j. destruct (Nat.lt_ge_cases j (length row)) as [L | G].
    + destruct (nonzero (nth j row 0)) eqn:E; [| reflexivity].
      assert (X : existsb nonzero row = true).
      { apply existsb_exists. exists (nth j row 0).
        split; [apply nth_In; exact L | exact E]. }
      congruence.
    + rewrite (nth_overflow _ _ G). reflexivity.
  - intros H. destruct (existsb nonzero row) eqn:E; [| reflexivity].
    apply existsb_exists in E. destruct E as (x & I & E).
    apply (In_nth _ _ 0) in I. destruct I as (j & _ & <-).
    rewrite H in E. discriminate E.
Qed.

Lemma zero_rows_In (B : matrix) (i : nat) :
  In i (zero_rows B) <-> (i < length B)%nat /\ forall j, nz B i j = false.
Proof.
  unfold zero_rows. rewrite (np_where_In zero_row [] B i).
  rewrite zero_row_spec. reflexivity.
Qed.

Lemma zero_rows_NoDup (B : matrix) : NoDup (zero_rows B).
Proof. apply (np_where_NoDup zero_row B []). Qed.

Lemma any_nonzero_false (B : matrix) :
  any_nonzero B = false <-> forall i j, nz B i j = false.
Proof.
  unfold any_nonzero. split.
  - intros H i j. unfold nz, entry.
    destruct (Nat.lt_ge_cases i (length B)) as [L | G].
    + assert (Z : zero_row (nth i B []) = true).
      { unfold zero_row. apply negb_true_iff.
        destruct (existsb nonzero (nth i B [])) eqn:E; [| reflexivity].
        assert (X : existsb (existsb nonzero) B = true).
        { apply existsb_exists. exists (nth i B []).
          split; [apply nth_In; exact L | exact E]. }
        congruence. }
      apply zero_row_spec. exact Z.
    + rewrite (nth_overflow _ _ G). destruct j; reflexivity.
  - intros H. destruct (existsb (existsb nonzero) B) eqn:E; [| reflexivity].
    apply existsb_exists in E. destruct E as (row & I & E).
    apply (In_nth _ _ []) in I. destruct I as (i & _ & <-).
    apply existsb_exists in E. destruct E as (x & I & E).
    apply (In_nth _ _ 0) in I. destruct I as (j & _ & <-).
    specialize (H i j). unfold nz, entry in H. congruence.
Qed.

Lemma nz_in_rows (B : matrix) (i j : nat) :
  nz B i j = true -> (i < length B)%nat.
Proof.
  intros H. destruct (Nat.lt_ge_cases i (length B)) as [L | G];
    [exact L |].
  unfold nz, entry in H. rewrite (nth_overflow _ _ G) in H.
  destruct j; discriminate H.
Qed.

Lemma precedes_app (l l' : list nat) (j i : nat) :
  precedes l j i -> precedes (l ++ l') j i.
Proof.
  intros (l1 & l2 & -> & Ij & Ii). exists l1, (l2 ++ l').
  split; [symmetry; apply app_assoc |].
  split; [exact Ij | apply in_or_app; left; exact Ii].
Qed.

(** The loop starts in a state that satisfies the invariant. *)
Lemma ordering_state_start (B : matrix) :
  square_of (length B) B -> ordering_state B B [] [].
Proof.
  intros S. constructor.
  - exact S.
  - intros i j. reflexivity.
  - intros x. reflexivity.
  - constructor.
  - constructor.
  - intros x [].
  - intros i j [].
  - intros i j [].
Qed.

(** In a state of the loop, the rows without a non-zero entry are the
    variables all of whose parents have been listed. *)
Lemma zero_rows_state (B B_copy : matrix) (causal old : list nat) :
  ordering_state B B_copy causal old ->
  forall i, In i (zero_rows B_copy) <->
            (i < length B)%nat /\
            forall j, nz B i j = true -> In j old.
Proof.
  intros [Sq En Sa Nd Ndo Bd Cl To] i.
  assert (Len : length B_copy = length B) by exact (proj1 Sq).
  rewrite zero_rows_In, Len. apply and_iff_compat_l.
  split; intros H j.
  - intros N. specialize (H j). unfold nz in H, N. rewrite En in H.
    destruct (py_in j old) eqn:P; [apply py_in_true; exact P |].
    congruence.
  - unfold nz. rewrite En. destruct (py_in j old) eqn:P;
      [reflexivity |].
    destruct (nonzero (entry B i j)) eqn:N; [| reflexivity].
    apply H in N. apply py_in_true in N. congruence.
Qed.

(** One round of the loop keeps the invariant, and does not raise. *)
Lemma ordering_state_step (B B_copy : matrix) (causal old : list nat) :
  ordering_state B B_copy causal old ->
  incl old (zero_rows B_copy) /\
  exists B',
    clear_columns B_copy (zero_rows B_copy) = Ok B' /\
    ordering_state B B'
      (causal ++ filter (fun x => negb (py_in x old)) (zero_rows B_copy))
      (zero_rows B_copy).
Proof.
  intros St. pose proof (zero_rows_state _ _ _ _ St) as Zr.
  destruct St as [Sq En Sa Nd Ndo Bd Cl To].
  assert (Inc : incl old (zero_rows B_copy)).
  { intros i I. apply Zr. split; [apply Bd; exact I |].
    intros j N. exact (Cl i j I N). }
  split; [exact Inc |].
  destruct (clear_columns_entries (length B) B_copy (zero_rows B_copy) Sq)
    as (B' & Hc & Sq' & En').
  { intros x I. apply Zr in I. exact (proj1 I). }
  exists B'. split; [exact Hc |].
  set (new := filter (fun x => negb (py_in x old)) (zero_rows B_copy)).
  assert (New : forall x, In x new <->
                          In x (zero_rows B_copy) /\ ~ In x old).
  { intros x. unfold new. rewrite filter_In, negb_true_iff, py_in_false.
    reflexivity. }
  constructor.
  - exact Sq'.
  - intros i j. rewrite En', En.
    destruct (py_in j (zero_rows B_copy)) eqn:P; [reflexivity |].
    destruct (py_in j old) eqn:Q; [| reflexivity].
    apply py_in_true in Q. apply Inc in Q. apply py_in_true in Q.
    congruence.
  - intros x. rewrite in_app_iff, New, Sa. split.
    + intros [I | [I _]]; [apply Inc; exact I | exact I].
    + intros I. destruct (in_dec Nat.eq_dec x old) as [O | O];
        [left; exact O | right; split; assumption].
  - apply NoDup_app; [exact Nd | apply NoDup_filter, zero_rows_NoDup |].
    intros x I J. apply New in J. apply Sa in I. exact (proj2 J I).
  - apply zero_rows_NoDup.
  - intros x I. apply Zr in I. exact (proj1 I).
  - intros i j I N. apply Zr in I. apply Inc. exact (proj2 I j N).
  - intros i j I N. apply in_app_or in I. destruct I as [I | I].
    + apply precedes_app. exact (To i j I N).
    + exists causal, new. split; [reflexivity |]. split; [| exact I].
      apply Sa. apply New in I. destruct I as [I _].
      apply Zr in I. exact (proj2 I j N).
Qed.

(** What the last statements make of a state in which nothing is left of
    the matrix. *)
Lemma ordering_state_finish (B B_copy : matrix) (causal old : list nat) :
  ordering_state B B_copy causal old ->
  any_nonzero B_copy = false ->
  let r := causal
           ++ filter (fun x => negb (py_in x causal)) (seq 0 (length B)) in
  Permutation r (seq 0 (length B)) /\
  forall i j, nz B i j = true -> precedes r j i.
Proof.
  intros [Sq En Sa Nd Ndo Bd Cl To] Z r.
  assert (Par : forall i j, nz B i j = true -> In j causal).
  { intros i j N. apply Sa.
    pose proof (proj1 (any_nonzero_false B_copy) Z i j) as H.
    unfold nz in H, N. rewrite En in H.
    destruct (py_in j old) eqn:P; [apply py_in_true; exact P |].
    congruence. }
  split.
  - unfold r.
    eapply perm_trans;
      [| apply (filter_split_perm (fun x => negb (py_in x causal)))].
    apply Permutation_app; [| apply Permutation_refl].
    apply NoDup_Permutation_bis; [exact Nd | |].
    + apply NoDup_incl_length.
      * apply NoDup_filter, seq_NoDup.
      * intros x I. apply filter_In in I. destruct I as [_ I].
        rewrite negb_involutive in I. apply py_in_true. exact I.
    + intros x I. apply filter_In. split.
      * apply in_seq. apply Sa in I. apply Bd in I. lia.
      * rewrite negb_involutive. apply py_in_true. exact I.
  - intros i j N. pose proof (Par i j N) as Ij.
    destruct (in_dec Nat.eq_dec i causal) as [I | I].
    + apply precedes_app. exact (To i j I N).
    + eexists causal, _. split; [reflexivity |]. split; [exact Ij |].
      apply filter_In. split.
      * apply in_seq. pose proof (nz_in_rows B i j N). lia.
      * apply negb_true_iff. apply py_in_false. exact I.
Qed.

(** Whenever the loop ends, it ends with an ordering of all the variables
    that lists parents first; it does not raise. *)
Lemma feasible_loop_result (B : matrix) (fuel : nat) :
  forall B_copy causal old res,
    ordering_state B B_copy causal old ->
    feasible_loop fuel (length B) B_copy causal old = Some res ->
    exists r, res = Ok r /\
              Permutation r (seq 0 (length B)) /\
              forall i j, nz B i j = true -> precedes r j i.
Proof.
  induction fuel as [| fuel IH]; intros B_copy causal old res St E;
    [discriminate E |].
  cbn [feasible_loop] in E.
  destruct (any_nonzero B_copy) eqn:A.
  - destruct (ordering_state_step _ _ _ _ St) as (_ & B' & Hc & St').
    rewrite Hc in E. exact (IH _ _ _ _ St' E).
  - injection E as <-. eexists. split; [reflexivity |].
    exact (ordering_state_finish _ _ _ _ St A).
Qed.


Lemma any_nonzero_true (B : matrix) :
  any_nonzero B = true -> exists i j, nz B i j = true.
Proof.
  unfold any_nonzero. intros E.
  apply existsb_exists in E. destruct E as (row & I & E).
  apply (In_nth _ _ []) in I. destruct I as (i & _ & <-).
  apply existsb_exists in E. destruct E as (x & I & E).
  apply (In_nth _ _ 0) in I. destruct I as (j & _ & <-).
  exists i, j. exact E.
Qed.

Lemma nz_in_cols (B : matrix) (i j : nat) :
  square_of (length B) B -> nz B i j = true -> (j < length B)%nat.
Proof.
  intros [_ F] H. pose proof (nz_in_rows B i j H) as Li.
  rewrite Forall_forall in F.
  rewrite <- (F (nth i B []) (nth_In B [] Li)).
  destruct (Nat.lt_ge_cases j (length (nth i B []))) as [L | G];
    [exact L |].
  unfold nz, entry in H. rewrite (nth_overflow _ _ G) in H.
  discriminate H.
Qed.

(** In a matrix without a cycle, below every variable that has not been
    listed there is one all of whose parents have been. *)
Lemma acyclic_next (B : matrix) (rank : nat -> nat) (old : list nat) :
  square_of (length B) B ->
  (forall i j, nz B i j = true -> (rank j < rank i)%nat) ->
  forall n m, (m < length B)%nat -> ~ In m old -> (rank m <= n)%nat ->
    exists m', (m' < length B)%nat /\ ~ In m' old /\
               forall j, nz B m' j = true -> In j old.
Proof.
  intros Sq Hr. induction n as [| n IH]; intros m Lm Hm Rm.
  - exists m. split; [exact Lm |]. split; [exact Hm |].
    intros j N. apply Hr in N. lia.
  - set (bad := filter (fun j => nz B m j && negb (py_in j old))
                       (seq 0 (length B))).
    destruct bad as [| j bad'] eqn:Eb.
    + exists m. split; [exact Lm |]. split; [exact Hm |].
      intros j N. apply py_in_true.
      destruct (py_in j old) eqn:P; [reflexivity |].
      assert (I : In j bad).
      { apply filter_In. split.
        - apply in_seq. pose proof (nz_in_cols B m j Sq N). lia.
        - rewrite N, P. reflexivity. }
      rewrite Eb in I. destruct I.
    + assert (I : In j bad) by (rewrite Eb; left; reflexivity).
      apply filter_In in I. destruct I as [I E].
      apply andb_true_iff in E. destruct E as [N P].
      apply negb_true_iff in P. apply py_in_false in P.
      apply in_seq in I. apply (IH j); [lia | exact P |].
      apply Hr in N. lia.
Qed.

(** While something is left of an acyclic matrix, a round of the loop
    finds a new row without a non-zero entry. *)
Lemma ordering_state_progress (B B_copy : matrix) (rank : nat -> nat)
      (causal old : list nat) :
  square_of (length B) B ->
  (forall i j, nz B i j = true -> (rank j < rank i)%nat) ->
  ordering_state B B_copy causal old ->
  any_nonzero B_copy = true ->
  (length old < length (zero_rows B_copy))%nat.
Proof.
  intros Sq Hr St A.
  pose proof (zero_rows_state _ _ _ _ St) as Zr.
  destruct (ordering_state_step _ _ _ _ St) as [Inc _].
  destruct (any_nonzero_true _ A) as (i & j & N).
  unfold nz in N. rewrite (st_entries St) in N.
  destruct (py_in j old) eqn:P; [discriminate N |].
  apply py_in_false in P.
  destruct (acyclic_next B rank old Sq Hr (rank j) j) as (m & Lm & Hm & Pm).
  - exact (nz_in_cols B i j Sq N).
  - exact P.
  - apply Nat.le_refl.
  - assert (L : (length (m :: old) <= length (zero_rows B_copy))%nat).
    { apply NoDup_incl_length.
      - constructor; [exact Hm | exact (st_old_nodup St)].
      - intros x [<- | I]; [| apply Inc; exact I].
        apply Zr. split; assumption. }
    simpl in L. lia.
Qed.

Lemma zero_rows_length (B : matrix) :
  (length (zero_rows B) <= length B)%nat.
Proof.
  apply Nat.le_trans with (length (seq 0 (length B)));
    [| rewrite length_seq; apply Nat.le_refl].
  apply NoDup_incl_length.
  - apply zero_rows_NoDup.
  - intros x I. apply zero_rows_In in I. apply in_seq. lia.
Qed.

(** On an acyclic matrix the loop ends once every variable could have been
    listed. *)
Lemma feasible_loop_returns (B : matrix) (rank : nat -> nat) :
  square_of (length B) B ->
  (forall i j, nz B i j = true -> (rank j < rank i)%nat) ->
  forall fuel B_copy causal old,
    ordering_state B B_copy causal old ->
    (length B - length old < fuel)%nat ->
    exists res, feasible_loop fuel (length B) B_copy causal old = Some res.
Proof.
  intros Sq Hr. induction fuel as [| fuel IH];
    intros B_copy causal old St L; [lia |].
  cbn [feasible_loop]. destruct (any_nonzero B_copy) eqn:A.
  - pose proof (ordering_state_progress _ _ rank _ _ Sq Hr St A) as Pr.
    destruct (ordering_state_step _ _ _ _ St) as (_ & B' & Hc & St').
    rewrite Hc. apply (IH _ _ _ St').
    pose proof (st_square St') as [Len _].
    pose proof (zero_rows_length B_copy) as Lz.
    rewrite (proj1 (st_square St)) in Lz. lia.
  - eexists. reflexivity.
Qed.

Lemma get_feasible_ordering_start (B : matrix) :
  square_of (length B) B ->
  exists B_copy,
    clear_columns B (zero_rows B) = Ok B_copy /\
    ordering_state B B_copy ([] ++ zero_rows B) (zero_rows B).
Proof.
  intros Sq.
  destruct (ordering_state_step _ _ _ _ (ordering_state_start B Sq))
    as (_ & B' & Hc & St).
  exists B'. split; [exact Hc |].
  rewrite filter_all in St; [exact St |].
  rewrite Forall_forall. intros x _. reflexivity.
Qed.

(** X24.  On a square coefficient matrix without a directed cycle (some
    rank decreases from every variable to each of its parents),
    [get_feasible_ordering] returns, after at most p rounds of its loop;
    what it returns lists each of the p variables exactly once and lists
    every parent before its child. *)
Theorem get_feasible_ordering_acyclic
        (B : matrix) (rank : nat -> nat) (fuel : nat) :
  square_of (nrows B) B ->
  (forall i j, nz B i j = true -> (rank j < rank i)%nat) ->
  (nrows B < fuel)%nat ->
  exists causal_ordering,
    get_feasible_ordering fuel B = Some (Ok causal_ordering) /\
    Permutation causal_ordering (seq 0 (nrows B)) /\
    forall i j, nz B i j = true -> precedes causal_ordering j i.
Proof.
  unfold nrows. intros Sq Hr L.
  destruct (get_feasible_ordering_start B Sq) as (B_copy & Hc & St).
  unfold get_feasible_ordering, nrows. rewrite Hc.
  destruct (feasible_loop_returns B rank Sq Hr fuel _ _ _ St) as [res E];
    [lia |].
  destruct (feasible_loop_result B fuel _ _ _ _ St E) as (r & -> & P & T).
  exists r. split; [exact E |]. split; [exact P | exact T].
Qed.

Lemma get_feasible_ordering_acyclic_witness :
  exists causal_ordering,
    get_feasible_ordering 4 B_chain = Some (Ok causal_ordering) /\
    Permutation causal_ordering (seq 0 (nrows B_chain)) /\
    forall i j, nz B_chain i j = true -> precedes causal_ordering j i.
Proof.
  apply (get_feasible_ordering_acyclic B_chain (fun i => i) 4).
  - split; [reflexivity |]. repeat constructor.
  - intros i j E.
    destruct i as [| [| [| [| i]]]]; destruct j as [| [| [| [| j]]]];
      try discriminate E; lia.
  - simpl. lia.
Defined.

(** With a directed cycle in the matrix, no variable of the cycle is ever
    listed, and the loop goes on. *)
Lemma feasible_loop_cycle (B : matrix) (S : list nat) :
  S <> [] ->
  (forall i, In i S -> exists j, In j S /\ nz B i j = true) ->
  forall fuel B_copy causal old,
    ordering_state B B_copy causal old ->
    (forall x, In x S -> ~ In x old) ->
    feasible_loop fuel (length B) B_copy causal old = None.
Proof.
  intros Hne Hc. induction fuel as [| fuel IH];
    intros B_copy causal old St Ho; [reflexivity |].
  cbn [feasible_loop].
  assert (A : any_nonzero B_copy = true).
  { destruct S as [| x S']; [congruence |].
    destruct (Hc x (or_introl eq_refl)) as (y & Iy & N).
    destruct (any_nonzero B_copy) eqn:A; [reflexivity |].
    pose proof (proj1 (any_nonzero_false B_copy) A x y) as Z.
    unfold nz in Z, N. rewrite (st_entries St) in Z.
    pose proof (proj2 (py_in_false y old) (Ho y Iy)) as P.
    rewrite P in Z. congruence. }
  rewrite A.
  pose proof (zero_rows_state _ _ _ _ St) as Zr.
  destruct (ordering_state_step _ _ _ _ St) as (_ & B' & Hcl & St').
  rewrite Hcl. apply (IH _ _ _ St').
  intros x Ix I. apply Zr in I. destruct I as [_ I].
  destruct (Hc x Ix) as (y & Iy & N).
  exact (Ho y Iy (I y N)).
Qed.

(** X25.  On a square coefficient matrix with a directed cycle (a
    non-empty set of variables each of which has a parent in the set; a
    non-zero diagonal entry is the smallest case), the loop of
    [get_feasible_ordering] never ends: however many rounds are allowed,
    no ordering is returned and no exception is raised. *)
Theorem get_feasible_ordering_cycle
        (B : matrix) (S : list nat) (fuel : nat) :
  square_of (nrows B) B ->
  S <> [] ->
  (forall i, In i S -> exists j, In j S /\ nz B i j = true) ->
  get_feasible_ordering fuel B = None.
Proof.
  unfold nrows. intros Sq Hne Hc.
  destruct (get_feasible_ordering_start B Sq) as (B_copy & Hcl & St).
  unfold get_feasible_ordering, nrows. rewrite Hcl.
  apply (feasible_loop_cycle B S Hne Hc fuel _ _ _ St).
  intros x Ix I. apply zero_rows_In in I. destruct I as [_ I].
  destruct (Hc x Ix) as (y & _ & N). rewrite I in N. discriminate N.
Qed.

Lemma get_feasible_ordering_cycle_witness :
  get_feasible_ordering 1000 B_cycle = None.
Proof.
  apply (get_feasible_ordering_cycle B_cycle [0; 1]%nat 1000).
  - split; [reflexivity |]. repeat constructor.
  - discriminate.
  - intros i [<- | [<- | []]].
    + exists 1%nat. split; [right; left; reflexivity | reflexivity].
    + exists 0%nat. split; [left; reflexivity | reflexivity].
Defined.
